(** * The JSON editor view of the obsidian-json plugin (src/main.ts)

    A shallow embedding of [JsonEditorView]: the click handler installed by
    [onOpen], the recursive field builder [createFields] of [displayEditor],
    the [onChange] callback of every text field and the text written by the
    save button, and of the plugin's settings: [loadSettings],
    [saveSettings] and the settings tab.  The platform functions they call
    ([JSON.parse], [JSON.stringify], [Object.keys], [Object.assign],
    [Array.prototype.sort], [String]) are modelled after ECMA-262 on the
    values [JSON.parse] can build. *)

From Stdlib Require Import String Ascii.
From Stdlib Require Import ZArith List Bool Lia Permutation Sorted.
Import ListNotations.
Local Open Scope Z_scope.

(** ** Strings

    A JavaScript string is a sequence of UTF-16 code units, the integers
    below 65536.  The characters the grammar names are written by their
    codes: 9 TAB, 10 LF, 13 CR, 32 SPACE, 34 the double quote, 43 [+],
    44 [,], 45 [-], 46 [.], 47 [/], 48 to 57 the digits, 58 [:], 69 [E],
    91 the opening and 93 the closing bracket, 92 the backslash, 101 [e],
    117 [u], 123 the opening and 125 the closing brace. *)

Definition jsstring : Type := list Z.

(** The code units of an ASCII literal. *)
Definition lit (s : string) : jsstring :=
  map (fun c => Z.of_N (N_of_ascii c)) (list_ascii_of_string s).

(** The same with every apostrophe read as a double quote, to write JSON
    text. *)
Definition json (s : string) : jsstring :=
  map (fun c => if c =? 39 then 34 else c) (lit s).

Fixpoint str_eqb (a b : jsstring) : bool :=
  match a, b with
  | [], [] => true
  | x :: a', y :: b' => (x =? y) && str_eqb a' b'
  | _, _ => false
  end.

(** [a < b] on strings (ECMA-262 IsLessThan): a proper prefix is smaller,
    otherwise the first differing code unit decides. *)
Fixpoint str_ltb (a b : jsstring) : bool :=
  match a, b with
  | [], [] => false
  | [], _ :: _ => true
  | _ :: _, [] => false
  | x :: a', y :: b' => if x <? y then true else if y <? x then false else str_ltb a' b'
  end.

(** *** Decimal numerals *)

Definition digit_char (d : Z) : Z := 48 + d.

Definition is_digit (c : Z) : bool := (48 <=? c) && (c <=? 57).

Fixpoint to_digits_aux (fuel : nat) (n : Z) (acc : list Z) : list Z :=
  match fuel with
  | O => acc
  | S f => if n <? 10 then n :: acc else to_digits_aux f (n / 10) (n mod 10 :: acc)
  end.

(** The decimal digits of [n >= 0], most significant first; [0] gives [[0]]. *)
Definition to_digits (n : Z) : list Z :=
  to_digits_aux (S (Z.to_nat (Z.log2 n))) n [].

Definition digits_value (ds : list Z) : Z :=
  fold_left (fun acc d => 10 * acc + d) ds 0.

Definition decimal (n : Z) : jsstring := map digit_char (to_digits n).

Definition chars_value (cs : jsstring) : Z :=
  digits_value (map (fun c => c - 48) cs).

(** A canonical numeric string of a non-negative integer: decimal digits with
    no leading zero (["0"] itself apart). *)
Definition index_of_key (k : jsstring) : option Z :=
  match k with
  | [] => None
  | c :: rest =>
      if forallb is_digit k && (negb (c =? 48) || match rest with [] => true | _ => false end)
      then Some (chars_value k) else None
  end.

(** An array index (ECMA-262 6.1.7): an integer index in [0, 2^32 - 2]. *)
Definition array_index_of_key (k : jsstring) : option Z :=
  match index_of_key k with
  | Some i => if i <=? 4294967294 then Some i else None
  | None => None
  end.

(** ** Numbers

    The Number type: IEEE 754 binary64.  [Finite neg m e] is
    [(-1)^neg * m * 2^e]. *)

Inductive Number : Type :=
| NaN
| Infinity (neg : bool)
| Zero (neg : bool)
| Finite (neg : bool) (m : positive) (e : Z).

Definition valid_number (x : Number) : bool :=
  match x with
  | Finite _ m e =>
      (Z.pos m <? 2 ^ 53) && (-1074 <=? e) && (e <=? 971)
      && ((2 ^ 52 <=? Z.pos m) || (e =? -1074))
  | _ => true
  end.

Definition is_finite (x : Number) : bool :=
  match x with
  | Zero _ | Finite _ _ _ => true
  | _ => false
  end.

(** [x === y] on Numbers: NaN differs from everything, the two zeros are equal. *)
Definition number_eqb (x y : Number) : bool :=
  match x, y with
  | Infinity a, Infinity b => Bool.eqb a b
  | Zero _, Zero _ => true
  | Finite a m e, Finite b m' e' => Bool.eqb a b && Pos.eqb m m' && (e =? e')
  | _, _ => false
  end.

(** [p / q >= 2^d] for positive [p], [q]. *)
Definition ge_pow2 (p q d : Z) : bool :=
  if 0 <=? d then q * 2 ^ d <=? p else q <=? p * 2 ^ (- d).

(** [floor (log2 (p / q))] for positive [p], [q]. *)
Definition ilog2_ratio (p q : Z) : Z :=
  let d := Z.log2 p - Z.log2 q in
  if ge_pow2 p q d then d else d - 1.

(** Round to nearest, ties to even, of [(q0 * d + r) / d] to an integer. *)
Definition round_half_even (q0 r d : Z) : Z :=
  if 2 * r <? d then q0
  else if d <? 2 * r then q0 + 1
  else if Z.even q0 then q0 else q0 + 1.

(** [p / q] scaled by [2^-e], as numerator and denominator. *)
Definition scaled_num (p e : Z) : Z := if 0 <=? e then p else p * 2 ^ (- e).
Definition scaled_den (q e : Z) : Z := if 0 <=? e then q * 2 ^ e else q.

(** The Number value of the positive rational [p / q] (ECMA-262 6.1.6.1):
    the binary64 value nearest to it, ties to even, [Infinity] from
    [2^1024 - 2^970] on and [Zero] up to [2^-1075]. *)
Definition round_pos (neg : bool) (p q : Z) : Number :=
  let e := Z.max (-1074) (ilog2_ratio p q - 52) in
  let num := scaled_num p e in
  let den := scaled_den q e in
  let m := round_half_even (num / den) (num mod den) den in
  let '(m, e) := if m =? 2 ^ 53 then (2 ^ 52, e + 1) else (m, e) in
  match m with
  | Z.pos mp => if 971 <? e then Infinity neg else Finite neg mp e
  | _ => Zero neg
  end.

(** The Number value of the decimal [d * 10^e10], [d >= 0]. *)
Definition round_decimal (neg : bool) (d e10 : Z) : Number :=
  if d =? 0 then Zero neg
  else if 0 <=? e10 then round_pos neg (d * 10 ^ e10) 1
  else round_pos neg d (10 ^ (- e10)).

(** [p / q = m * 2^e], without division. *)
Definition is_ratio (p q : Z) (m : positive) (e : Z) : Prop :=
  scaled_num p e = Z.pos m * scaled_den q e.

(** *** Number::toString (ECMA-262 6.1.6.1.20, radix 10) *)

Fixpoint ndigits_fuel (fuel : nat) (y : Z) : Z :=
  match fuel with
  | O => 0
  | S f => if y <=? 0 then 0 else 1 + ndigits_fuel f (y / 10)
  end.

(** The number of decimal digits of [y > 0]; [0] for [y <= 0]. *)
Definition ndigits (y : Z) : Z := ndigits_fuel (S (Z.to_nat (Z.log2 y))) y.

(** The [n] with [10^(n-1) <= p/q < 10^n], for positive [p], [q]. *)
Definition decimal_exponent (p q : Z) : Z :=
  if q <=? p then ndigits (p / q)
  else 1 - ndigits ((q + p - 1) / p - 1).

(** [p / q] scaled by [10^(k-n)], as numerator and denominator. *)
Definition dec_num (p n k : Z) : Z := if 0 <=? k - n then p * 10 ^ (k - n) else p.
Definition dec_den (q n k : Z) : Z := if 0 <=? k - n then q else q * 10 ^ (n - k).

(** The two [k]-digit decimals [s * 10^(n-k)] around [p/q], the nearer one
    first (the even one on a tie); [10^k] is written [10^(k-1)] with [n+1]. *)
Definition candidates (p q n k : Z) : list (Z * Z) :=
  let num := dec_num p n k in
  let den := dec_den q n k in
  let lo := num / den in
  let r := num mod den in
  let hi := if lo + 1 =? 10 ^ k then (10 ^ (k - 1), n + 1) else (lo + 1, n) in
  if r =? 0 then [(lo, n)]
  else if round_half_even lo r den =? lo then [(lo, n); hi] else [hi; (lo, n)].

Definition rounds_to (x : Number) (k : Z) (c : Z * Z) : bool :=
  let '(s, n) := c in
  match x, round_decimal false s (n - k) with
  | Finite _ m e, Finite _ m' e' => Pos.eqb m m' && (e =? e')
  | _, _ => false
  end.

(** The least [k >= k0] (at most [fuel] tries) with a [k]-digit decimal whose
    Number value is [x]; the result is [(s, n, k)]. *)
Fixpoint shortest_from (fuel : nat) (x : Number) (p q n k : Z) : option (Z * Z * Z) :=
  match fuel with
  | O => None
  | S f =>
      match find (rounds_to x k) (candidates p q n k) with
      | Some (s, n') => Some (s, n', k)
      | None => shortest_from f x p q n (k + 1)
      end
  end.

(** [n], [k] and [s] of Number::toString step 5 for [m * 2^e]: every finite
    value is a decimal of [n + max 0 (-e)] digits, which bounds the search. *)
Definition shortest_decimal (m : positive) (e : Z) : option (Z * Z * Z) :=
  let p := if 0 <=? e then Z.pos m * 2 ^ e else Z.pos m in
  let q := if 0 <=? e then 1 else 2 ^ (- e) in
  let n := decimal_exponent p q in
  shortest_from (Z.to_nat (n + Z.max 0 (- e))) (Finite false m e) p q n 1.

Definition zeros (n : Z) : jsstring := repeat 48 (Z.to_nat n).

(** Steps 6 to 10 of Number::toString: the text of [s * 10^(n-k)]. *)
Definition format_decimal (s n k : Z) : jsstring :=
  let ds := decimal s in
  if (k <=? n) && (n <=? 21) then ds ++ zeros (n - k)
  else if (0 <? n) && (n <=? 21) then
    firstn (Z.to_nat n) ds ++ [46] ++ skipn (Z.to_nat n) ds
  else if (-6 <? n) && (n <=? 0) then [48; 46] ++ zeros (- n) ++ ds
  else
    let ex := (if 0 <? n - 1 then [43] else [45]) ++ decimal (Z.abs (n - 1)) in
    match ds with
    | d :: more =>
        match more with
        | [] => [d] ++ [101] ++ ex
        | _ => [d; 46] ++ more ++ [101] ++ ex
        end
    | [] => [101] ++ ex
    end.

Definition NumberToString (x : Number) : jsstring :=
  match x with
  | NaN => lit "NaN"
  | Zero _ => lit "0"
  | Infinity neg => (if neg then [45] else []) ++ lit "Infinity"
  | Finite neg m e =>
      (if neg then [45] else [])
      ++ match shortest_decimal m e with
         | Some (s, n, k) => format_decimal s n k
         | None => []
         end
  end.

(** The Number value of an integer. *)
Definition f64 (z : Z) : Number := round_decimal (z <? 0) (Z.abs z) 0.

(** ** Values

    What [JSON.parse] builds: primitives, arrays and plain objects.  An
    object is the list of its own properties in [[OwnPropertyKeys]] order. *)

#[local] Set Warnings "-register-all".

Inductive JsValue : Type :=
| JNull
| JBool (b : bool)
| JNumber (x : Number)
| JString (s : jsstring)
| JArray (elems : list JsValue)
| JObject (props : list (jsstring * JsValue)).

(** [typeof value === "object" && value !== null]; [None] is [undefined]. *)
Definition is_object (v : option JsValue) : bool :=
  match v with
  | Some (JArray _) | Some (JObject _) => true
  | _ => false
  end.

(** [String(value)] on a primitive.  [createFields] calls it on nothing
    else, and the text of an object or an array is left empty here. *)
Definition ToString (v : option JsValue) : jsstring :=
  match v with
  | None => lit "undefined"
  | Some JNull => lit "null"
  | Some (JBool true) => lit "true"
  | Some (JBool false) => lit "false"
  | Some (JNumber x) => NumberToString x
  | Some (JString s) => s
  | Some (JArray _) | Some (JObject _) => []
  end.

Definition indices (n : nat) : list Z := map Z.of_nat (seq 0 n).

(** [Object.keys(data)]: the indices of an array in ascending order, the own
    property keys of an object in property order.  [createFields] is only
    called on arrays and objects. *)
Definition Object_keys (data : JsValue) : list jsstring :=
  match data with
  | JArray elems => map decimal (indices (length elems))
  | JObject props => map fst props
  | _ => []
  end.

Fixpoint assoc (key : jsstring) (props : list (jsstring * JsValue)) : option JsValue :=
  match props with
  | [] => None
  | (k, v) :: rest => if str_eqb k key then Some v else assoc key rest
  end.

(** [data[key]]; [None] is [undefined]. *)
Definition Get (data : JsValue) (key : jsstring) : option JsValue :=
  match data with
  | JArray elems =>
      match index_of_key key with
      | Some i => nth_error elems (Z.to_nat i)
      | None => None
      end
  | JObject props => assoc key props
  | _ => None
  end.

Fixpoint has_key (key : jsstring) (props : list (jsstring * JsValue)) : bool :=
  match props with
  | [] => false
  | (k, _) :: rest => str_eqb k key || has_key key rest
  end.

Fixpoint replace_value (key : jsstring) (v : JsValue) (props : list (jsstring * JsValue))
  : list (jsstring * JsValue) :=
  match props with
  | [] => []
  | (k, w) :: rest =>
      if str_eqb k key then (k, v) :: rest else (k, w) :: replace_value key v rest
  end.

(** A new property whose key is the array index [i]: after the smaller
    array indices, before the larger ones and before every other key. *)
Fixpoint insert_index (i : Z) (key : jsstring) (v : JsValue) (props : list (jsstring * JsValue))
  : list (jsstring * JsValue) :=
  match props with
  | [] => [(key, v)]
  | (k, w) :: rest =>
      match array_index_of_key k with
      | Some j => if j <? i then (k, w) :: insert_index i key v rest
                  else (key, v) :: props
      | None => (key, v) :: props
      end
  end.

(** CreateDataProperty on an ordinary object: an existing property keeps its
    place; a new one is listed as OrdinaryOwnPropertyKeys orders it, array
    indices ascending first, then the other keys in creation order. *)
Definition define_property (key : jsstring) (v : JsValue) (props : list (jsstring * JsValue))
  : list (jsstring * JsValue) :=
  if has_key key props then replace_value key v props
  else match array_index_of_key key with
       | Some i => insert_index i key v props
       | None => props ++ [(key, v)]
       end.

Fixpoint replace_nth (n : nat) (v : JsValue) (elems : list JsValue) : option (list JsValue) :=
  match elems, n with
  | [], _ => None
  | _ :: rest, O => Some (v :: rest)
  | x :: rest, S n' => option_map (cons x) (replace_nth n' v rest)
  end.

(** [data[key] = v].  On an array the key must be one of its indices: an
    assignment past the end would leave holes, which no value of this model
    has; [createFields] only assigns to keys [Object.keys] listed. *)
Definition Put (data : JsValue) (key : jsstring) (v : JsValue) : option JsValue :=
  match data with
  | JArray elems =>
      match index_of_key key with
      | Some i => option_map JArray (replace_nth (Z.to_nat i) v elems)
      | None => None
      end
  | JObject props => Some (JObject (define_property key v props))
  | _ => None
  end.

(** *** Array.prototype.sort with the default comparison

    The keys are sorted as strings by [str_ltb]; an insertion sort, stable as
    ECMA-262 requires. *)

Fixpoint insert_sorted (k : jsstring) (l : list jsstring) : list jsstring :=
  match l with
  | [] => [k]
  | x :: rest => if str_ltb x k then x :: insert_sorted k rest else k :: l
  end.

Fixpoint sort (l : list jsstring) : list jsstring :=
  match l with
  | [] => []
  | k :: rest => insert_sorted k (sort rest)
  end.

(** ** JSON.stringify(value, null, 2)  (ECMA-262 25.5.2) *)

Definition hex_char (d : Z) : Z := if d <? 10 then 48 + d else 87 + d.

(** UnicodeEscape: a backslash, [u] and four lowercase hexadecimal digits. *)
Definition UnicodeEscape (c : Z) : jsstring :=
  [92; 117; hex_char (c / 4096 mod 16); hex_char (c / 256 mod 16);
   hex_char (c / 16 mod 16); hex_char (c mod 16)].

Definition is_high_surrogate (c : Z) : bool := (55296 <=? c) && (c <=? 56319).
Definition is_low_surrogate (c : Z) : bool := (56320 <=? c) && (c <=? 57343).

(** One code point that is not a surrogate pair. *)
Definition quote_unit (c : Z) : jsstring :=
  if c =? 8 then [92; 98]
  else if c =? 9 then [92; 116]
  else if c =? 10 then [92; 110]
  else if c =? 12 then [92; 102]
  else if c =? 13 then [92; 114]
  else if c =? 34 then [92; 34]
  else if c =? 92 then [92; 92]
  else if (c <? 32) || is_high_surrogate c || is_low_surrogate c then UnicodeEscape c
  else [c].

(** The code points of the string in turn: a surrogate pair is copied, a lone
    surrogate and a control character are escaped. *)
Fixpoint quote_body (s : jsstring) : jsstring :=
  match s with
  | [] => []
  | c :: rest =>
      if is_high_surrogate c then
        match rest with
        | c2 :: rest' =>
            if is_low_surrogate c2 then c :: c2 :: quote_body rest'
            else UnicodeEscape c ++ quote_body rest
        | [] => UnicodeEscape c
        end
      else quote_unit c ++ quote_body rest
  end.

Definition QuoteJSONString (s : jsstring) : jsstring := [34] ++ quote_body s ++ [34].

Fixpoint join (sep : jsstring) (parts : list jsstring) : jsstring :=
  match parts with
  | [] => []
  | [x] => x
  | x :: rest => x ++ sep ++ join sep rest
  end.

Definition gap : jsstring := [32; 32].

(** The text between the brackets of a non-empty array or object. *)
Definition wrap (opening closing : Z) (stepback : jsstring) (partial : list jsstring) : jsstring :=
  match partial with
  | [] => [opening; closing]
  | _ =>
      let indent := stepback ++ gap in
      [opening; 10] ++ indent ++ join ([44; 10] ++ indent) partial
      ++ [10] ++ stepback ++ [closing]
  end.

(** SerializeJSONProperty, SerializeJSONArray and SerializeJSONObject at the
    indentation [indent]. *)
Fixpoint SerializeJSONProperty (indent : jsstring) (v : JsValue) : jsstring :=
  match v with
  | JNull => lit "null"
  | JBool true => lit "true"
  | JBool false => lit "false"
  | JNumber x => if is_finite x then NumberToString x else lit "null"
  | JString s => QuoteJSONString s
  | JArray elems =>
      wrap 91 93 indent (map (SerializeJSONProperty (indent ++ gap)) elems)
  | JObject props =>
      wrap 123 125 indent
        (map (fun '(k, w) =>
                QuoteJSONString k ++ [58; 32] ++ SerializeJSONProperty (indent ++ gap) w)
             props)
  end.

Definition JSON_stringify (v : JsValue) : jsstring := SerializeJSONProperty [] v.

(** ** JSON.parse(text)  (ECMA-262 25.5.1, the grammar of ECMA-404) *)

Definition is_ws (c : Z) : bool := (c =? 9) || (c =? 10) || (c =? 13) || (c =? 32).

Fixpoint skip_ws (t : jsstring) : jsstring :=
  match t with
  | c :: r => if is_ws c then skip_ws r else t
  | [] => []
  end.

Definition hex_value (c : Z) : option Z :=
  if (48 <=? c) && (c <=? 57) then Some (c - 48)
  else if (97 <=? c) && (c <=? 102) then Some (c - 87)
  else if (65 <=? c) && (c <=? 70) then Some (c - 55)
  else None.

Definition hex4 (a b c d : Z) : option Z :=
  match hex_value a, hex_value b, hex_value c, hex_value d with
  | Some x, Some y, Some z, Some w => Some (((x * 16 + y) * 16 + z) * 16 + w)
  | _, _, _, _ => None
  end.

Definition simple_escape (c : Z) : option Z :=
  if c =? 34 then Some 34
  else if c =? 92 then Some 92
  else if c =? 47 then Some 47
  else if c =? 98 then Some 8
  else if c =? 102 then Some 12
  else if c =? 110 then Some 10
  else if c =? 114 then Some 13
  else if c =? 116 then Some 9
  else None.

Definition consed (c : Z) (r : option (jsstring * jsstring)) : option (jsstring * jsstring) :=
  match r with
  | Some (s, rest) => Some (c :: s, rest)
  | None => None
  end.

(** The characters of a string literal after its opening quote, up to and
    including the closing quote. *)
Fixpoint parse_string_body (t : jsstring) : option (jsstring * jsstring) :=
  match t with
  | [] => None
  | c :: r =>
      if c =? 34 then Some ([], r)
      else if c =? 92 then
        match r with
        | [] => None
        | e :: r' =>
            if e =? 117 then
              match r' with
              | h1 :: h2 :: h3 :: h4 :: r'' =>
                  match hex4 h1 h2 h3 h4 with
                  | Some u => consed u (parse_string_body r'')
                  | None => None
                  end
              | _ => None
              end
            else
              match simple_escape e with
              | Some u => consed u (parse_string_body r')
              | None => None
              end
        end
      else if c <? 32 then None
      else consed c (parse_string_body r)
  end.

Fixpoint take_digits (t : jsstring) : jsstring * jsstring :=
  match t with
  | c :: r => if is_digit c then let '(ds, rest) := take_digits r in (c :: ds, rest)
              else ([], t)
  | [] => ([], [])
  end.

(** The integer part: [0], or a non-zero digit and more digits. *)
Definition parse_int_part (t : jsstring) : option (jsstring * jsstring) :=
  match t with
  | c :: r =>
      if c =? 48 then Some ([48], r)
      else if is_digit c then let '(ds, rest) := take_digits r in Some (c :: ds, rest)
      else None
  | [] => None
  end.

(** The optional fraction: a point and at least one digit. *)
Definition parse_frac_part (t : jsstring) : option (jsstring * jsstring) :=
  match t with
  | c :: r =>
      if c =? 46 then
        match take_digits r with
        | ([], _) => None
        | (ds, rest) => Some (ds, rest)
        end
      else Some ([], t)
  | [] => Some ([], t)
  end.

(** At least one digit, read as an exponent of the given sign. *)
Definition parse_exp_digits (neg : bool) (t : jsstring) : option (Z * jsstring) :=
  match take_digits t with
  | ([], _) => None
  | (ds, rest) => Some (if neg then - chars_value ds else chars_value ds, rest)
  end.

(** The optional exponent: [e] or [E], an optional sign, at least one digit. *)
Definition parse_exp_part (t : jsstring) : option (Z * jsstring) :=
  match t with
  | c :: r =>
      if (c =? 101) || (c =? 69) then
        match r with
        | s :: r' =>
            if s =? 43 then parse_exp_digits false r'
            else if s =? 45 then parse_exp_digits true r'
            else parse_exp_digits false r
        | [] => None
        end
      else Some (0, t)
  | [] => Some (0, t)
  end.

(** The optional minus sign. *)
Definition parse_sign (t : jsstring) : bool * jsstring :=
  match t with
  | c :: r => if c =? 45 then (true, r) else (false, t)
  | [] => (false, t)
  end.

(** A JSON number and its Number value. *)
Definition parse_number (t : jsstring) : option (Number * jsstring) :=
  let '(neg, t1) := parse_sign t in
  match parse_int_part t1 with
  | None => None
  | Some (ip, t2) =>
      match parse_frac_part t2 with
      | None => None
      | Some (fp, t3) =>
          match parse_exp_part t3 with
          | None => None
          | Some (ex, t4) =>
              Some (round_decimal neg (chars_value (ip ++ fp))
                                  (ex - Z.of_nat (List.length fp)), t4)
          end
      end
  end.

(** [t] without the prefix [pre], when it starts with it. *)
Fixpoint strip_prefix (pre t : jsstring) : option jsstring :=
  match pre, t with
  | [], _ => Some t
  | p :: pre', c :: r => if c =? p then strip_prefix pre' r else None
  | _ :: _, [] => None
  end.

(** A JSON value at the head of [t], and what follows it.  [parse_elements]
    reads the elements of an array from an element on, [parse_members] the
    members of an object from a key on; both skip the white space around
    what they read.  Every call consumes a character before the next. *)
Fixpoint parse_value (fuel : nat) (t : jsstring) {struct fuel} : option (JsValue * jsstring) :=
  match fuel with
  | O => None
  | S f =>
      match t with
      | [] => None
      | c :: r =>
          if c =? 110 then
            match strip_prefix (lit "ull") r with
            | Some rest => Some (JNull, rest)
            | None => None
            end
          else if c =? 116 then
            match strip_prefix (lit "rue") r with
            | Some rest => Some (JBool true, rest)
            | None => None
            end
          else if c =? 102 then
            match strip_prefix (lit "alse") r with
            | Some rest => Some (JBool false, rest)
            | None => None
            end
          else if c =? 34 then
            match parse_string_body r with
            | Some (s, rest) => Some (JString s, rest)
            | None => None
            end
          else if c =? 91 then
            match skip_ws r with
            | [] => None
            | c1 :: rest =>
                if c1 =? 93 then Some (JArray [], rest)
                else
                  match parse_elements f (c1 :: rest) with
                  | Some (elems, rest') => Some (JArray elems, rest')
                  | None => None
                  end
            end
          else if c =? 123 then
            match skip_ws r with
            | [] => None
            | c1 :: rest =>
                if c1 =? 125 then Some (JObject [], rest)
                else
                  match parse_members f [] (c1 :: rest) with
                  | Some (props, rest') => Some (JObject props, rest')
                  | None => None
                  end
            end
          else
            match parse_number t with
            | Some (x, rest) => Some (JNumber x, rest)
            | None => None
            end
      end
  end
with parse_elements (fuel : nat) (t : jsstring) {struct fuel}
  : option (list JsValue * jsstring) :=
  match fuel with
  | O => None
  | S f =>
      match parse_value f t with
      | None => None
      | Some (v, r) =>
          match skip_ws r with
          | [] => None
          | c :: r1 =>
              if c =? 93 then Some ([v], r1)
              else if c =? 44 then
                match parse_elements f (skip_ws r1) with
                | Some (vs, rest) => Some (v :: vs, rest)
                | None => None
                end
              else None
          end
      end
  end
with parse_members (fuel : nat) (acc : list (jsstring * JsValue)) (t : jsstring) {struct fuel}
  : option (list (jsstring * JsValue) * jsstring) :=
  match fuel with
  | O => None
  | S f =>
      match t with
      | [] => None
      | q :: r =>
          if q =? 34 then
            match parse_string_body r with
            | None => None
            | Some (key, r1) =>
                match skip_ws r1 with
                | [] => None
                | c :: r2 =>
                    if c =? 58 then
                      match parse_value f (skip_ws r2) with
                      | None => None
                      | Some (v, r3) =>
                          let acc' := define_property key v acc in
                          match skip_ws r3 with
                          | [] => None
                          | d :: r4 =>
                              if d =? 125 then Some (acc', r4)
                              else if d =? 44 then parse_members f acc' (skip_ws r4)
                              else None
                          end
                      end
                    else None
                end
            end
          else None
      end
  end.

(** [JSON.parse(text)]; [None] is the SyntaxError it throws. *)
Definition JSON_parse (text : jsstring) : option JsValue :=
  match parse_value (2 * List.length text + 2) (skip_ws text) with
  | Some (v, rest) => match skip_ws rest with [] => Some v | _ => None end
  | None => None
  end.

(** ** The view

    [contentEl] as the list of its children.  A text field remembers the
    closure of its [onChange] callback: the object [data] it renders, named
    by the keys that lead to it from [jsonData], and the [key] it assigns. *)

Inductive Element : Type :=
| Button (text : string)
| Details (summary : jsstring) (children : list Element)
| TextSetting (name : jsstring) (value : jsstring) (data : list jsstring) (key : jsstring).

Record View : Type := mkView {
  jsonData : JsValue;
  filePath : jsstring;
  contentEl : list Element;
  notices : list string
}.

(** [new Notice(message)]. *)
Definition Notice (message : string) (v : View) : View :=
  mkView (jsonData v) (filePath v) (contentEl v) (notices v ++ [message]).

(** The view as constructed: [jsonData = null], [filePath = ""]. *)
Definition new_view : View := mkView JNull [] [] [].

(** [keys.forEach(f)] for an [f] that may run out of fuel. *)
Fixpoint forEach {A B : Type} (f : A -> option B) (l : list A) : option (list B) :=
  match l with
  | [] => Some []
  | x :: rest =>
      match f x with
      | None => None
      | Some y =>
          match forEach f rest with
          | None => None
          | Some ys => Some (y :: ys)
          end
      end
  end.

(** [createFields(data, parentEl)]: the children it appends to [parentEl].
    [fuel] bounds the depth of the recursive calls; [None] when it runs out. *)
Fixpoint createFields (fuel : nat) (path : list jsstring) (data : JsValue)
  : option (list Element) :=
  match fuel with
  | O => None
  | S f =>
      let sortedKeys := sort (Object_keys data) in
      forEach
        (fun key =>
           let value := Get data key in
           if is_object value then
             match value with
             | Some child =>
                 match createFields f (path ++ [key]) child with
                 | Some children => Some (Details key children)
                 | None => None
                 end
             | None => None
             end
           else Some (TextSetting key (ToString value) path key))
        sortedKeys
  end.

(** [displayEditor()]: the content is emptied and rebuilt, the save button
    comes last. *)
Definition displayEditor (fuel : nat) (v : View) : option View :=
  if is_object (Some (jsonData v)) then
    match createFields fuel [] (jsonData v) with
    | Some fields =>
        Some (mkView (jsonData v) (filePath v) (fields ++ [Button "Save Changes"])
                     (notices v ++ ["JSON data displayed successfully!"%string]))
    | None => None
    end
  else
    Some (mkView (jsonData v) (filePath v) [Button "Save Changes"]
                 (notices v ++ ["No valid JSON data to display."%string])).

(** [onOpen()]: the button that loads a file. *)
Definition onOpen (v : View) : View :=
  mkView (jsonData v) (filePath v) (contentEl v ++ [Button "Open JSON File"]) (notices v).

Record File : Type := mkFile { name : jsstring; text : jsstring }.

(** The click handler of the load button.  [supported] tells whether the
    window has [showOpenFilePicker], [picked] is what the picker resolved to. *)
Definition fileButton_onclick (fuel : nat) (supported : bool) (picked : list File) (v : View)
  : option View :=
  if negb supported then Some (Notice "File picker not supported in this browser." v)
  else
    match picked with
    | [] => Some v
    | file :: _ =>
        let v1 := mkView (jsonData v) (name file) (contentEl v) (notices v) in
        match JSON_parse (text file) with
        | Some parsed =>
            displayEditor fuel
              (Notice "File loaded successfully!"
                      (mkView parsed (filePath v1) (contentEl v1) (notices v1)))
        | None => Some (Notice "Invalid JSON file." v1)
        end
    end.

(** The object a field's callback closed over: [jsonData] followed along
    [path]. *)
Fixpoint lookup (root : JsValue) (path : list jsstring) : option JsValue :=
  match path with
  | [] => Some root
  | k :: rest =>
      match Get root k with
      | Some child => lookup child rest
      | None => None
      end
  end.

(** [data[key] = newValue] on the object at [path]; the objects on the way
    are the same objects afterwards, with the changed child. *)
Fixpoint assign (root : JsValue) (path : list jsstring) (key : jsstring) (newValue : JsValue)
  : option JsValue :=
  match path with
  | [] => Put root key newValue
  | k :: rest =>
      match Get root k with
      | Some child =>
          match assign child rest key newValue with
          | Some child' => Put root k child'
          | None => None
          end
      | None => None
      end
  end.

(** The [onChange] callback of a text field: [data[key] = newValue]. *)
Definition onChange (field : Element) (newValue : jsstring) (v : View) : option View :=
  match field with
  | TextSetting _ _ data key =>
      match assign (jsonData v) data key (JString newValue) with
      | Some root => Some (mkView root (filePath v) (contentEl v) (notices v))
      | None => None
      end
  | _ => None
  end.

(** The click handler of the save button, when the user confirms and picks a
    file: the suggested name and the text written. *)
Definition saveButton_onclick (v : View) : jsstring * jsstring * View :=
  (filePath v, JSON_stringify (jsonData v), Notice "File saved successfully!" v).

(** Every text field below an element, in display order. *)
Fixpoint fields_in (el : Element) : list Element :=
  match el with
  | Button _ => []
  | Details _ children => flat_map fields_in children
  | TextSetting _ _ _ _ => [el]
  end.

Definition fields_of (els : list Element) : list Element := flat_map fields_in els.

Definition label (el : Element) : jsstring :=
  match el with
  | Button _ => []
  | Details summary _ => summary
  | TextSetting n _ _ _ => n
  end.

(** ** Notions the statements use *)

(** The number of nested [createFields] calls a value needs. *)
Fixpoint depth (v : JsValue) : nat :=
  match v with
  | JArray elems => S (list_max (map depth elems))
  | JObject props => S (list_max (map (fun '(_, w) => depth w) props))
  | _ => O
  end.

(** The number of values in a document. *)
Fixpoint node_count (v : JsValue) : nat :=
  match v with
  | JArray elems => S (list_sum (map node_count elems))
  | JObject props => S (list_sum (map (fun '(_, w) => node_count w) props))
  | _ => 1%nat
  end.

(** A document without its leaf values: the keys of every object in storage
    order and the length of every array. *)
Inductive Shape : Type :=
| Leaf
| ArrayOf (elems : list Shape)
| ObjectOf (props : list (jsstring * Shape)).

Fixpoint shape_of (v : JsValue) : Shape :=
  match v with
  | JArray elems => ArrayOf (map shape_of elems)
  | JObject props => ObjectOf (map (fun '(k, w) => (k, shape_of w)) props)
  | _ => Leaf
  end.

(** Value equivalence: the same types, equal primitives (numbers as [===]
    compares them), the same elements in the same order, the same keys in
    the same order with equivalent values. *)
Fixpoint value_eqb (a b : JsValue) : bool :=
  match a, b with
  | JNull, JNull => true
  | JBool x, JBool y => Bool.eqb x y
  | JNumber x, JNumber y => number_eqb x y
  | JString x, JString y => str_eqb x y
  | JArray xs, JArray ys =>
      (fix all2 (xs : list JsValue) (ys : list JsValue) : bool :=
         match xs, ys with
         | [], [] => true
         | x :: xs', y :: ys' => value_eqb x y && all2 xs' ys'
         | _, _ => false
         end) xs ys
  | JObject ps, JObject qs =>
      (fix all2 (ps : list (jsstring * JsValue)) (qs : list (jsstring * JsValue)) : bool :=
         match ps, qs with
         | [], [] => true
         | (k, x) :: ps', (k', y) :: qs' => str_eqb k k' && value_eqb x y && all2 ps' qs'
         | _, _ => false
         end) ps qs
  | _, _ => false
  end.

(** Every number of the document is finite. *)
Fixpoint all_finite (v : JsValue) : bool :=
  match v with
  | JNumber x => is_finite x
  | JArray elems => forallb all_finite elems
  | JObject props => forallb (fun '(_, w) => all_finite w) props
  | _ => true
  end.

(** What [JSON.stringify] keeps of a value: a number that is not finite is
    written [null], and the sign of a zero is not written. *)
Fixpoint written (v : JsValue) : JsValue :=
  match v with
  | JNumber (Zero _) => JNumber (Zero false)
  | JNumber (Finite neg m e) => JNumber (Finite neg m e)
  | JNumber _ => JNull
  | JArray elems => JArray (map written elems)
  | JObject props => JObject (map (fun '(k, w) => (k, written w)) props)
  | _ => v
  end.

Definition is_array_index (k : jsstring) : bool :=
  match array_index_of_key k with Some _ => true | None => false end.

Definition mem (k : jsstring) (ks : list jsstring) : bool := existsb (str_eqb k) ks.

(** Own property keys as OrdinaryOwnPropertyKeys lists them: no key twice,
    the array indices first and ascending. *)
Fixpoint keys_ordered (ks : list jsstring) : bool :=
  match ks with
  | [] => true
  | k :: rest =>
      negb (mem k rest) && keys_ordered rest
      && match array_index_of_key k with
         | Some i =>
             forallb (fun k' => match array_index_of_key k' with
                                | Some j => i <? j
                                | None => true
                                end) rest
         | None => forallb (fun k' => negb (is_array_index k')) rest
         end
  end.

Definition is_key (s : jsstring) : bool := forallb (fun c => 0 <=? c) s.

(** The values [JSON.parse] returns. *)
Fixpoint well_formed (v : JsValue) : bool :=
  match v with
  | JNumber x => valid_number x
  | JString s => is_key s
  | JArray elems => forallb well_formed elems
  | JObject props =>
      keys_ordered (map fst props)
      && forallb (fun '(k, w) => is_key k && well_formed w) props
  | _ => true
  end.

(** The properties of a well-formed object. *)
Definition props_wf (props : list (jsstring * JsValue)) : bool :=
  keys_ordered (map fst props)
  && forallb (fun '(k, w) => is_key k && well_formed w) props.

(** The order the specification names, lexicographic by code point: the code
    points of a string (ECMA-262 StringToCodePoints, a surrogate pair being
    one code point) compared lexicographically.  [sort] itself compares code
    units, see [str_ltb]. *)
Fixpoint code_points (s : jsstring) : list Z :=
  match s with
  | [] => []
  | c :: rest =>
      match rest with
      | c2 :: rest' =>
          if is_high_surrogate c && is_low_surrogate c2
          then (65536 + (c - 55296) * 1024 + (c2 - 56320)) :: code_points rest'
          else c :: code_points rest
      | [] => [c]
      end
  end.

Definition code_point_ltb (a b : jsstring) : bool := str_ltb (code_points a) (code_points b).

Definition no_surrogate (s : jsstring) : bool :=
  forallb (fun c => negb (is_high_surrogate c || is_low_surrogate c)) s.

(** The children of the group reached from [els] by opening the groups
    labelled [path] in turn. *)
Fixpoint display_at (els : list Element) (path : list jsstring) : option (list Element) :=
  match path with
  | [] => Some els
  | k :: rest =>
      match find (fun el => match el with
                            | Details summary _ => str_eqb summary k
                            | _ => false
                            end) els with
      | Some (Details _ children) => display_at children rest
      | _ => None
      end
  end.

(** The keys from [jsonData] to the value a field edits, and the text the
    field shows. *)
Definition field_path (el : Element) : list jsstring :=
  match el with
  | TextSetting _ _ data key => data ++ [key]
  | _ => []
  end.

Definition field_value (el : Element) : jsstring :=
  match el with
  | TextSetting _ value _ _ => value
  | _ => []
  end.

(** Documents and views the examples use. *)
Definition number_doc : View :=
  mkView (JObject [(lit "n", JNumber (f64 1))]) (lit "n.json")
         [TextSetting (lit "n") (lit "1") [] (lit "n"); Button "Save Changes"]
         ["File loaded successfully!"; "JSON data displayed successfully!"]%string.

(** The document [{"b":1,"a":{"c":true}}] of the specification's first scenario. *)
Definition scenario_a : JsValue :=
  JObject [(lit "b", JNumber (f64 1)); (lit "a", JObject [(lit "c", JBool true)])].

Definition scenario_a_fields : list Element :=
  [Details (lit "a") [TextSetting (lit "c") (lit "true") [lit "a"] (lit "c")];
   TextSetting (lit "b") (lit "1") [] (lit "b")].

Definition null_doc : JsValue := JObject [(lit "a", JNull)].

Definition eleven : JsValue := JArray (repeat JNull 11).

Definition astral_doc : JsValue :=
  JObject [([65374], JNull); ([55357; 56832], JNull)].

Definition good_file : File := mkFile (lit "good.json") (json "{'a':1}").
Definition bad_file : File := mkFile (lit "bad.json") (lit "{invalid").

Definition good_view : View :=
  mkView (JObject [(lit "a", JNumber (f64 1))]) (lit "good.json")
         [TextSetting (lit "a") (lit "1") [] (lit "a"); Button "Save Changes"]
         ["File loaded successfully!"; "JSON data displayed successfully!"]%string.

(** What may follow a number in a text: no character that continues it. *)
Definition number_end (t : jsstring) : bool :=
  match t with
  | [] => true
  | c :: _ => negb (is_digit c || (c =? 46) || (c =? 101) || (c =? 69))
  end.

Definition no_digit_head (t : jsstring) : bool :=
  match t with
  | [] => true
  | c :: _ => negb (is_digit c)
  end.

(** Fuel with which [parse_value] reads the text of a value back. *)
Fixpoint weight (v : JsValue) : nat :=
  match v with
  | JArray elems => S (list_sum (map (fun e => S (weight e)) elems))
  | JObject props => S (list_sum (map (fun '(_, w) => S (weight w)) props))
  | _ => 1%nat
  end.

Definition written_props (props : list (jsstring * JsValue)) : list (jsstring * JsValue) :=
  map (fun '(k, w) => (k, written w)) props.

(** The text of one member of an object. *)
Definition member_text (indent : jsstring) (kw : jsstring * JsValue) : jsstring :=
  let '(k, w) := kw in QuoteJSONString k ++ [58; 32] ++ SerializeJSONProperty indent w.

(** The text of a value read back by [parse_value] with enough fuel. *)
Definition reads_back (v : JsValue) : Prop :=
  forall indent rest fuel,
    forallb is_ws indent = true -> number_end rest = true -> (weight v <= fuel)%nat ->
    parse_value fuel (SerializeJSONProperty indent v ++ rest) = Some (written v, rest).

(** How a value's text begins: with a character that is no white space and
    no punctuation of the enclosing array or object. *)
Definition starts_value (c : Z) : Prop :=
  is_ws c = false /\ (c =? 93) = false /\ (c =? 125) = false.

(** The text of a fraction: nothing, or a point and digits. *)
Definition frac_text (fp : jsstring) : jsstring :=
  match fp with [] => [] | _ => 46 :: fp end.

(** [a <= b] on strings. *)
Definition str_le (a b : jsstring) : Prop := str_ltb b a = false.

(** ** The save handler and the life of a view *)

(** The click handler of the save button with everything the platform may
    answer.  [confirmSave] is the answer to the confirmation, [supported]
    tells whether the window has [showSaveFilePicker], [picked] whether the
    picker resolved to a file handle and [stored] whether the file was then
    created, written and closed.  The result is the file written, if any, as
    the name suggested to the picker and the text, and the view afterwards;
    any rejection is caught and reported. *)
Definition saveButton_handler (confirmSave supported picked stored : bool) (v : View)
  : option (jsstring * jsstring) * View :=
  if confirmSave then
    if negb supported then (None, Notice "Save file picker not supported in this browser." v)
    else if picked && stored then
      (Some (fst (saveButton_onclick v)), snd (saveButton_onclick v))
    else (None, Notice "Failed to save the file." v)
  else (None, v).

(** The states of a view: it is opened, and then its handlers run one after
    the other.  A text field answers while it is shown.  The two click
    handlers are asynchronous, a click made while the button was shown may
    finish after another load has replaced the content, so they are taken to
    run in any state. *)
Inductive reachable : View -> Prop :=
| opened : reachable (onOpen new_view)
| file_picked (fuel : nat) (supported : bool) (picked : list File) (v v' : View) :
    reachable v -> fileButton_onclick fuel supported picked v = Some v' -> reachable v'
| text_changed (field : Element) (newValue : jsstring) (v v' : View) :
    reachable v -> In field (fields_of (contentEl v)) -> is_key newValue = true ->
    onChange field newValue v = Some v' -> reachable v'
| save_clicked (confirmSave supported picked stored : bool) (v : View) :
    reachable v -> reachable (snd (saveButton_handler confirmSave supported picked stored v)).

(** Every text field shown writes to a primitive value of the document. *)
Definition in_sync (v : View) : Prop :=
  forall field, In field (fields_of (contentEl v)) ->
    exists name value data key container leaf,
      field = TextSetting name value data key
      /\ lookup (jsonData v) data = Some container
      /\ Get container key = Some leaf
      /\ is_object (Some leaf) = false.

(** Two paths that part at some key: neither continues the other. *)
Fixpoint diverges (p q : list jsstring) : bool :=
  match p, q with
  | a :: p', b :: q' => if str_eqb a b then diverges p' q' else true
  | _, _ => false
  end.

(** The values directly inside an array or an object. *)
Definition children (data : JsValue) : list JsValue :=
  match data with
  | JArray elems => elems
  | JObject props => map snd props
  | _ => []
  end.



Definition is_button (el : Element) : bool :=
  match el with Button _ => true | _ => false end.

(** ** The plugin and its settings

    [Object.assign(target, ...sources)] (ECMA-262 20.1.2.1) copies the own
    enumerable properties of each source in turn with [Set]: the elements of
    an array and the code units of a string under their indices, nothing for
    [null], a boolean or a number.  On a target that inherits from
    [Object.prototype] and has no own property [__proto__], setting that key
    calls the inherited setter and creates no property. *)

Definition own_enumerable (source : JsValue) : list (jsstring * JsValue) :=
  match source with
  | JString s => combine (map decimal (indices (List.length s))) (map (fun c => JString [c]) s)
  | JArray elems => combine (map decimal (indices (List.length elems))) elems
  | JObject props => props
  | _ => []
  end.

Definition Set_property (to : list (jsstring * JsValue)) (kv : jsstring * JsValue)
  : list (jsstring * JsValue) :=
  if str_eqb (fst kv) (lit "__proto__") then to else define_property (fst kv) (snd kv) to.

Definition Object_assign (target : list (jsstring * JsValue)) (sources : list JsValue)
  : list (jsstring * JsValue) :=
  fold_left (fun to source => fold_left Set_property (own_enumerable source) to) sources target.

Definition DEFAULT_SETTINGS : JsValue := JObject [(lit "filePath", JString [])].

(** The plugin: its [settings], and the values it handed to [saveData],
    oldest first. *)
Record Plugin : Type := mkPlugin {
  settings : JsValue;
  saved : list JsValue
}.

(** [loadSettings()]; [loaded] is what [loadData()] resolved to, [null] when
    nothing was stored. *)
Definition loadSettings (loaded : JsValue) (p : Plugin) : Plugin :=
  mkPlugin (JObject (Object_assign [] [DEFAULT_SETTINGS; loaded])) (saved p).

(** [saveSettings()]. *)
Definition saveSettings (p : Plugin) : Plugin :=
  mkPlugin (settings p) (saved p ++ [settings p]).

(** A row of the settings tab: what [setName], [setDesc], [setPlaceholder]
    and [setValue] were called with. *)
Record TextRow : Type := mkTextRow {
  row_name : string;
  row_desc : string;
  row_placeholder : string;
  row_value : option JsValue
}.

(** [display()] of the settings tab: the container is emptied and holds one
    row afterwards. *)
Definition display (p : Plugin) : list TextRow :=
  [mkTextRow "Default JSON File Path" "Set the default path for JSON files"
             "Enter the file path" (Get (settings p) (lit "filePath"))].

(** The [onChange] callback of that row: [settings.filePath = value], then
    [saveSettings()]. *)
Definition display_onChange (value : jsstring) (p : Plugin) : option Plugin :=
  match Put (settings p) (lit "filePath") (JString value) with
  | Some s => Some (saveSettings (mkPlugin s (saved p)))
  | None => None
  end.

(** The first key of a list that is no array index. *)
Definition first_name (keys : list jsstring) : option jsstring :=
  find (fun k => negb (is_array_index k)) keys.

(** A file holding the document of the first scenario, and the view that
    shows it. *)
Definition scenario_file : File :=
  mkFile (lit "a.json") (json "{'b':1,'a':{'c':true}}").

Definition scenario_view : View :=
  mkView scenario_a (lit "a.json") (scenario_a_fields ++ [Button "Save Changes"])
         ["File loaded successfully!"; "JSON data displayed successfully!"]%string.

Definition field_b : Element := TextSetting (lit "b") (lit "1") [] (lit "b").
Definition field_c : Element := TextSetting (lit "c") (lit "true") [lit "a"] (lit "c").



(** The properties of settings [loadSettings] builds, as it lists them: the
    keys in property order, [filePath] the first that is no array index, and
    no property [__proto__]. *)
Definition settings_shape (props : list (jsstring * JsValue)) : Prop :=
  keys_ordered (map fst props) = true
  /\ first_name (map fst props) = Some (lit "filePath")
  /\ has_key (lit "__proto__") props = false.

(** Stored data of the plugin, for the examples. *)
Definition stored_settings : JsValue :=
  JObject [(lit "filePath", JString (lit "notes.json")); (lit "theme", JBool true)].

(** * Proofs *)

(** ** Induction on values *)

Section JsValue_induction.

Variable P : JsValue -> Prop.
Hypothesis Hnull : P JNull.
Hypothesis Hbool : forall b, P (JBool b).
Hypothesis Hnumber : forall x, P (JNumber x).
Hypothesis Hstring : forall s, P (JString s).
Hypothesis Harray : forall elems, Forall P elems -> P (JArray elems).
Hypothesis Hobject : forall props, Forall (fun kv => P (snd kv)) props -> P (JObject props).

Fixpoint JsValue_nested_ind (v : JsValue) : P v :=
  match v with
  | JNull => Hnull
  | JBool b => Hbool b
  | JNumber x => Hnumber x
  | JString s => Hstring s
  | JArray elems =>
      Harray elems
        ((fix go (l : list JsValue) : Forall P l :=
            match l with
            | [] => Forall_nil P
            | x :: r => Forall_cons x (JsValue_nested_ind x) (go r)
            end) elems)
  | JObject props =>
      Hobject props
        ((fix go (l : list (jsstring * JsValue)) : Forall (fun kv => P (snd kv)) l :=
            match l with
            | [] => Forall_nil _
            | kv :: r => Forall_cons kv (JsValue_nested_ind (snd kv)) (go r)
            end) props)
  end.

End JsValue_induction.

(** ** Strings and their order *)

Lemma str_eqb_eq (a b : jsstring) : str_eqb a b = true <-> a = b.
Proof.
  revert b; induction a as [|x a IH]; intros [|y b]; simpl; split; intro H;
    try reflexivity; try discriminate.
  - apply andb_true_iff in H as [Hx Hr]. apply Z.eqb_eq in Hx. apply IH in Hr.
    now subst.
  - inversion H; subst. rewrite Z.eqb_refl. simpl. now apply IH.
Qed.

Lemma str_eqb_refl (a : jsstring) : str_eqb a a = true.
Proof. now apply str_eqb_eq. Qed.

Lemma str_eqb_neq (a b : jsstring) : str_eqb a b = false <-> a <> b.
Proof.
  split.
  - intros H E. apply str_eqb_eq in E. congruence.
  - intro H. destruct (str_eqb a b) eqn:E; [|reflexivity].
    apply str_eqb_eq in E. contradiction.
Qed.

Lemma str_ltb_irrefl (a : jsstring) : str_ltb a a = false.
Proof.
  induction a as [|x a IH]; simpl; [reflexivity|].
  now rewrite Z.ltb_irrefl.
Qed.

Lemma str_ltb_trans (a b c : jsstring) :
  str_ltb a b = true -> str_ltb b c = true -> str_ltb a c = true.
Proof.
  revert b c; induction a as [|x a IH]; intros [|y b] [|z c]; simpl; try congruence.
  destruct (x <? y) eqn:Hxy, (y <? z) eqn:Hyz, (x <? z) eqn:Hxz,
           (y <? x) eqn:Hyx, (z <? y) eqn:Hzy, (z <? x) eqn:Hzx;
    try congruence; try lia; intros; eauto.
Qed.

Lemma str_ltb_asym (a b : jsstring) : str_ltb a b = true -> str_ltb b a = false.
Proof.
  intros H. destruct (str_ltb b a) eqn:E; [|reflexivity].
  pose proof (str_ltb_trans _ _ _ H E) as T. now rewrite str_ltb_irrefl in T.
Qed.

Lemma str_ltb_total (a b : jsstring) :
  str_ltb a b = false -> str_ltb b a = false -> a = b.
Proof.
  revert b; induction a as [|x a IH]; intros [|y b]; simpl; try congruence.
  destruct (x <? y) eqn:Hxy, (y <? x) eqn:Hyx; try congruence; try lia.
  intros H1 H2. assert (x = y) by lia. subst. f_equal. now apply IH.
Qed.

(** ** The default sort *)

Lemma insert_sorted_perm (k : jsstring) (l : list jsstring) :
  Permutation (k :: l) (insert_sorted k l).
Proof.
  induction l as [|x l IH]; simpl; [reflexivity|].
  destruct (str_ltb x k); [|reflexivity].
  rewrite perm_swap. now constructor.
Qed.

Lemma sort_perm (l : list jsstring) : Permutation l (sort l).
Proof.
  induction l as [|k l IH]; simpl; [constructor|].
  rewrite <- insert_sorted_perm. now constructor.
Qed.

Lemma str_le_trans (a b c : jsstring) : str_le a b -> str_le b c -> str_le a c.
Proof.
  unfold str_le. intros Hab Hbc.
  destruct (str_ltb c a) eqn:E; [|reflexivity].
  destruct (str_ltb b a) eqn:E1; [discriminate|].
  destruct (str_ltb a b) eqn:E2.
  - pose proof (str_ltb_trans _ _ _ E E2). congruence.
  - assert (a = b) by now apply str_ltb_total. subst. congruence.
Qed.

Lemma insert_sorted_sorted (k : jsstring) (l : list jsstring) :
  StronglySorted str_le l -> StronglySorted str_le (insert_sorted k l).
Proof.
  induction 1 as [|x l Hs IH Hall]; simpl.
  - repeat constructor.
  - destruct (str_ltb x k) eqn:E.
    + constructor; [exact IH|].
      rewrite Forall_forall in *. intros y Hy.
      apply (Permutation_in _ (Permutation_sym (insert_sorted_perm k l))) in Hy.
      destruct Hy as [<-|Hy]; [|now apply Hall].
      unfold str_le. now apply str_ltb_asym.
    + constructor; [now constructor|].
      constructor; [exact E|].
      rewrite Forall_forall in *. intros y Hy.
      apply str_le_trans with x; [exact E|now apply Hall].
Qed.

Lemma sort_sorted (l : list jsstring) : StronglySorted str_le (sort l).
Proof.
  induction l as [|k l IH]; simpl; [constructor|].
  now apply insert_sorted_sorted.
Qed.

Lemma sort_In (k : jsstring) (l : list jsstring) : In k (sort l) <-> In k l.
Proof.
  split; apply Permutation_in; [apply Permutation_sym|]; apply sort_perm.
Qed.

(** ** Decimal numerals *)

Lemma to_digits_aux_acc (fuel : nat) (n : Z) (acc : list Z) :
  to_digits_aux fuel n acc = to_digits_aux fuel n [] ++ acc.
Proof.
  revert n acc; induction fuel as [|f IH]; intros n acc; simpl; [reflexivity|].
  destruct (n <? 10); [reflexivity|].
  rewrite (IH _ (n mod 10 :: acc)), (IH _ [n mod 10]).
  now rewrite <- app_assoc.
Qed.

Lemma to_digits_aux_fuel (f1 f2 : nat) (n : Z) (acc : list Z) :
  0 <= n < 2 ^ Z.of_nat (S f1) -> n < 2 ^ Z.of_nat (S f2) ->
  to_digits_aux (S f1) n acc = to_digits_aux (S f2) n acc.
Proof.
  revert f2 n acc; induction f1 as [|f1 IH]; intros f2 n acc H1 H2;
    cbn [to_digits_aux]; destruct (n <? 10) eqn:E; try reflexivity;
    apply Z.ltb_ge in E.
  - simpl in H1. lia.
  - destruct f2 as [|f2]; [simpl in H2; lia|].
    rewrite (Nat2Z.inj_succ (S f1)), (Nat2Z.inj_succ (S f2)), Z.pow_succ_r in * by lia.
    apply IH.
    + split; [apply Z.div_pos; lia|]. apply Z.div_lt_upper_bound; lia.
    + apply Z.div_lt_upper_bound; lia.
Qed.

Lemma log2_bound (n : Z) : 0 <= n -> n < 2 ^ Z.of_nat (S (Z.to_nat (Z.log2 n))).
Proof.
  intro H. rewrite Nat2Z.inj_succ, Z2Nat.id by apply Z.log2_nonneg.
  destruct (Z.eq_dec n 0) as [->|Hn]; [reflexivity|].
  apply Z.log2_spec. lia.
Qed.

Lemma to_digits_small (n : Z) : n < 10 -> to_digits n = [n].
Proof.
  intro H. unfold to_digits. cbn [to_digits_aux].
  destruct (n <? 10) eqn:E; [reflexivity|]. apply Z.ltb_ge in E. lia.
Qed.

Lemma to_digits_step (n : Z) : 10 <= n -> to_digits n = to_digits (n / 10) ++ [n mod 10].
Proof.
  intro H. unfold to_digits at 1. cbn [to_digits_aux].
  destruct (n <? 10) eqn:E; [apply Z.ltb_lt in E; lia|].
  rewrite to_digits_aux_acc. f_equal.
  assert (H10 : 0 <= n / 10) by (apply Z.div_pos; lia).
  assert (Hl : 1 <= Z.log2 n) by (apply Z.log2_le_pow2; lia).
  destruct (Z.to_nat (Z.log2 n)) as [|f] eqn:Ef; [lia|].
  unfold to_digits. apply to_digits_aux_fuel.
  - split; [exact H10|].
    pose proof (log2_bound n ltac:(lia)) as B. rewrite Ef in B.
    rewrite (Nat2Z.inj_succ (S f)), Z.pow_succ_r in B by lia.
    apply Z.div_lt_upper_bound; lia.
  - now apply log2_bound.
Qed.

(** Induction along the decimal numeral of a non-negative integer. *)
Lemma decimal_induction (P : Z -> Prop) :
  (forall n, 0 <= n < 10 -> P n) ->
  (forall n, 10 <= n -> P (n / 10) -> P n) ->
  forall n, 0 <= n -> P n.
Proof.
  intros Hsmall Hstep. apply (Zlt_0_ind P). intros n IH Hn.
  destruct (Z_lt_dec n 10) as [Hlt|Hge]; [apply Hsmall; lia|].
  apply Hstep; [lia|]. apply IH. split; [apply Z.div_pos; lia|].
  apply Z.div_lt_upper_bound; lia.
Qed.

Lemma digits_value_app (a b : list Z) :
  digits_value (a ++ b) = fold_left (fun acc d => 10 * acc + d) b (digits_value a).
Proof. unfold digits_value. now rewrite fold_left_app. Qed.

Lemma digits_value_snoc (a : list Z) (d : Z) :
  digits_value (a ++ [d]) = 10 * digits_value a + d.
Proof. now rewrite digits_value_app. Qed.

Lemma to_digits_value (n : Z) : 0 <= n -> digits_value (to_digits n) = n.
Proof.
  revert n. apply decimal_induction.
  - intros n H. rewrite to_digits_small by lia. unfold digits_value; simpl. lia.
  - intros n H IH. rewrite to_digits_step, digits_value_snoc, IH by lia.
    pose proof (Z.div_mod n 10). lia.
Qed.

Lemma to_digits_range (n : Z) : 0 <= n -> Forall (fun d => 0 <= d <= 9) (to_digits n).
Proof.
  revert n. apply decimal_induction.
  - intros n H. rewrite to_digits_small by lia. repeat constructor; lia.
  - intros n H IH. rewrite to_digits_step by lia.
    apply Forall_app; split; [exact IH|].
    pose proof (Z.mod_pos_bound n 10). repeat constructor; lia.
Qed.

Lemma to_digits_head (n : Z) :
  0 <= n -> exists d rest, to_digits n = d :: rest /\ (d = 0 -> n = 0 /\ rest = []).
Proof.
  revert n. apply decimal_induction.
  - intros n H. rewrite to_digits_small by lia. exists n, []. split; [reflexivity|].
    now intros ->.
  - intros n H (d & rest & E & Hd). rewrite to_digits_step, E by lia.
    exists d, (rest ++ [n mod 10]). split; [reflexivity|].
    intros ->. destruct (Hd eq_refl) as [H0 _].
    assert (n < 10) by (apply Z.div_small_iff in H0; lia). lia.
Qed.

Lemma chars_value_decimal (n : Z) : 0 <= n -> chars_value (decimal n) = n.
Proof.
  intro H. unfold chars_value, decimal. rewrite map_map.
  rewrite (map_ext _ (fun d => d)), map_id by (intro; unfold digit_char; lia).
  now apply to_digits_value.
Qed.

Lemma decimal_is_digits (n : Z) : 0 <= n -> forallb is_digit (decimal n) = true.
Proof.
  intro H. unfold decimal. apply forallb_forall. intros c Hc.
  apply in_map_iff in Hc as (d & <- & Hd).
  pose proof (to_digits_range n H) as R. rewrite Forall_forall in R.
  specialize (R d Hd). unfold is_digit, digit_char. lia.
Qed.

Lemma index_of_key_decimal (n : Z) : 0 <= n -> index_of_key (decimal n) = Some n.
Proof.
  intro H. unfold index_of_key.
  pose proof (decimal_is_digits n H) as D. pose proof (chars_value_decimal n H) as V.
  destruct (to_digits_head n H) as (d & rest & E & Hd).
  unfold decimal in *. rewrite E in *. cbn [map] in *. rewrite D, V.
  destruct (digit_char d =? 48) eqn:E48; simpl.
  - apply Z.eqb_eq in E48. unfold digit_char in E48.
    destruct (Hd ltac:(lia)) as [_ ->]. reflexivity.
  - reflexivity.
Qed.

(** ** Reading and writing properties *)

Lemma assoc_In (key : jsstring) (props : list (jsstring * JsValue)) (v : JsValue) :
  assoc key props = Some v -> In (key, v) props.
Proof.
  induction props as [|[k w] rest IH]; simpl; [discriminate|].
  destruct (str_eqb k key) eqn:E.
  - apply str_eqb_eq in E. intros [= ->]. left. now subst.
  - intro H. right. now apply IH.
Qed.

Lemma assoc_keys (key : jsstring) (props : list (jsstring * JsValue)) :
  In key (map fst props) -> exists v, assoc key props = Some v.
Proof.
  induction props as [|[k w] rest IH]; simpl; [contradiction|].
  intros [->|H].
  - rewrite str_eqb_refl. now exists w.
  - destruct (str_eqb k key); [now exists w|now apply IH].
Qed.

Lemma Get_keys (data : JsValue) (key : jsstring) :
  In key (Object_keys data) -> exists v, Get data key = Some v.
Proof.
  destruct data; simpl; try contradiction.
  - intro H. unfold indices in H. rewrite map_map in H.
    apply in_map_iff in H as (i & <- & Hi). apply in_seq in Hi.
    rewrite index_of_key_decimal, Nat2Z.id by lia.
    destruct (nth_error elems i) eqn:E; [eauto|].
    apply nth_error_None in E. lia.
  - apply assoc_keys.
Qed.

Lemma Get_depth (data : JsValue) (key : jsstring) (child : JsValue) :
  Get data key = Some child -> (depth child < depth data)%nat.
Proof.
  destruct data; simpl; try discriminate.
  - destruct (index_of_key key); [|discriminate]. intro H.
    apply nth_error_In in H.
    pose proof (proj1 (list_max_le (map depth elems) _) (Nat.le_refl _)) as M.
    rewrite Forall_forall in M. specialize (M (depth child) (in_map _ _ _ H)). lia.
  - intro H. apply assoc_In in H.
    pose proof (proj1 (list_max_le (map (fun '(_, w) => depth w) props) _) (Nat.le_refl _)) as M.
    rewrite Forall_forall in M.
    specialize (M (depth child) (in_map (fun '(_, w) => depth w) _ _ H)). lia.
Qed.

Lemma forEach_Some {A B : Type} (f : A -> option B) (l : list A) :
  (forall x, In x l -> exists y, f x = Some y) -> exists ys, forEach f l = Some ys.
Proof.
  induction l as [|x l IH]; simpl; intro H; [eauto|].
  destruct (H x (or_introl eq_refl)) as [y ->].
  destruct IH as [ys ->]; eauto.
Qed.

Lemma forEach_map {A B : Type} (f : A -> option B) (g : A -> B) (l : list A) :
  (forall x, In x l -> f x = Some (g x)) -> forEach f l = Some (map g l).
Proof.
  induction l as [|x l IH]; simpl; intro H; [reflexivity|].
  rewrite (H x (or_introl eq_refl)), IH; auto.
Qed.

Lemma forEach_inv {A B : Type} (f : A -> option B) (l : list A) (ys : list B) :
  forEach f l = Some ys -> Forall2 (fun x y => f x = Some y) l ys.
Proof.
  revert ys; induction l as [|x l IH]; simpl; intros ys H.
  - injection H as <-. constructor.
  - destruct (f x) eqn:E; [|discriminate].
    destruct (forEach f l) eqn:E'; [|discriminate].
    injection H as <-. constructor; auto.
Qed.

(** ** The traversal returns *)

Lemma createFields_returns (fuel : nat) (path : list jsstring) (data : JsValue) :
  (depth data < fuel)%nat -> exists els, createFields fuel path data = Some els.
Proof.
  revert path data; induction fuel as [|f IH]; intros path data H; [lia|].
  cbn [createFields]. apply forEach_Some. intros key Hk.
  destruct (Get data key) as [child|] eqn:G; [|simpl; eauto].
  apply Get_depth in G.
  destruct (IH (path ++ [key]) child ltac:(lia)) as [els E].
  destruct child; simpl; eauto; simpl in E; rewrite E; eauto.
Qed.

Lemma list_max_le_sum (l : list nat) : (list_max l <= list_sum l)%nat.
Proof. induction l as [|x l IH]; simpl; lia. Qed.

Lemma list_sum_le (A : Type) (f g : A -> nat) (l : list A) :
  Forall (fun x => f x <= g x)%nat l -> (list_sum (map f l) <= list_sum (map g l))%nat.
Proof. induction 1; simpl; lia. Qed.

Lemma depth_le_node_count (v : JsValue) : (depth v <= node_count v)%nat.
Proof.
  induction v as [| | | |elems IH|props IH] using JsValue_nested_ind; simpl; try lia.
  - apply le_n_S. etransitivity; [apply list_max_le_sum|]. now apply list_sum_le.
  - apply le_n_S. etransitivity; [apply list_max_le_sum|]. apply list_sum_le.
    eapply Forall_impl; [|exact IH]. now intros [k w].
Qed.

Lemma Forall2_In_left {A B : Type} (R : A -> B -> Prop) (l : list A) (l' : list B) (x : A) :
  Forall2 R l l' -> In x l -> exists y, In y l' /\ R x y.
Proof.
  induction 1 as [|a b l l' Hab _ IH]; simpl; [contradiction|].
  intros [->|H]; [eauto|]. destruct (IH H) as (y & ? & ?); eauto.
Qed.

Lemma Forall2_In_right {A B : Type} (R : A -> B -> Prop) (l : list A) (l' : list B) (y : B) :
  Forall2 R l l' -> In y l' -> exists x, In x l /\ R x y.
Proof.
  induction 1 as [|a b l l' Hab _ IH]; simpl; [contradiction|].
  intros [->|H]; [eauto|]. destruct (IH H) as (x & ? & ?); eauto.
Qed.

(** A canonical numeric string is the decimal numeral of its value. *)
Lemma to_digits_of_value (ds : list Z) :
  Forall (fun d => 0 <= d <= 9) ds ->
  (forall d rest, ds = d :: rest -> d <> 0) ->
  ds <> [] -> to_digits (digits_value ds) = ds /\ 1 <= digits_value ds.
Proof.
  induction ds as [|d ds IH] using rev_ind; intros R Hhead Hne; [contradiction|].
  apply Forall_app in R as [R Rd]. inversion Rd as [|? ? Hd _]; subst.
  rewrite digits_value_snoc.
  destruct ds as [|d0 ds].
  - simpl. unfold digits_value; simpl. specialize (Hhead d [] eq_refl).
    rewrite to_digits_small by lia. split; [reflexivity|lia].
  - destruct IH as [IH1 IH2].
    + exact R.
    + intros d1 rest E. injection E as -> ->. apply (Hhead d1 (rest ++ [d])). reflexivity.
    + discriminate.
    + split; [|lia]. rewrite to_digits_step by lia.
      replace ((10 * digits_value (d0 :: ds) + d) / 10) with (digits_value (d0 :: ds))
        by (apply Z.div_unique with d; lia).
      replace ((10 * digits_value (d0 :: ds) + d) mod 10) with d
        by (apply Z.mod_unique with (digits_value (d0 :: ds)); lia).
      now rewrite IH1.
Qed.

Lemma index_of_key_canonical (k : jsstring) (i : Z) :
  index_of_key k = Some i -> k = decimal i /\ 0 <= i.
Proof.
  unfold index_of_key. destruct k as [|c rest]; [discriminate|].
  destruct (forallb is_digit (c :: rest)) eqn:D; [|discriminate]. cbn [andb].
  destruct (negb (c =? 48) || match rest with [] => true | _ => false end) eqn:C;
    [|discriminate].
  intros [= <-].
  assert (R : Forall (fun d => 0 <= d <= 9) (map (fun c => c - 48) (c :: rest))).
  { apply Forall_forall. intros d Hd. apply in_map_iff in Hd as (c' & <- & Hc').
    rewrite forallb_forall in D. specialize (D c' Hc'). unfold is_digit in D. lia. }
  assert (M : map digit_char (map (fun c => c - 48) (c :: rest)) = c :: rest).
  { rewrite map_map, (map_ext _ (fun d => d)), map_id; [reflexivity|].
    intro; unfold digit_char; lia. }
  unfold chars_value.
  destruct (c =? 48) eqn:E48.
  - simpl in C. destruct rest; [|discriminate]. apply Z.eqb_eq in E48. subst.
    split; [reflexivity|]. unfold digits_value; simpl; lia.
  - apply Z.eqb_neq in E48.
    destruct (to_digits_of_value (map (fun c => c - 48) (c :: rest))) as [T P]; auto.
    + simpl. intros d r [= <- _]. lia.
    + discriminate.
    + unfold decimal. rewrite T, M. split; [reflexivity|lia].
Qed.

Lemma Get_Some_keys (data : JsValue) (key : jsstring) (v : JsValue) :
  Get data key = Some v -> In key (Object_keys data).
Proof.
  destruct data; simpl; try discriminate.
  - destruct (index_of_key key) as [i|] eqn:E; [|discriminate].
    apply index_of_key_canonical in E as [-> Hi]. intro H.
    apply in_map. unfold indices. rewrite <- (Z2Nat.id i Hi). apply in_map.
    apply in_seq. split; [lia|]. simpl. apply nth_error_Some. congruence.
  - intro H. apply assoc_In in H. now apply (in_map fst) in H.
Qed.

(** ** What [createFields] builds *)

Lemma createFields_labels (fuel : nat) (path : list jsstring) (data : JsValue)
      (els : list Element) :
  createFields fuel path data = Some els -> map label els = sort (Object_keys data).
Proof.
  destruct fuel as [|f]; [discriminate|]. cbn [createFields]. intro H.
  apply forEach_inv in H. induction H as [|key el keys els' Hk _ IH]; [reflexivity|].
  simpl. f_equal; [|exact IH].
  destruct (is_object (Get data key)).
  - destruct (Get data key); [|discriminate].
    destruct (createFields f (path ++ [key]) j); [|discriminate]. now injection Hk as <-.
  - now injection Hk as <-.
Qed.

Lemma fields_of_In (els : list Element) (fld : Element) :
  In fld (fields_of els) <-> exists el, In el els /\ In fld (fields_in el).
Proof. unfold fields_of. apply in_flat_map. Qed.

(** Every field is bound to a key of an object of the document and shows
    [String] of the value there. *)
Lemma createFields_field (fuel : nat) (path : list jsstring) (data : JsValue)
      (els : list Element) (fld : Element) :
  createFields fuel path data = Some els -> In fld (fields_of els) ->
  exists rel container leaf key,
    fld = TextSetting key (ToString (Some leaf)) (path ++ rel) key
    /\ lookup data rel = Some container
    /\ Get container key = Some leaf
    /\ is_object (Some leaf) = false.
Proof.
  revert path data els; induction fuel as [|f IH]; intros path data els H Hin;
    [discriminate|].
  cbn [createFields] in H. apply forEach_inv in H.
  apply fields_of_In in Hin as (el & Hel & Hfld).
  destruct (Forall2_In_right _ _ _ _ H Hel) as (key & Hkey & Hk).
  apply (proj1 (sort_In _ _)) in Hkey. destruct (Get_keys _ _ Hkey) as [child G].
  rewrite G in Hk. destruct (is_object (Some child)) eqn:O.
  - destruct (createFields f (path ++ [key]) child) as [children|] eqn:C; [|discriminate].
    injection Hk as <-. cbn [fields_in] in Hfld.
    destruct (IH _ _ _ C Hfld) as (rel & container & leaf & k & -> & L & G' & O').
    exists (key :: rel), container, leaf, k. rewrite <- app_assoc. simpl.
    rewrite G. auto.
  - injection Hk as <-. destruct Hfld as [<-|[]].
    exists [], data, child, key. rewrite app_nil_r. auto.
Qed.

(** Every primitive child of every object of the document has its field. *)
Lemma createFields_complete (fuel : nat) (path rel : list jsstring) (data container leaf : JsValue)
      (key : jsstring) (els : list Element) :
  createFields fuel path data = Some els ->
  lookup data rel = Some container ->
  Get container key = Some leaf ->
  is_object (Some leaf) = false ->
  In (TextSetting key (ToString (Some leaf)) (path ++ rel) key) (fields_of els).
Proof.
  revert fuel path data els; induction rel as [|k0 rel IH]; intros fuel path data els H L G O;
    (destruct fuel as [|f]; [discriminate|]); cbn [createFields] in H;
    apply forEach_inv in H; simpl in L.
  - injection L as ->. rewrite app_nil_r.
    pose proof (Get_Some_keys _ _ _ G) as Hk. apply (proj2 (sort_In _ _)) in Hk.
    destruct (Forall2_In_left _ _ _ _ H Hk) as (el & Hel & E).
    rewrite G, O in E. injection E as <-.
    apply fields_of_In. eexists; split; [exact Hel|]. now left.
  - destruct (Get data k0) as [child|] eqn:G0; [|discriminate].
    pose proof (Get_Some_keys _ _ _ G0) as Hk. apply (proj2 (sort_In _ _)) in Hk.
    destruct (Forall2_In_left _ _ _ _ H Hk) as (el & Hel & E).
    rewrite G0 in E.
    assert (Oc : is_object (Some child) = true).
    { destruct rel; simpl in L.
      - injection L as ->. destruct container; simpl in G; try discriminate; reflexivity.
      - destruct child; simpl in L; try discriminate; reflexivity. }
    rewrite Oc in E.
    destruct (createFields f (path ++ [k0]) child) as [children|] eqn:C; [|discriminate].
    injection E as <-.
    apply fields_of_In. eexists; split; [exact Hel|]. cbn [fields_in].
    specialize (IH _ _ _ _ C L G O). rewrite <- app_assoc in IH. exact IH.
Qed.

(** ** Assigning to an existing key *)

Lemma assoc_split (key : jsstring) (props : list (jsstring * JsValue)) (old : JsValue) :
  assoc key props = Some old ->
  exists l1 l2,
    props = l1 ++ (key, old) :: l2
    /\ assoc key l1 = None
    /\ has_key key props = true
    /\ forall v, replace_value key v props = l1 ++ (key, v) :: l2.
Proof.
  induction props as [|[k w] rest IH]; simpl; [discriminate|].
  destruct (str_eqb k key) eqn:E.
  - apply str_eqb_eq in E. subst. intros [= ->]. exists [], rest. auto.
  - intro H. destruct (IH H) as (l1 & l2 & -> & Hn & Hk & R).
    exists ((k, w) :: l1), l2. simpl. rewrite E. simpl. repeat split; auto.
    intro v. now rewrite R.
Qed.

Lemma nth_error_split_replace (n : nat) (elems : list JsValue) (old : JsValue) :
  nth_error elems n = Some old ->
  exists l1 l2,
    elems = l1 ++ old :: l2
    /\ List.length l1 = n
    /\ forall v, replace_nth n v elems = Some (l1 ++ v :: l2).
Proof.
  revert elems; induction n as [|n IH]; intros [|x elems]; simpl; try discriminate.
  - intros [= ->]. exists [], elems. auto.
  - intro H. destruct (IH _ H) as (l1 & l2 & -> & L & R).
    exists (x :: l1), l2. simpl. repeat split; [now rewrite L|].
    intro v. now rewrite R.
Qed.

(** What [data[key] = v] does to an object or array that has the key: the
    value at the place of the old one, everything else where it was. *)
Inductive replaced (old v : JsValue) : JsValue -> JsValue -> Prop :=
| replaced_elem l1 l2 :
    replaced old v (JArray (l1 ++ old :: l2)) (JArray (l1 ++ v :: l2))
| replaced_prop k l1 l2 :
    replaced old v (JObject (l1 ++ (k, old) :: l2)) (JObject (l1 ++ (k, v) :: l2)).

Lemma assoc_app_fresh (key : jsstring) (l1 l2 : list (jsstring * JsValue)) :
  assoc key l1 = None -> assoc key (l1 ++ l2) = assoc key l2.
Proof.
  induction l1 as [|[k w] l1 IH]; simpl; [reflexivity|].
  destruct (str_eqb k key); [discriminate|exact IH].
Qed.

Lemma Put_existing (data : JsValue) (key : jsstring) (old v : JsValue) :
  Get data key = Some old ->
  exists data',
    Put data key v = Some data' /\ replaced old v data data' /\ Get data' key = Some v.
Proof.
  destruct data; simpl; try discriminate.
  - destruct (index_of_key key) eqn:E; [|discriminate]. intro H.
    destruct (nth_error_split_replace _ _ _ H) as (l1 & l2 & -> & L & R).
    rewrite R. simpl. eexists; split; [reflexivity|]. split; [constructor|].
    simpl. rewrite E, <- L, nth_error_app2, Nat.sub_diag by lia. reflexivity.
  - intro H. destruct (assoc_split _ _ _ H) as (l1 & l2 & -> & Hn & Hk & R).
    unfold define_property. rewrite Hk, R. eexists; split; [reflexivity|].
    split; [constructor|]. simpl. rewrite assoc_app_fresh by exact Hn.
    simpl. now rewrite str_eqb_refl.
Qed.

Lemma Put_same (data : JsValue) (key : jsstring) (v : JsValue) :
  Get data key = Some v -> Put data key v = Some data.
Proof.
  intro H. destruct (Put_existing data key v v H) as (data' & -> & R & _).
  now destruct R.
Qed.

(** [assign] on a key that is there: the value is stored under the key, and
    every object on the way has its child replaced in place. *)
Lemma assign_existing (root : JsValue) (path : list jsstring) (key : jsstring)
      (container old v : JsValue) :
  lookup root path = Some container -> Get container key = Some old ->
  exists root', assign root path key v = Some root'
                /\ lookup root' (path ++ [key]) = Some v.
Proof.
  revert root; induction path as [|k path IH]; simpl; intros root L G.
  - injection L as ->. destruct (Put_existing _ _ _ v G) as (data' & P & _ & G').
    exists data'. now rewrite G'.
  - destruct (Get root k) as [child|] eqn:Gk; [|discriminate].
    destruct (IH _ L G) as (child' & -> & L').
    destruct (Put_existing _ _ _ child' Gk) as (root' & P & _ & G').
    exists root'. now rewrite G'.
Qed.

Lemma assign_same (root : JsValue) (path : list jsstring) (key : jsstring)
      (container v : JsValue) :
  lookup root path = Some container -> Get container key = Some v ->
  assign root path key v = Some root.
Proof.
  revert root; induction path as [|k path IH]; simpl; intros root L G.
  - injection L as ->. now apply Put_same.
  - destruct (Get root k) as [child|] eqn:Gk; [|discriminate].
    rewrite (IH _ L G). now apply Put_same.
Qed.

Lemma lookup_app (root : JsValue) (p q : list jsstring) :
  lookup root (p ++ q) = match lookup root p with
                         | Some v => lookup v q
                         | None => None
                         end.
Proof.
  revert root; induction p as [|k p IH]; simpl; intro root; [reflexivity|].
  destruct (Get root k); [apply IH|reflexivity].
Qed.

(** ** The claims about the display *)

(** C10.  A file whose text parses to a primitive root: the handler keeps the
    root in [jsonData], renders the save button and no field, and reports
    that there is no valid JSON data to display. *)
Theorem primitive_root_displays_nothing (fuel : nat) (v : View) (file : File)
        (others : list File) (root : JsValue) :
  JSON_parse (text file) = Some root ->
  is_object (Some root) = false ->
  exists v',
    fileButton_onclick fuel true (file :: others) v = Some v'
    /\ jsonData v' = root
    /\ contentEl v' = [Button "Save Changes"]
    /\ fields_of (contentEl v') = []
    /\ notices v' = notices v ++ ["File loaded successfully!"; "No valid JSON data to display."]%string.
Proof.
  intros P O. unfold fileButton_onclick. cbn [negb]. rewrite P.
  unfold displayEditor, Notice. cbn [jsonData filePath contentEl notices].
  rewrite O. eexists; split; [reflexivity|]. cbn [jsonData filePath contentEl notices].
  rewrite <- app_assoc. auto.
Qed.

Lemma primitive_root_displays_nothing_witness :
  exists v',
    fileButton_onclick 0 true [mkFile (lit "n.json") (lit "42")] new_view = Some v'
    /\ jsonData v' = JNumber (f64 42)
    /\ contentEl v' = [Button "Save Changes"]
    /\ fields_of (contentEl v') = []
    /\ notices v' = notices new_view ++ ["File loaded successfully!"; "No valid JSON data to display."]%string.
Proof.
  apply (primitive_root_displays_nothing 0 new_view (mkFile (lit "n.json") (lit "42")) []
                                         (JNumber (f64 42))).
  - vm_compute. reflexivity.
  - reflexivity.
Defined.

(** A file that does not parse: the document and the display stay, a notice
    is added, and [filePath] is the name of the rejected file. *)
Lemma invalid_file_handled (fuel : nat) (v : View) (file : File) (others : list File) :
  JSON_parse (text file) = None ->
  fileButton_onclick fuel true (file :: others) v
  = Some (mkView (jsonData v) (name file) (contentEl v)
                 (notices v ++ ["Invalid JSON file."%string])).
Proof. intro P. unfold fileButton_onclick. simpl. now rewrite P. Qed.

(** C3.  With [good.json] loaded, picking [bad.json] whose text is [{invalid]:
    the parse fails, the notice is shown, [jsonData] and the display are
    those of [good.json], and the name suggested for saving is [bad.json]. *)
Theorem invalid_file_renames_document :
  JSON_parse (text bad_file) = None
  /\ fileButton_onclick 2 true [good_file] new_view = Some good_view
  /\ fileButton_onclick 2 true [bad_file] good_view
     = Some (mkView (jsonData good_view) (lit "bad.json") (contentEl good_view)
                    (notices good_view ++ ["Invalid JSON file."%string]))
  /\ fst (fst (saveButton_onclick good_view)) = lit "good.json"
  /\ (forall v', fileButton_onclick 2 true [bad_file] good_view = Some v' ->
                 fst (fst (saveButton_onclick v')) = lit "bad.json"
                 /\ snd (fst (saveButton_onclick v')) = snd (fst (saveButton_onclick good_view))).
Proof.
  assert (P : JSON_parse (text bad_file) = None) by (vm_compute; reflexivity).
  split; [exact P|]. split; [vm_compute; reflexivity|].
  rewrite (invalid_file_handled 2 good_view bad_file [] P).
  split; [reflexivity|]. split; [reflexivity|].
  intros v' [= <-]. split; reflexivity.
Qed.

(** A field of the display names one place of the document. *)
Lemma field_unique (fuel : nat) (root : JsValue) (els : list Element)
      (rel : list jsstring) (key x : jsstring) (container leaf : JsValue) :
  createFields fuel [] root = Some els ->
  lookup root rel = Some container ->
  Get container key = Some leaf ->
  In (TextSetting key x rel key) (fields_of els) ->
  x = ToString (Some leaf).
Proof.
  intros C L G Hin.
  destruct (createFields_field _ _ _ _ _ C Hin) as (rel' & c' & leaf' & k' & E & L' & G' & _).
  cbn [app] in E. inversion E; subst.
  assert (leaf' = leaf) by congruence. now subst.
Qed.

(** C8, as the code has it.  Every primitive child has its field, and the
    text of the field is [String(value)]: [true] or [false] for a Bool, the
    text of Number::toString for a Number, the string itself for a String,
    and [null] for Null; no other text is shown for that child. *)
Theorem field_shows_String_of_leaf (fuel : nat) (root : JsValue) (els : list Element)
        (rel : list jsstring) (key : jsstring) (container leaf : JsValue) :
  createFields fuel [] root = Some els ->
  lookup root rel = Some container ->
  Get container key = Some leaf ->
  is_object (Some leaf) = false ->
  let shown := match leaf with
               | JNull => lit "null"
               | JBool true => lit "true"
               | JBool false => lit "false"
               | JNumber x => NumberToString x
               | JString s => s
               | _ => []
               end in
  In (TextSetting key shown rel key) (fields_of els)
  /\ forall x, In (TextSetting key x rel key) (fields_of els) -> x = shown.
Proof.
  intros C L G O shown.
  assert (E : shown = ToString (Some leaf)) by (destruct leaf; try discriminate; reflexivity).
  rewrite E. split.
  - exact (createFields_complete _ [] _ _ _ _ _ _ C L G O).
  - intros x Hx. exact (field_unique _ _ _ _ _ _ _ _ C L G Hx).
Qed.

Lemma field_shows_String_of_leaf_witness :
  In (TextSetting (lit "a") (lit "null") [] (lit "a"))
     (fields_of [TextSetting (lit "a") (lit "null") [] (lit "a")])
  /\ forall x, In (TextSetting (lit "a") x [] (lit "a"))
                  (fields_of [TextSetting (lit "a") (lit "null") [] (lit "a")]) ->
               x = lit "null".
Proof.
  apply (field_shows_String_of_leaf 1 null_doc _ [] (lit "a") null_doc JNull);
    reflexivity.
Defined.

(** C8 as stated fails on a Null leaf: the field of [{"a": null}] shows
    [null], not the empty string. *)
Lemma null_leaf_shows_null :
  Get null_doc (lit "a") = Some JNull
  /\ exists els,
       createFields 1 [] null_doc = Some els
       /\ In (TextSetting (lit "a") (lit "null") [] (lit "a")) (fields_of els)
       /\ ~ In (TextSetting (lit "a") [] [] (lit "a")) (fields_of els).
Proof.
  split; [reflexivity|]. eexists. split; [reflexivity|]. split; [now left|].
  intros [H|[]]. discriminate.
Qed.

(** C1, as the code has it.  Committing any text to any field stores that
    text as a String under the field's key; no notice is shown and nothing
    else of the view changes. *)
Theorem commit_stores_text (fuel : nat) (v : View) (els : list Element) (field : Element)
        (newValue : jsstring) :
  createFields fuel [] (jsonData v) = Some els ->
  In field (fields_of els) ->
  exists v',
    onChange field newValue v = Some v'
    /\ lookup (jsonData v') (field_path field) = Some (JString newValue)
    /\ notices v' = notices v
    /\ filePath v' = filePath v
    /\ contentEl v' = contentEl v.
Proof.
  intros C Hin.
  destruct (createFields_field _ _ _ _ _ C Hin) as (rel & c & leaf & k & -> & L & G & _).
  simpl. destruct (assign_existing _ _ _ _ _ (JString newValue) L G) as (root' & -> & L').
  eexists; split; [reflexivity|]. simpl. auto.
Qed.

Lemma commit_stores_text_witness :
  exists v',
    onChange (TextSetting (lit "n") (lit "1") [] (lit "n")) (lit "abc") number_doc = Some v'
    /\ lookup (jsonData v') [lit "n"] = Some (JString (lit "abc"))
    /\ notices v' = notices number_doc
    /\ filePath v' = filePath number_doc
    /\ contentEl v' = contentEl number_doc.
Proof.
  apply (commit_stores_text 1 number_doc [TextSetting (lit "n") (lit "1") [] (lit "n")]
                            (TextSetting (lit "n") (lit "1") [] (lit "n")) (lit "abc")).
  - vm_compute. reflexivity.
  - now left.
Defined.

(** C1 as stated fails on a Number leaf: in [{"n": 1}] the text [42], which
    parses as a JSON number, is stored as the String ["42"]. *)
Lemma number_text_stored_as_string :
  fileButton_onclick 2 true [mkFile (lit "n.json") (json "{'n':1}")] new_view = Some number_doc
  /\ In (TextSetting (lit "n") (lit "1") [] (lit "n")) (fields_of (contentEl number_doc))
  /\ lookup (jsonData number_doc) [lit "n"] = Some (JNumber (f64 1))
  /\ JSON_parse (lit "42") = Some (JNumber (f64 42))
  /\ exists v',
       onChange (TextSetting (lit "n") (lit "1") [] (lit "n")) (lit "42") number_doc = Some v'
       /\ lookup (jsonData v') [lit "n"] = Some (JString (lit "42"))
       /\ notices v' = notices number_doc.
Proof.
  split; [vm_compute; reflexivity|]. split; [now left|]. split; [reflexivity|].
  split; [vm_compute; reflexivity|].
  eexists. split; [reflexivity|]. split; reflexivity.
Qed.

(** C6, as the code has it.  Committing the text a field shows stores that
    text as a String: a String leaf keeps its value and the view is the one
    before; a Null, Bool or Number leaf becomes the String of its text. *)
Theorem recommit_shown_text (fuel : nat) (v : View) (els : list Element) (field : Element) :
  createFields fuel [] (jsonData v) = Some els ->
  In field (fields_of els) ->
  exists v' leaf,
    lookup (jsonData v) (field_path field) = Some leaf
    /\ field_value field = ToString (Some leaf)
    /\ onChange field (field_value field) v = Some v'
    /\ lookup (jsonData v') (field_path field) = Some (JString (field_value field))
    /\ (forall s, leaf = JString s -> v' = v).
Proof.
  intros C Hin.
  destruct (createFields_field _ _ _ _ _ C Hin) as (rel & c & leaf & k & -> & L & G & _).
  cbn [field_path field_value app onChange].
  destruct (assign_existing _ _ _ _ _ (JString (ToString (Some leaf))) L G)
    as (root' & A & L').
  rewrite A. exists (mkView root' (filePath v) (contentEl v) (notices v)), leaf.
  split; [rewrite lookup_app, L; simpl; now rewrite G|].
  split; [reflexivity|]. split; [reflexivity|]. split; [exact L'|].
  intros s ->. simpl in A. rewrite (assign_same _ _ _ _ _ L G) in A.
  injection A as <-. now destruct v.
Qed.

Lemma recommit_shown_text_witness :
  exists v' leaf,
    lookup (jsonData number_doc) [lit "n"] = Some leaf
    /\ lit "1" = ToString (Some leaf)
    /\ onChange (TextSetting (lit "n") (lit "1") [] (lit "n")) (lit "1") number_doc = Some v'
    /\ lookup (jsonData v') [lit "n"] = Some (JString (lit "1"))
    /\ (forall s, leaf = JString s -> v' = number_doc).
Proof.
  apply (recommit_shown_text 1 number_doc [TextSetting (lit "n") (lit "1") [] (lit "n")]
                             (TextSetting (lit "n") (lit "1") [] (lit "n"))).
  - vm_compute. reflexivity.
  - now left.
Defined.

(** C6 as stated fails on a Number leaf: in [{"n": 1}] the field shows [1],
    and committing [1] leaves the String ["1"] where the Number was. *)
Lemma recommit_changes_number :
  field_value (TextSetting (lit "n") (lit "1") [] (lit "n"))
  = ToString (lookup (jsonData number_doc) [lit "n"])
  /\ exists v',
       onChange (TextSetting (lit "n") (lit "1") [] (lit "n")) (lit "1") number_doc = Some v'
       /\ jsonData v' = JObject [(lit "n", JString (lit "1"))]
       /\ value_eqb (jsonData v') (jsonData number_doc) = false.
Proof.
  split; [vm_compute; reflexivity|].
  eexists. split; [reflexivity|]. split; reflexivity.
Qed.

(** ** Display order *)

Lemma StronglySorted_app_left {A : Type} (R : A -> A -> Prop) (l1 l2 : list A) :
  StronglySorted R (l1 ++ l2) -> StronglySorted R l1.
Proof.
  induction l1 as [|x l1 IH]; simpl; intro H; [constructor|].
  inversion H as [|? ? Hs Hall]; subst. constructor; [now apply IH|].
  now apply Forall_app in Hall as [Hall _].
Qed.

Lemma indices_app (n m : nat) :
  indices (n + m) = indices n ++ map Z.of_nat (seq n m).
Proof. unfold indices. now rewrite seq_app, map_app. Qed.

(** The decimal numerals of [0 .. n-1] are in string order only up to ten
    of them: ["10"] sorts before ["2"]. *)
Lemma numeric_order_sorted (n : nat) :
  StronglySorted str_le (map decimal (indices n)) <-> (n <= 10)%nat.
Proof.
  split.
  - intro H. destruct (Nat.le_gt_cases n 10) as [|Hn]; [assumption|exfalso].
    replace n with (11 + (n - 11))%nat in H by lia.
    rewrite indices_app, map_app in H. apply StronglySorted_app_left in H.
    do 2 (inversion H as [|? ? H' Hall]; subst; clear H; rename H' into H;
          try clear Hall).
    inversion H as [|? ? _ Hall]; subst.
    rewrite Forall_forall in Hall. specialize (Hall (decimal 10)).
    assert (Hle : str_le (decimal 2) (decimal 10)) by (apply Hall; simpl; tauto).
    vm_compute in Hle. discriminate.
  - intro H. do 11 (destruct n as [|n]; [vm_compute; repeat constructor|]). lia.
Qed.

Lemma sorted_sort_id (l : list jsstring) : StronglySorted str_le l -> sort l = l.
Proof.
  induction 1 as [|x l Hs IH Hall]; simpl; [reflexivity|].
  rewrite IH. destruct l as [|y l]; [reflexivity|]. simpl.
  inversion Hall as [|? ? Hy _]; subst. unfold str_le in Hy. now rewrite Hy.
Qed.

(** C2, as the code has it.  The children of an array are displayed in the
    string order of their stringified indices; that is the numeric index
    order exactly for arrays of at most ten elements. *)
Theorem array_display_order (fuel : nat) (path : list jsstring) (elems : list JsValue)
        (els : list Element) :
  createFields fuel path (JArray elems) = Some els ->
  map label els = sort (map decimal (indices (List.length elems)))
  /\ StronglySorted str_le (map label els)
  /\ (map label els = map decimal (indices (List.length elems))
      <-> (List.length elems <= 10)%nat).
Proof.
  intro C. apply createFields_labels in C. cbn [Object_keys] in C. rewrite C.
  split; [reflexivity|]. split; [apply sort_sorted|].
  rewrite <- numeric_order_sorted. split.
  - intros <-. apply sort_sorted.
  - apply sorted_sort_id.
Qed.

Lemma array_display_order_witness :
  map label [TextSetting (lit "0") (lit "null") [] (lit "0");
             TextSetting (lit "1") (lit "true") [] (lit "1")]
  = sort (map decimal (indices 2))
  /\ StronglySorted str_le
       (map label [TextSetting (lit "0") (lit "null") [] (lit "0");
                   TextSetting (lit "1") (lit "true") [] (lit "1")])
  /\ (map label [TextSetting (lit "0") (lit "null") [] (lit "0");
                 TextSetting (lit "1") (lit "true") [] (lit "1")]
      = map decimal (indices 2)
      <-> (2 <= 10)%nat).
Proof.
  apply (array_display_order 1 [] [JNull; JBool true]). vm_compute. reflexivity.
Defined.

(** C2 as stated fails on an array of eleven elements: index 10 is displayed
    third, before index 2. *)
Lemma eleven_elements_misordered :
  exists els,
    createFields 1 [] eleven = Some els
    /\ map label els
       = map lit ["0"; "1"; "10"; "2"; "3"; "4"; "5"; "6"; "7"; "8"; "9"]%string
    /\ map label els <> map decimal (indices 11).
Proof.
  eexists. split; [vm_compute; reflexivity|]. split; [reflexivity|].
  vm_compute. discriminate.
Qed.

Lemma code_points_no_surrogate (s : jsstring) : no_surrogate s = true -> code_points s = s.
Proof.
  induction s as [|c rest IH]; simpl; [reflexivity|].
  intro H. apply andb_true_iff in H as [Hc Hr]. rewrite (IH Hr).
  destruct rest as [|c2 rest']; [reflexivity|].
  apply negb_true_iff, orb_false_iff in Hc as [-> _]. reflexivity.
Qed.

Lemma displayEditor_keeps_document (fuel : nat) (v v' : View) :
  displayEditor fuel v = Some v' -> jsonData v' = jsonData v /\ filePath v' = filePath v.
Proof.
  unfold displayEditor. destruct (is_object (Some (jsonData v))).
  - destruct (createFields fuel [] (jsonData v)); [|discriminate].
    intros [= <-]. auto.
  - intros [= <-]. auto.
Qed.

(** The group of an object of the document is where its keys lead. *)
Lemma display_at_lookup (fuel : nat) (path rel : list jsstring) (data node : JsValue)
      (els : list Element) :
  createFields fuel path data = Some els ->
  lookup data rel = Some node ->
  is_object (Some node) = true ->
  exists fuel' children,
    display_at els rel = Some children
    /\ createFields fuel' (path ++ rel) node = Some children.
Proof.
  revert fuel path data els; induction rel as [|k rel IH]; intros fuel path data els C L O.
  - injection L as ->. exists fuel, els. now rewrite app_nil_r.
  - simpl in L. destruct (Get data k) as [child|] eqn:G; [|discriminate].
    assert (Oc : is_object (Some child) = true).
    { destruct rel; simpl in L.
      - now injection L as ->.
      - destruct child; simpl in L; try discriminate; reflexivity. }
    destruct fuel as [|f]; [discriminate|]. cbn [createFields] in C.
    apply forEach_inv in C. cbn [display_at].
    assert (F : exists children,
               find (fun el => match el with
                               | Details summary _ => str_eqb summary k
                               | _ => false
                               end) els = Some (Details k children)
               /\ createFields f (path ++ [k]) child = Some children).
    { pose proof (Get_Some_keys _ _ _ G) as Hk. apply (proj2 (sort_In _ _)) in Hk.
      induction C as [|key el keys els' Hel _ IHC]; [contradiction|].
      cbn [find].
      destruct (str_eqb key k) eqn:E.
      - apply str_eqb_eq in E. subst key. rewrite G, Oc in Hel.
        destruct (createFields f (path ++ [k]) child) as [children|]; [|discriminate].
        injection Hel as <-. rewrite str_eqb_refl. eauto.
      - assert (Hne : match el with
                      | Details summary _ => str_eqb summary k
                      | _ => false
                      end = false).
        { destruct (is_object (Get data key)).
          - destruct (Get data key); [|discriminate].
            destruct (createFields f (path ++ [key]) j); [|discriminate].
            now injection Hel as <-.
          - now injection Hel as <-. }
        rewrite Hne. apply IHC. destruct Hk as [->|Hk]; [|exact Hk].
        now rewrite str_eqb_refl in E. }
    destruct F as (children & -> & Cc).
    destruct (IH _ _ _ _ Cc L O) as (fuel' & ch & D & Cn).
    exists fuel', ch. now rewrite <- app_assoc in Cn.
Qed.

Lemma sorted_by_code_points (l : list jsstring) :
  Forall (fun k => code_points k = k) l ->
  StronglySorted str_le l ->
  StronglySorted (fun a b => code_point_ltb b a = false) l.
Proof.
  intros NS S. induction S as [|x l Hs IH Hall]; [constructor|].
  inversion NS as [|? ? Hx Hl]; subst.
  constructor; [now apply IH|].
  rewrite Forall_forall in *. intros y Hy. unfold code_point_ltb.
  rewrite Hx, (Hl y Hy). now apply Hall.
Qed.

(** C7, as the code has it.  The group of every object of the document, at
    whatever depth, lists its children in the order [sort] gives the keys:
    ascending by UTF-16 code units, a permutation of the stored keys.  Where
    no key holds a surrogate that is the code-point order.  Building the
    display leaves [jsonData], and so the stored order, as it was. *)
Theorem object_display_order (fuel : nat) (root : JsValue) (els : list Element)
        (rel : list jsstring) (props : list (jsstring * JsValue)) :
  createFields fuel [] root = Some els ->
  lookup root rel = Some (JObject props) ->
  exists children,
    display_at els rel = Some children
    /\ map label children = sort (map fst props)
    /\ StronglySorted str_le (map label children)
    /\ Permutation (map fst props) (map label children)
    /\ (forallb no_surrogate (map fst props) = true ->
        StronglySorted (fun a b => code_point_ltb b a = false) (map label children))
    /\ (forall v v', jsonData v = root -> displayEditor fuel v = Some v' ->
                     jsonData v' = root).
Proof.
  intros C L.
  destruct (display_at_lookup _ _ _ _ _ _ C L eq_refl) as (fuel' & children & D & Cn).
  exists children. split; [exact D|].
  apply createFields_labels in Cn. cbn [Object_keys] in Cn. rewrite Cn.
  split; [reflexivity|]. split; [apply sort_sorted|]. split; [apply sort_perm|].
  split.
  - intro NS.
    assert (NS' : Forall (fun k => code_points k = k) (sort (map fst props))).
    { apply Forall_forall. intros k Hk. apply (proj1 (sort_In _ _)) in Hk.
      apply code_points_no_surrogate.
      rewrite forallb_forall in NS. now apply NS. }
    apply sorted_by_code_points; [exact NS'|apply sort_sorted].
  - intros v v' <- DE. now apply displayEditor_keeps_document in DE.
Qed.

Lemma object_display_order_witness :
  exists children,
    display_at scenario_a_fields [] = Some children
    /\ map label children = sort (map fst [(lit "b", JNumber (f64 1));
                                           (lit "a", JObject [(lit "c", JBool true)])])
    /\ StronglySorted str_le (map label children)
    /\ Permutation (map fst [(lit "b", JNumber (f64 1));
                             (lit "a", JObject [(lit "c", JBool true)])])
                   (map label children)
    /\ (forallb no_surrogate (map fst [(lit "b", JNumber (f64 1));
                                       (lit "a", JObject [(lit "c", JBool true)])]) = true ->
        StronglySorted (fun a b => code_point_ltb b a = false) (map label children))
    /\ (forall v v', jsonData v = scenario_a -> displayEditor 2 v = Some v' ->
                     jsonData v' = scenario_a).
Proof.
  apply (object_display_order 2 scenario_a scenario_a_fields []); vm_compute; reflexivity.
Defined.

(** C7 as stated fails on keys outside the Basic Multilingual Plane: of the
    keys U+FF5E and U+1F600 (the surrogate pair D83D DE00) the second is
    displayed first, though its code point is the larger. *)
Lemma astral_key_displayed_first :
  JSON_parse ([123; 34; 65374; 34; 58] ++ lit "null"
              ++ [44; 34; 55357; 56832; 34; 58] ++ lit "null" ++ [125])
  = Some astral_doc
  /\ exists els,
       createFields 1 [] astral_doc = Some els
       /\ map label els = [[55357; 56832]; [65374]]
       /\ code_points [55357; 56832] = [128512]
       /\ code_point_ltb [65374] [55357; 56832] = true.
Proof.
  split; [vm_compute; reflexivity|]. eexists. split; [reflexivity|]. repeat split.
Qed.

(** ** Edits keep the order *)

Lemma join_cons (sep x : jsstring) (rest : list jsstring) :
  join sep (x :: rest) = x ++ flat_map (fun b => sep ++ b) rest.
Proof.
  revert x; induction rest as [|y rest IH]; intro x.
  - simpl. now rewrite app_nil_r.
  - change (join sep (x :: y :: rest)) with (x ++ sep ++ join sep (y :: rest)).
    rewrite IH. simpl. now rewrite <- !app_assoc.
Qed.

Lemma join_split (sep x : jsstring) (before after : list jsstring) :
  join sep (before ++ x :: after)
  = flat_map (fun a => a ++ sep) before ++ x ++ flat_map (fun b => sep ++ b) after.
Proof.
  induction before as [|a before IH]; [apply join_cons|].
  change ((a :: before) ++ x :: after) with (a :: (before ++ x :: after)).
  destruct (before ++ x :: after) as [|y l] eqn:E.
  - now destruct before.
  - change (join sep (a :: y :: l)) with (a ++ sep ++ join sep (y :: l)).
    rewrite IH. simpl. now rewrite <- !app_assoc.
Qed.

(** The text around one member of a non-empty array or object. *)
Lemma wrap_split (opening closing : Z) (stepback : jsstring) (before after : list jsstring) :
  exists pre post,
    forall y, wrap opening closing stepback (before ++ y :: after) = pre ++ y ++ post.
Proof.
  exists ([opening; 10] ++ (stepback ++ gap)
          ++ flat_map (fun a => a ++ [44; 10] ++ (stepback ++ gap)) before),
         (flat_map (fun b => ([44; 10] ++ (stepback ++ gap)) ++ b) after
          ++ [10] ++ stepback ++ [closing]).
  intro y. unfold wrap. destruct (before ++ y :: after) eqn:E; [now destruct before|].
  rewrite <- E, join_split. now rewrite <- !app_assoc.
Qed.

Lemma replaced_serialize (old v data data' : JsValue) (indent : jsstring) :
  replaced old v data data' ->
  exists pre post,
    SerializeJSONProperty indent data
    = pre ++ SerializeJSONProperty (indent ++ gap) old ++ post
    /\ SerializeJSONProperty indent data'
       = pre ++ SerializeJSONProperty (indent ++ gap) v ++ post.
Proof.
  intros []; cbn [SerializeJSONProperty]; rewrite !map_app; cbn [map].
  - destruct (wrap_split 91 93 indent
                (map (SerializeJSONProperty (indent ++ gap)) l1)
                (map (SerializeJSONProperty (indent ++ gap)) l2)) as (pre & post & W).
    exists pre, post. now rewrite !W.
  - destruct (wrap_split 123 125 indent
                (map (fun '(k, w) => QuoteJSONString k ++ [58; 32]
                                     ++ SerializeJSONProperty (indent ++ gap) w) l1)
                (map (fun '(k, w) => QuoteJSONString k ++ [58; 32]
                                     ++ SerializeJSONProperty (indent ++ gap) w) l2))
      as (pre & post & W).
    exists (pre ++ QuoteJSONString k ++ [58; 32]), post.
    rewrite !W. now rewrite <- !app_assoc.
Qed.

Lemma replaced_shape (old v data data' : JsValue) :
  replaced old v data data' -> shape_of v = shape_of old -> shape_of data' = shape_of data.
Proof.
  intros [] E; cbn [shape_of]; rewrite !map_app; cbn [map]; now rewrite E.
Qed.

(** [assign] of a leaf where a leaf was: the shape of the document stays, and
    so does its text around the leaf. *)
Lemma assign_frame (root : JsValue) (path : list jsstring) (key : jsstring)
      (container old v : JsValue) (indent : jsstring) :
  lookup root path = Some container -> Get container key = Some old ->
  shape_of v = shape_of old ->
  exists root' pre post ind,
    assign root path key v = Some root'
    /\ shape_of root' = shape_of root
    /\ SerializeJSONProperty indent root = pre ++ SerializeJSONProperty ind old ++ post
    /\ SerializeJSONProperty indent root' = pre ++ SerializeJSONProperty ind v ++ post.
Proof.
  revert root indent; induction path as [|k path IH]; simpl; intros root indent L G E.
  - injection L as ->. destruct (Put_existing _ _ _ v G) as (root' & P & R & _).
    destruct (replaced_serialize _ _ _ _ indent R) as (pre & post & S1 & S2).
    exists root', pre, post, (indent ++ gap). split; [exact P|].
    split; [now apply (replaced_shape _ _ _ _ R)|]. auto.
  - destruct (Get root k) as [child|] eqn:Gk; [|discriminate].
    destruct (IH child (indent ++ gap) L G E) as (child' & pre & post & ind & -> & Sh & S1 & S2).
    destruct (Put_existing _ _ _ child' Gk) as (root' & P & R & _).
    destruct (replaced_serialize _ _ _ _ indent R) as (pre' & post' & T1 & T2).
    exists root', (pre' ++ pre), (post ++ post'), ind. split; [exact P|].
    split; [now apply (replaced_shape _ _ _ _ R)|].
    rewrite T1, T2, S1, S2. now rewrite <- !app_assoc.
Qed.

Lemma leaf_serialize (leaf : JsValue) (indent : jsstring) :
  is_object (Some leaf) = false -> SerializeJSONProperty indent leaf = JSON_stringify leaf.
Proof. destruct leaf; simpl; try discriminate; reflexivity. Qed.

(** C5.  Committing a text to a field leaves every object with the keys it
    had, in the order it had them, and every array with its length: the
    document has the shape it had.  The text written on save is the text
    that would have been written before, with the old leaf's text replaced
    by the quoted new text: every key, and every other value, is written
    where it was. *)
Theorem edit_keeps_order (fuel : nat) (v : View) (els : list Element) (field : Element)
        (newValue : jsstring) :
  createFields fuel [] (jsonData v) = Some els ->
  In field (fields_of els) ->
  exists v' old pre post,
    onChange field newValue v = Some v'
    /\ lookup (jsonData v) (field_path field) = Some old
    /\ shape_of (jsonData v') = shape_of (jsonData v)
    /\ snd (fst (saveButton_onclick v)) = pre ++ JSON_stringify old ++ post
    /\ snd (fst (saveButton_onclick v')) = pre ++ QuoteJSONString newValue ++ post.
Proof.
  intros C Hin.
  destruct (createFields_field _ _ _ _ _ C Hin) as (rel & c & leaf & k & -> & L & G & O).
  cbn [field_path app onChange].
  destruct (assign_frame _ _ _ _ _ (JString newValue) [] L G)
    as (root' & pre & post & ind & A & Sh & S1 & S2).
  { destruct leaf; try discriminate; reflexivity. }
  rewrite A. exists (mkView root' (filePath v) (contentEl v) (notices v)), leaf, pre, post.
  split; [reflexivity|].
  split; [rewrite lookup_app, L; simpl; now rewrite G|].
  split; [exact Sh|]. unfold saveButton_onclick, JSON_stringify at 1 3. cbn [fst snd jsonData].
  rewrite S1, S2, (leaf_serialize leaf ind O). auto.
Qed.

Lemma edit_keeps_order_witness :
  exists v' old pre post,
    onChange (TextSetting (lit "c") (lit "true") [lit "a"] (lit "c")) (lit "false")
             (mkView scenario_a [] [] []) = Some v'
    /\ lookup scenario_a [lit "a"; lit "c"] = Some old
    /\ shape_of (jsonData v') = shape_of scenario_a
    /\ snd (fst (saveButton_onclick (mkView scenario_a [] [] [])))
       = pre ++ JSON_stringify old ++ post
    /\ snd (fst (saveButton_onclick v')) = pre ++ QuoteJSONString (lit "false") ++ post.
Proof.
  apply (edit_keeps_order 2 (mkView scenario_a [] [] []) scenario_a_fields
                          (TextSetting (lit "c") (lit "true") [lit "a"] (lit "c"))
                          (lit "false")).
  - vm_compute. reflexivity.
  - simpl. tauto.
Defined.

(** ** Rounding to binary64 *)

Lemma pow2_gt0 (x : Z) : 0 <= x -> 0 < 2 ^ x.
Proof. intro. apply Z.pow_pos_nonneg; lia. Qed.

Lemma ge_pow2_shift (p q d s : Z) :
  0 <= s -> 0 <= d + s -> ge_pow2 p q d = (q * 2 ^ (d + s) <=? p * 2 ^ s).
Proof.
  intros Hs Hds. unfold ge_pow2. destruct (0 <=? d) eqn:E.
  - apply Z.leb_le in E. rewrite Z.pow_add_r by lia.
    pose proof (pow2_gt0 s Hs). pose proof (pow2_gt0 d E).
    destruct (Z.leb_spec (q * 2 ^ d) p), (Z.leb_spec (q * (2 ^ d * 2 ^ s)) (p * 2 ^ s));
      try reflexivity; nia.
  - apply Z.leb_gt in E.
    assert (S : 2 ^ s = 2 ^ (- d) * 2 ^ (d + s))
      by (rewrite <- Z.pow_add_r by lia; f_equal; lia).
    rewrite S.
    pose proof (pow2_gt0 (d + s) Hds). pose proof (pow2_gt0 (- d) ltac:(lia)).
    destruct (Z.leb_spec q (p * 2 ^ (- d))),
             (Z.leb_spec (q * 2 ^ (d + s)) (p * (2 ^ (- d) * 2 ^ (d + s))));
      try reflexivity; nia.
Qed.

Lemma ge_pow2_antitone (p q d1 d2 : Z) :
  0 < q -> d1 <= d2 -> ge_pow2 p q d2 = true -> ge_pow2 p q d1 = true.
Proof.
  intros Hq Hd. set (s := Z.max 0 (- d1)).
  rewrite (ge_pow2_shift p q d2 s), (ge_pow2_shift p q d1 s) by lia.
  rewrite !Z.leb_le. intro H.
  assert (2 ^ (d1 + s) <= 2 ^ (d2 + s)) by (apply Z.pow_le_mono_r; lia).
  nia.
Qed.

Lemma ge_pow2_log2 (p q : Z) :
  0 < p -> 0 < q ->
  ge_pow2 p q (Z.log2 p - Z.log2 q - 1) = true
  /\ ge_pow2 p q (Z.log2 p - Z.log2 q + 1) = false.
Proof.
  intros Hp Hq.
  pose proof (Z.log2_spec p Hp) as [P1 P2]. pose proof (Z.log2_spec q Hq) as [Q1 Q2].
  pose proof (Z.log2_nonneg p). pose proof (Z.log2_nonneg q).
  rewrite <- !Z.add_1_r in *. split.
  - rewrite (ge_pow2_shift p q _ (Z.log2 q + 1)) by lia.
    replace (Z.log2 p - Z.log2 q - 1 + (Z.log2 q + 1)) with (Z.log2 p) by lia.
    apply Z.leb_le. pose proof (pow2_gt0 (Z.log2 p) ltac:(lia)). nia.
  - rewrite (ge_pow2_shift p q _ (Z.log2 q)) by lia.
    replace (Z.log2 p - Z.log2 q + 1 + Z.log2 q) with (Z.log2 p + 1) by lia.
    apply Z.leb_gt. pose proof (pow2_gt0 (Z.log2 q) ltac:(lia)). nia.
Qed.

Lemma ilog2_ratio_spec (p q : Z) :
  0 < p -> 0 < q ->
  ge_pow2 p q (ilog2_ratio p q) = true /\ ge_pow2 p q (ilog2_ratio p q + 1) = false.
Proof.
  intros Hp Hq. destruct (ge_pow2_log2 p q Hp Hq) as [L U].
  unfold ilog2_ratio. cbv zeta.
  destruct (ge_pow2 p q (Z.log2 p - Z.log2 q)) eqn:E.
  - now split.
  - split; [exact L|]. now replace (Z.log2 p - Z.log2 q - 1 + 1) with (Z.log2 p - Z.log2 q) by lia.
Qed.

Lemma ilog2_ratio_unique (p q a : Z) :
  0 < p -> 0 < q ->
  ge_pow2 p q a = true -> ge_pow2 p q (a + 1) = false -> ilog2_ratio p q = a.
Proof.
  intros Hp Hq A1 A2. destruct (ilog2_ratio_spec p q Hp Hq) as [I1 I2].
  destruct (Z.lt_trichotomy (ilog2_ratio p q) a) as [H|[H|H]]; [|exact H|].
  - rewrite (ge_pow2_antitone p q (ilog2_ratio p q + 1) a) in I2; [discriminate|lia..|exact A1].
  - rewrite (ge_pow2_antitone p q (a + 1) (ilog2_ratio p q)) in A2; [discriminate|lia..|exact I1].
Qed.

Lemma round_half_even_bounds (q0 r d : Z) :
  round_half_even q0 r d = q0 \/ round_half_even q0 r d = q0 + 1.
Proof.
  unfold round_half_even.
  destruct (2 * r <? d); [now left|]. destruct (d <? 2 * r); [now right|].
  destruct (Z.even q0); auto.
Qed.

Lemma round_half_even_exact (q0 d : Z) : 0 < d -> round_half_even q0 0 d = q0.
Proof.
  intro H. unfold round_half_even. destruct (Z.ltb_spec (2 * 0) d); [reflexivity|lia].
Qed.

Lemma scaled_den_pos (q e : Z) : 0 < q -> 0 < scaled_den q e.
Proof.
  intro H. unfold scaled_den. destruct (Z.leb_spec 0 e); [|exact H].
  pose proof (pow2_gt0 e ltac:(lia)). nia.
Qed.

Lemma scaled_ge (p q e x : Z) :
  0 <= x -> ge_pow2 p q (e + x) = (scaled_den q e * 2 ^ x <=? scaled_num p e).
Proof.
  intro Hx. unfold scaled_num, scaled_den. destruct (Z.leb_spec 0 e).
  - rewrite (ge_pow2_shift p q (e + x) 0) by lia.
    rewrite Z.add_0_r, Z.pow_0_r, Z.mul_1_r, Z.pow_add_r by lia. f_equal. lia.
  - rewrite (ge_pow2_shift p q (e + x) (- e)) by lia.
    now replace (e + x + - e) with x by lia.
Qed.

Lemma round_pos_valid (neg : bool) (p q : Z) :
  0 < p -> 0 < q -> valid_number (round_pos neg p q) = true.
Proof.
  intros Hp Hq. unfold round_pos.
  destruct (ilog2_ratio_spec p q Hp Hq) as [I1 I2].
  set (il := ilog2_ratio p q) in *. set (e := Z.max (-1074) (il - 52)).
  fold (scaled_num p e) (scaled_den q e).
  pose proof (scaled_den_pos q e Hq) as Hd.
  set (num := scaled_num p e) in *. set (den := scaled_den q e) in *.
  assert (U : num < den * 2 ^ 53).
  { apply Z.leb_gt. unfold num, den. rewrite <- scaled_ge by lia.
    destruct (ge_pow2 p q (e + 53)) eqn:G; [|reflexivity].
    rewrite (ge_pow2_antitone p q (il + 1) (e + 53)) in I2; [discriminate|lia..|exact G]. }
  assert (L : e = il - 52 -> den * 2 ^ 52 <= num).
  { intro He. apply Z.leb_le. unfold num, den. rewrite <- scaled_ge by lia.
    now replace (e + 52) with il by lia. }
  assert (N : 0 <= num).
  { unfold num, scaled_num. destruct (0 <=? e); [lia|].
    pose proof (pow2_gt0 (- e)). destruct (Z.leb_spec 0 (- e)); nia. }
  assert (M0 : 0 <= num / den < 2 ^ 53).
  { split; [apply Z.div_pos; lia|]. apply Z.div_lt_upper_bound; lia. }
  assert (M1 : e = il - 52 -> 2 ^ 52 <= num / den).
  { intro He. apply Z.div_le_lower_bound; [lia|]. specialize (L He). lia. }
  destruct (round_half_even_bounds (num / den) (num mod den) den) as [R|R]; rewrite R.
  - destruct (Z.eqb_spec (num / den) (2 ^ 53)) as [E|E]; [lia|].
    destruct (num / den) as [|mp|mp] eqn:Em; [reflexivity| |lia].
    destruct (Z.ltb_spec 971 e); [reflexivity|]. cbn [valid_number].
    destruct (Z.eq_dec e (-1074)) as [E1|E1].
    + rewrite E1. rewrite (proj2 (Z.ltb_lt _ _)) by lia.
      now rewrite orb_true_r.
    + assert (e = il - 52) by lia. specialize (M1 H0).
      rewrite (proj2 (Z.ltb_lt _ _)), (proj2 (Z.leb_le (-1074) e)),
        (proj2 (Z.leb_le e 971)), (proj2 (Z.leb_le (2 ^ 52) _)) by lia.
      reflexivity.
  - destruct (Z.eqb_spec (num / den + 1) (2 ^ 53)) as [E|E].
    + change (2 ^ 52) with (Z.pos (2 ^ 52)%positive).
      destruct (Z.ltb_spec 971 (e + 1)); [reflexivity|]. cbn [valid_number].
      rewrite (proj2 (Z.leb_le (-1074) (e + 1))), (proj2 (Z.leb_le (e + 1) 971)) by lia.
      reflexivity.
    + destruct (num / den + 1) as [|mp|mp] eqn:Em; [reflexivity| |lia].
      destruct (Z.ltb_spec 971 e); [reflexivity|]. cbn [valid_number].
      destruct (Z.eq_dec e (-1074)) as [E1|E1].
      * rewrite E1. rewrite (proj2 (Z.ltb_lt _ _)) by lia.
        now rewrite orb_true_r.
      * assert (e = il - 52) by lia. specialize (M1 H0).
        rewrite (proj2 (Z.ltb_lt _ _)), (proj2 (Z.leb_le (-1074) e)),
          (proj2 (Z.leb_le e 971)), (proj2 (Z.leb_le (2 ^ 52) _)) by lia.
        reflexivity.
Qed.

(** A representable value rounds to itself. *)
Lemma round_pos_exact (neg : bool) (p q : Z) (m : positive) (e : Z) :
  0 < p -> 0 < q -> valid_number (Finite neg m e) = true -> is_ratio p q m e ->
  round_pos neg p q = Finite neg m e.
Proof.
  intros Hp Hq V R. unfold is_ratio in R.
  cbn [valid_number] in V. apply andb_true_iff in V as [V V4].
  apply andb_true_iff in V as [V V3]. apply andb_true_iff in V as [V1 V2].
  apply Z.ltb_lt in V1. apply Z.leb_le in V2, V3.
  pose proof (scaled_den_pos q e Hq) as Hd.
  assert (Hm : 0 < Z.pos m) by lia.
  pose proof (Z.log2_spec _ Hm) as [L1 L2]. pose proof (Z.log2_nonneg (Z.pos m)) as L0.
  assert (IL : ilog2_ratio p q = e + Z.log2 (Z.pos m)).
  { apply ilog2_ratio_unique; try assumption.
    - rewrite scaled_ge by lia. apply Z.leb_le. rewrite R.
      pose proof (pow2_gt0 _ L0). nia.
    - rewrite <- Z.add_assoc, scaled_ge by lia. apply Z.leb_gt. rewrite R.
      rewrite Z.add_1_r. nia. }
  assert (L53 : Z.log2 (Z.pos m) <= 52).
  { apply Z.lt_succ_r. apply Z.log2_lt_pow2; lia. }
  assert (E : Z.max (-1074) (ilog2_ratio p q - 52) = e).
  { rewrite IL. apply orb_true_iff in V4 as [V4|V4].
    - apply Z.leb_le in V4.
      assert (52 <= Z.log2 (Z.pos m)) by (apply Z.log2_le_pow2; lia). lia.
    - apply Z.eqb_eq in V4. lia. }
  unfold round_pos. rewrite E. fold (scaled_num p e) (scaled_den q e). rewrite R.
  rewrite Z.div_mul, Z.mod_mul by lia.
  rewrite round_half_even_exact by exact Hd.
  destruct (Z.eqb_spec (Z.pos m) (2 ^ 53)); [lia|].
  destruct (Z.ltb_spec 971 e); [lia|reflexivity].
Qed.

Lemma pow10_gt0 (x : Z) : 0 <= x -> 0 < 10 ^ x.
Proof. intro. apply Z.pow_pos_nonneg; lia. Qed.

Lemma round_decimal_valid (neg : bool) (d e10 : Z) :
  0 <= d -> valid_number (round_decimal neg d e10) = true.
Proof.
  intro H. unfold round_decimal. destruct (Z.eqb_spec d 0); [reflexivity|].
  destruct (Z.leb_spec 0 e10).
  - apply round_pos_valid; [|lia]. pose proof (pow10_gt0 e10). nia.
  - apply round_pos_valid; [lia|]. apply pow10_gt0. lia.
Qed.

Lemma round_pos_sign (neg : bool) (p q : Z) (m : positive) (e : Z) :
  round_pos false p q = Finite false m e -> round_pos neg p q = Finite neg m e.
Proof.
  unfold round_pos.
  destruct (if _ =? 2 ^ 53 then _ else _) as [m0 e0].
  destruct m0; try discriminate. destruct (971 <? e0); [discriminate|].
  now intros [= -> ->].
Qed.

Lemma round_decimal_sign (neg : bool) (d e10 : Z) (m : positive) (e : Z) :
  round_decimal false d e10 = Finite false m e -> round_decimal neg d e10 = Finite neg m e.
Proof.
  unfold round_decimal. destruct (d =? 0); [discriminate|].
  destruct (0 <=? e10); apply round_pos_sign.
Qed.

(** ** The digits of Number::toString *)

Lemma ndigits_fuel_spec (fuel : nat) (y : Z) :
  0 < y < 2 ^ Z.of_nat fuel ->
  1 <= ndigits_fuel fuel y /\ 10 ^ (ndigits_fuel fuel y - 1) <= y < 10 ^ ndigits_fuel fuel y.
Proof.
  revert y; induction fuel as [|f IH]; intros y H; [simpl in H; lia|].
  cbn [ndigits_fuel]. destruct (Z.leb_spec y 0); [lia|].
  destruct (Z_lt_dec y 10) as [Hs|Hb].
  - rewrite Z.div_small by lia.
    replace (ndigits_fuel f 0) with 0 by (destruct f; reflexivity).
    simpl. lia.
  - rewrite Nat2Z.inj_succ, Z.pow_succ_r in H by lia.
    assert (Hd : 0 < y / 10 < 2 ^ Z.of_nat f).
    { split; [apply Z.div_str_pos; lia|apply Z.div_lt_upper_bound; lia]. }
    destruct (IH _ Hd) as (N1 & N2 & N3).
    set (n := ndigits_fuel f (y / 10)) in *.
    replace (1 + n - 1) with (Z.succ (n - 1)) by lia.
    replace (1 + n) with (Z.succ n) at 2 by lia. rewrite !Z.pow_succ_r by lia.
    pose proof (Z.div_mod y 10 ltac:(lia)). pose proof (Z.mod_pos_bound y 10 ltac:(lia)).
    lia.
Qed.

Lemma ndigits_spec (y : Z) :
  0 < y -> 1 <= ndigits y /\ 10 ^ (ndigits y - 1) <= y < 10 ^ ndigits y.
Proof.
  intro H. apply ndigits_fuel_spec. split; [exact H|]. apply log2_bound. lia.
Qed.

Lemma dec_den_pos (q n k : Z) : 0 < q -> 0 < dec_den q n k.
Proof.
  intro H. unfold dec_den. destruct (Z.leb_spec 0 (k - n)); [exact H|].
  pose proof (pow10_gt0 (n - k)). nia.
Qed.

Lemma pow10_split (a b : Z) : 0 <= a -> 0 <= b -> 10 ^ (a + b) = 10 ^ a * 10 ^ b.
Proof. intros. now apply Z.pow_add_r. Qed.

(** [p / q] scaled to [k] digits lies in [[10^(k-1), 10^k)]. *)
Lemma dec_range (p q k : Z) :
  0 < p -> 0 < q -> 1 <= k ->
  let n := decimal_exponent p q in
  10 ^ (k - 1) * dec_den q n k <= dec_num p n k < 10 ^ k * dec_den q n k.
Proof.
  intros Hp Hq Hk. unfold decimal_exponent.
  destruct (Z.leb_spec q p) as [Hqp|Hpq]; cbv zeta.
  - assert (Hy : 0 < p / q) by (apply Z.div_str_pos; lia).
    destruct (ndigits_spec _ Hy) as (N1 & N2 & N3).
    set (n := ndigits (p / q)) in *.
    assert (A1 : q * 10 ^ (n - 1) <= p).
    { pose proof (Z.mul_div_le p q Hq). nia. }
    assert (A2 : p < q * 10 ^ n).
    { pose proof (Z.div_mod p q ltac:(lia)). pose proof (Z.mod_pos_bound p q Hq). nia. }
    unfold dec_num, dec_den. destruct (Z.leb_spec 0 (k - n)).
    + assert (E1 : 10 ^ (k - 1) = 10 ^ (n - 1) * 10 ^ (k - n))
        by (rewrite <- pow10_split by lia; f_equal; lia).
      assert (E2 : 10 ^ k = 10 ^ n * 10 ^ (k - n))
        by (rewrite <- pow10_split by lia; f_equal; lia).
      rewrite E1, E2. pose proof (pow10_gt0 (k - n) ltac:(lia)).
      generalize dependent (10 ^ (k - n)). generalize dependent (10 ^ (n - 1)).
      generalize dependent (10 ^ n). intros; nia.
    + assert (E1 : 10 ^ (n - 1) = 10 ^ (k - 1) * 10 ^ (n - k))
        by (rewrite <- pow10_split by lia; f_equal; lia).
      assert (E2 : 10 ^ n = 10 ^ k * 10 ^ (n - k))
        by (rewrite <- pow10_split by lia; f_equal; lia).
      rewrite E1 in A1. rewrite E2 in A2. lia.
  - set (c := (q + p - 1) / p).
    assert (C1 : (c - 1) * p < q).
    { pose proof (Z.mul_div_le (q + p - 1) p Hp) as H. fold c in H. nia. }
    assert (C2 : q <= c * p).
    { pose proof (Z.div_mod (q + p - 1) p ltac:(lia)) as H.
      pose proof (Z.mod_pos_bound (q + p - 1) p Hp). fold c in H. nia. }
    assert (Hy : 0 < c - 1) by nia.
    destruct (ndigits_spec _ Hy) as (N1 & N2 & N3).
    set (j := ndigits (c - 1)) in *.
    unfold dec_num, dec_den. destruct (Z.leb_spec 0 (k - (1 - j))); [|lia].
    assert (E1 : 10 ^ (k - (1 - j)) = 10 ^ (k - 1) * (10 * 10 ^ (j - 1))).
    { rewrite <- (Z.pow_succ_r 10 (j - 1)), <- pow10_split by lia. f_equal. lia. }
    assert (E2 : 10 ^ k = 10 * 10 ^ (k - 1))
      by (rewrite <- Z.pow_succ_r by lia; f_equal; lia).
    assert (E3 : 10 ^ j = 10 * 10 ^ (j - 1))
      by (rewrite <- Z.pow_succ_r by lia; f_equal; lia).
    rewrite E1, E2. rewrite E3 in N3.
    pose proof (pow10_gt0 (k - 1) ltac:(lia)). pose proof (pow10_gt0 (j - 1) ltac:(lia)).
    generalize dependent (10 ^ (k - 1)). generalize dependent (10 ^ (j - 1)).
    intros; split; nia.
Qed.

Lemma candidates_digits (p q k s n' : Z) :
  0 < p -> 0 < q -> 1 <= k ->
  In (s, n') (candidates p q (decimal_exponent p q) k) ->
  10 ^ (k - 1) <= s < 10 ^ k.
Proof.
  intros Hp Hq Hk Hin. pose proof (dec_range p q k Hp Hq Hk) as R. cbv zeta in R.
  set (n := decimal_exponent p q) in *.
  pose proof (dec_den_pos q n k Hq) as D.
  assert (L : 10 ^ (k - 1) <= dec_num p n k / dec_den q n k < 10 ^ k).
  { split; [apply Z.div_le_lower_bound; lia|apply Z.div_lt_upper_bound; lia]. }
  assert (P : 10 ^ (k - 1) < 10 ^ k) by (apply Z.pow_lt_mono_r; lia).
  unfold candidates in Hin. cbv zeta in Hin.
  set (lo := dec_num p n k / dec_den q n k) in *.
  assert (H : (s, n') = (lo, n)
              \/ (s, n') = (if lo + 1 =? 10 ^ k then (10 ^ (k - 1), n + 1) else (lo + 1, n))).
  { destruct (_ mod _ =? 0); [|destruct (_ =? lo)]; simpl in Hin; intuition auto. }
  destruct H as [H|H].
  - injection H as -> _. exact L.
  - destruct (Z.eqb_spec (lo + 1) (10 ^ k)); injection H as -> _; lia.
Qed.

Lemma shortest_from_found (fuel : nat) (x : Number) (p q n k k1 : Z) :
  k <= k1 < k + Z.of_nat fuel ->
  find (rounds_to x k1) (candidates p q n k1) <> None ->
  exists s n' k',
    shortest_from fuel x p q n k = Some (s, n', k')
    /\ k <= k'
    /\ In (s, n') (candidates p q n k')
    /\ rounds_to x k' (s, n') = true.
Proof.
  revert k; induction fuel as [|f IH]; intros k Hk Hf; [lia|].
  cbn [shortest_from].
  destruct (find (rounds_to x k) (candidates p q n k)) as [[s n']|] eqn:E.
  - apply find_some in E as [E1 E2]. exists s, n', k. repeat split; auto. lia.
  - destruct (Z.eq_dec k k1) as [->|Hne]; [congruence|].
    destruct (IH (k + 1)) as (s & n' & k' & S & Hk' & R); [lia|exact Hf|].
    exists s, n', k'. repeat split; try tauto. lia.
Qed.

Lemma pow10_2_5 (a : Z) : 0 <= a -> 10 ^ a = 2 ^ a * 5 ^ a.
Proof. intro. now rewrite <- Z.pow_mul_l. Qed.

(** The exact decimal of [m * 2^e] is found within the bound of the search. *)
Lemma exact_candidate (m : positive) (e : Z) :
  valid_number (Finite false m e) = true ->
  let p := if 0 <=? e then Z.pos m * 2 ^ e else Z.pos m in
  let q := if 0 <=? e then 1 else 2 ^ (- e) in
  let n := decimal_exponent p q in
  let k := n + Z.max 0 (- e) in
  0 < p /\ 0 < q /\ 1 <= k
  /\ find (rounds_to (Finite false m e) k) (candidates p q n k) <> None.
Proof.
  intros V p q n k.
  assert (Hp : 0 < p).
  { unfold p. destruct (Z.leb_spec 0 e); [|lia]. pose proof (pow2_gt0 e). nia. }
  assert (Hq : 0 < q).
  { unfold q. destruct (Z.leb_spec 0 e); [lia|]. apply pow2_gt0. lia. }
  assert (Hk : 1 <= k).
  { destruct (Z_lt_dec k 1) as [Hlt|]; [exfalso|lia].
    pose proof (dec_range p q 1 Hp Hq ltac:(lia)) as R. cbv zeta in R. fold n in R.
    unfold dec_num, dec_den in R. change (10 ^ (1 - 1)) with 1 in R.
    destruct (Z.leb_spec 0 e) as [He|He].
    - unfold k in Hlt. rewrite Z.max_l in Hlt by lia.
      destruct (Z.leb_spec 0 (1 - n)); [|lia].
      unfold p, q in R. destruct (Z.leb_spec 0 e); [|lia].
      assert (n <= 0) by lia.
      assert (10 <= 10 ^ (1 - n)).
      { change 10 with (10 ^ 1) at 1. apply Z.pow_le_mono_r; lia. }
      pose proof (pow2_gt0 e He). nia.
    - unfold k in Hlt. rewrite Z.max_r in Hlt by lia.
      destruct (Z.leb_spec 0 (1 - n)); [|lia].
      unfold p, q in R. destruct (Z.leb_spec 0 e); [lia|].
      assert (10 * 10 ^ (- e) <= 10 ^ (1 - n)).
      { rewrite <- Z.pow_succ_r by lia. apply Z.pow_le_mono_r; lia. }
      assert (2 ^ (- e) <= 10 ^ (- e)) by (apply Z.pow_le_mono_l; lia).
      pose proof (pow2_gt0 (- e) ltac:(lia)). nia. }
  repeat split; try assumption.
  assert (X : exists lo, dec_num p n k = lo * dec_den q n k
                         /\ 0 < lo
                         /\ round_decimal false lo (n - k) = Finite false m e).
  { unfold dec_num, dec_den. destruct (Z.leb_spec 0 e) as [He|He].
    - assert (K : k = n) by (unfold k; lia). rewrite K, Z.sub_diag, Z.leb_refl.
      exists p. unfold q. destruct (Z.leb_spec 0 e); [|lia].
      change (10 ^ 0) with 1. split; [lia|]. split; [exact Hp|].
      unfold round_decimal. destruct (Z.eqb_spec p 0); [lia|]. rewrite Z.leb_refl.
      change (10 ^ 0) with 1. apply round_pos_exact; [lia|lia|exact V|].
      unfold is_ratio, scaled_num, scaled_den, p.
      destruct (Z.leb_spec 0 e); lia.
    - assert (K : k - n = - e) by (unfold k; lia). rewrite K.
      destruct (Z.leb_spec 0 (- e)); [|lia].
      exists (Z.pos m * 5 ^ (- e)). unfold p, q. destruct (Z.leb_spec 0 e); [lia|].
      pose proof (Z.pow_pos_nonneg 5 (- e) ltac:(lia) ltac:(lia)).
      split; [rewrite pow10_2_5 by lia; ring|]. split; [nia|].
      unfold round_decimal. destruct (Z.eqb_spec (Z.pos m * 5 ^ (- e)) 0); [nia|].
      replace (n - k) with e by lia. destruct (Z.leb_spec 0 e); [lia|].
      apply round_pos_exact; [nia|apply pow10_gt0; lia|exact V|].
      unfold is_ratio, scaled_num, scaled_den.
      destruct (Z.leb_spec 0 e); [lia|]. rewrite pow10_2_5 by lia. ring. }
  destruct X as (lo & E & Hlo & R).
  pose proof (dec_den_pos q n k Hq) as D.
  unfold candidates. cbv zeta. rewrite E, Z.mod_mul, Z.div_mul by lia. cbn [Z.eqb find].
  unfold rounds_to at 1. rewrite R, Pos.eqb_refl, Z.eqb_refl. discriminate.
Qed.

Lemma rounds_to_true (m : positive) (e k s n : Z) :
  rounds_to (Finite false m e) k (s, n) = true ->
  round_decimal false s (n - k) = Finite false m e.
Proof.
  unfold rounds_to.
  destruct (round_decimal false s (n - k)) as [| | |neg m' e'] eqn:R; try discriminate.
  intro H. apply andb_true_iff in H as [H1 H2].
  apply Pos.eqb_eq in H1. apply Z.eqb_eq in H2. subst.
  assert (neg = false); [|now subst].
  unfold round_decimal, round_pos in R.
  destruct (s =? 0); [discriminate|].
  destruct (0 <=? n - k);
    destruct (if _ =? 2 ^ 53 then _ else _) as [m0 e0];
    destruct m0; try discriminate; destruct (971 <? e0); try discriminate;
    now injection R.
Qed.

(** Number::toString finds its digits: [k] of them, [s] as an integer, with
    the Number value of [s * 10^(n-k)] the number itself. *)
Lemma shortest_decimal_spec (m : positive) (e : Z) :
  valid_number (Finite false m e) = true ->
  exists s n k,
    shortest_decimal m e = Some (s, n, k)
    /\ 1 <= k
    /\ 10 ^ (k - 1) <= s < 10 ^ k
    /\ round_decimal false s (n - k) = Finite false m e.
Proof.
  intro V. destruct (exact_candidate m e V) as (Hp & Hq & Hk & F).
  unfold shortest_decimal. cbv zeta in *.
  set (p := if 0 <=? e then Z.pos m * 2 ^ e else Z.pos m) in *.
  set (q := if 0 <=? e then 1 else 2 ^ (- e)) in *.
  set (n := decimal_exponent p q) in *.
  destruct (shortest_from_found (Z.to_nat (n + Z.max 0 (- e))) (Finite false m e)
              p q n 1 (n + Z.max 0 (- e)) ltac:(lia) F)
    as (s & n' & k' & S & Hk' & Hin & R).
  exists s, n', k'. split; [exact S|]. split; [exact Hk'|].
  split; [now apply (candidates_digits p q k' s n')|]. now apply rounds_to_true.
Qed.

(** ** Reading back the text of a number *)

Lemma take_digits_app (ds rest : jsstring) :
  forallb is_digit ds = true -> no_digit_head rest = true ->
  take_digits (ds ++ rest) = (ds, rest).
Proof.
  intros D R. induction ds as [|c ds IH]; simpl.
  - destruct rest as [|c r]; [reflexivity|]. simpl in *.
    apply negb_true_iff in R. now rewrite R.
  - simpl in D. apply andb_true_iff in D as [-> D]. now rewrite IH.
Qed.

Lemma digits_value_app_pow (a b : list Z) :
  digits_value (a ++ b) = digits_value a * 10 ^ Z.of_nat (List.length b) + digits_value b.
Proof.
  induction b as [|d b IH] using rev_ind.
  - rewrite app_nil_r. unfold digits_value at 3. simpl. lia.
  - rewrite app_assoc, !digits_value_snoc, IH, length_app, Nat2Z.inj_add.
    simpl List.length. rewrite Z.pow_add_r by lia. change (10 ^ Z.of_nat 1) with 10. ring.
Qed.

Lemma chars_value_app (a b : jsstring) :
  chars_value (a ++ b) = chars_value a * 10 ^ Z.of_nat (List.length b) + chars_value b.
Proof.
  unfold chars_value. now rewrite map_app, digits_value_app_pow, length_map.
Qed.

Lemma chars_value_zeros (n : Z) : chars_value (zeros n) = 0.
Proof.
  unfold zeros. induction (Z.to_nat n) as [|k IH]; [reflexivity|].
  change (repeat 48 (S k)) with ([48] ++ repeat 48 k).
  rewrite chars_value_app, IH. reflexivity.
Qed.

Lemma zeros_length (n : Z) : 0 <= n -> Z.of_nat (List.length (zeros n)) = n.
Proof. intro. unfold zeros. rewrite repeat_length. lia. Qed.

Lemma zeros_digits (n : Z) : forallb is_digit (zeros n) = true.
Proof. unfold zeros. induction (Z.to_nat n); simpl; auto. Qed.

Lemma to_digits_length (s k : Z) :
  0 <= s -> 1 <= k -> 10 ^ (k - 1) <= s < 10 ^ k ->
  Z.of_nat (List.length (to_digits s)) = k.
Proof.
  intro Hs. revert k. pattern s. revert s Hs. apply decimal_induction.
  - intros n Hn k Hk R. rewrite to_digits_small by lia. simpl.
    destruct (Z.eq_dec k 1) as [->|]; [reflexivity|exfalso].
    assert (10 ^ 1 <= 10 ^ (k - 1)) by (apply Z.pow_le_mono_r; lia).
    change (10 ^ 1) with 10 in H. lia.
  - intros n Hn IH k Hk R. rewrite to_digits_step, length_app by lia. simpl List.length.
    destruct (Z.eq_dec k 1) as [->|Hk1]; [simpl in R; lia|].
    rewrite Nat2Z.inj_add, (IH (k - 1)); [simpl; lia|lia|].
    assert (E : 10 ^ k = 10 * 10 ^ (k - 1))
      by (rewrite <- Z.pow_succ_r by lia; f_equal; lia).
    assert (E' : 10 ^ (k - 1) = 10 * 10 ^ (k - 1 - 1))
      by (rewrite <- Z.pow_succ_r by lia; f_equal; lia).
    split.
    + apply Z.div_le_lower_bound; lia.
    + apply Z.div_lt_upper_bound; lia.
Qed.

(** The digits of a positive integer as characters. *)
Lemma decimal_positive (s : Z) :
  0 < s ->
  exists c rest,
    decimal s = c :: rest
    /\ is_digit c = true /\ (c =? 48) = false /\ (c =? 45) = false
    /\ forallb is_digit rest = true.
Proof.
  intro H. pose proof (decimal_is_digits s ltac:(lia)) as D.
  destruct (to_digits_head s ltac:(lia)) as (d & r & E & Hd).
  pose proof (to_digits_range s ltac:(lia)) as R. rewrite E in R.
  inversion R as [|? ? Rd _]; subst.
  unfold decimal in *. rewrite E in *. cbn [map forallb] in *.
  apply andb_true_iff in D as [D1 D2].
  exists (digit_char d), (map digit_char r). repeat split; auto.
  - apply Z.eqb_neq. unfold digit_char. intro. destruct (Hd ltac:(lia)). lia.
  - apply Z.eqb_neq. unfold digit_char. lia.
Qed.

Lemma parse_frac_part_ok (fp rest : jsstring) :
  forallb is_digit fp = true -> no_digit_head rest = true ->
  (fp = [] -> match rest with c :: _ => (c =? 46) = false | [] => True end) ->
  parse_frac_part (frac_text fp ++ rest) = Some (fp, rest).
Proof.
  intros D R H. destruct fp as [|c fp].
  - simpl. destruct rest as [|c r]; [reflexivity|]. simpl. now rewrite (H eq_refl).
  - cbn [frac_text app parse_frac_part]. rewrite Z.eqb_refl.
    change (c :: fp ++ rest) with ((c :: fp) ++ rest). now rewrite take_digits_app.
Qed.

Lemma parse_exp_digits_ok (neg : bool) (x : Z) (rest : jsstring) :
  0 <= x -> no_digit_head rest = true ->
  parse_exp_digits neg (decimal x ++ rest) = Some (if neg then - x else x, rest).
Proof.
  intros Hx R. unfold parse_exp_digits.
  rewrite take_digits_app by (auto using decimal_is_digits).
  rewrite chars_value_decimal by exact Hx.
  destruct (to_digits_head x Hx) as (d & r & E & _).
  unfold decimal. rewrite E. reflexivity.
Qed.

Lemma parse_exp_part_none (rest : jsstring) :
  number_end rest = true -> parse_exp_part rest = Some (0, rest).
Proof.
  destruct rest as [|c r]; [reflexivity|]. simpl. intro H.
  apply negb_true_iff in H. apply orb_false_iff in H as [H H3].
  apply orb_false_iff in H as [H H2]. now rewrite H2, H3.
Qed.

Lemma parse_exp_part_ok (x : Z) (rest : jsstring) :
  x <> 0 -> no_digit_head rest = true ->
  parse_exp_part ([101] ++ (if 0 <? x then [43] else [45]) ++ decimal (Z.abs x) ++ rest)
  = Some (x, rest).
Proof.
  intros Hx R. cbn [app parse_exp_part]. rewrite Z.eqb_refl. cbn [orb].
  destruct (Z.ltb_spec 0 x); cbn [app]; rewrite ?Z.eqb_refl.
  - change (43 =? 43) with true. cbv iota.
    rewrite parse_exp_digits_ok by (auto; lia). f_equal. f_equal. lia.
  - change (45 =? 43) with false. change (45 =? 45) with true. cbv iota.
    rewrite parse_exp_digits_ok by (auto; lia). f_equal. f_equal. lia.
Qed.

Lemma forallb_firstn {A : Type} (f : A -> bool) (n : nat) (l : list A) :
  forallb f l = true -> forallb f (firstn n l) = true.
Proof.
  intro H. rewrite <- (firstn_skipn n l), forallb_app in H.
  now apply andb_true_iff in H as [H _].
Qed.

Lemma forallb_skipn {A : Type} (f : A -> bool) (n : nat) (l : list A) :
  forallb f l = true -> forallb f (skipn n l) = true.
Proof.
  intro H. rewrite <- (firstn_skipn n l), forallb_app in H.
  now apply andb_true_iff in H as [_ H].
Qed.

Lemma parse_number_pieces (neg : bool) (ip fp ex_text rest : jsstring) (ex : Z) :
  (ip = [48]
   \/ exists c tl, ip = c :: tl /\ is_digit c = true /\ (c =? 48) = false
                   /\ forallb is_digit tl = true
                   /\ no_digit_head (frac_text fp ++ ex_text ++ rest) = true) ->
  forallb is_digit fp = true ->
  no_digit_head (ex_text ++ rest) = true ->
  (fp = [] -> match ex_text ++ rest with c :: _ => (c =? 46) = false | [] => True end) ->
  parse_exp_part (ex_text ++ rest) = Some (ex, rest) ->
  parse_number ((if neg then [45] else []) ++ ip ++ frac_text fp ++ ex_text ++ rest)
  = Some (round_decimal neg (chars_value (ip ++ fp)) (ex - Z.of_nat (List.length fp)), rest).
Proof.
  intros Hip Hfp Hnd H46 Hex.
  assert (I : parse_int_part (ip ++ frac_text fp ++ ex_text ++ rest)
              = Some (ip, frac_text fp ++ ex_text ++ rest)
              /\ exists c tl, ip = c :: tl /\ (c =? 45) = false).
  { destruct Hip as [->|(c & tl & -> & D & Z48 & Dt & N)].
    - split; [reflexivity|]. now exists 48, [].
    - split.
      + cbn [app parse_int_part]. rewrite Z48, D. now rewrite take_digits_app.
      + exists c, tl. split; [reflexivity|]. unfold is_digit in D. lia. }
  destruct I as (I & c & tl & -> & C45).
  assert (S : parse_sign ((if neg then [45] else []) ++ (c :: tl) ++ frac_text fp ++ ex_text ++ rest)
              = (neg, (c :: tl) ++ frac_text fp ++ ex_text ++ rest)).
  { destruct neg; cbn [app parse_sign]; [reflexivity|]. now rewrite C45. }
  unfold parse_number. rewrite S. cbv beta iota.
  rewrite I, parse_frac_part_ok, Hex by assumption. reflexivity.
Qed.

Lemma round_decimal_shift (neg : bool) (s a : Z) :
  0 < s -> 0 <= a -> round_decimal neg (s * 10 ^ a) 0 = round_decimal neg s a.
Proof.
  intros Hs Ha. unfold round_decimal. pose proof (pow10_gt0 a Ha).
  destruct (Z.eqb_spec (s * 10 ^ a) 0); [nia|]. destruct (Z.eqb_spec s 0); [lia|].
  rewrite Z.leb_refl. destruct (Z.leb_spec 0 a); [|lia].
  change (10 ^ 0) with 1. now rewrite Z.mul_1_r.
Qed.

Lemma number_end_heads (rest : jsstring) :
  number_end rest = true ->
  no_digit_head rest = true
  /\ match rest with c :: _ => (c =? 46) = false | [] => True end.
Proof.
  destruct rest as [|c r]; [auto|]. simpl. intro H.
  apply negb_true_iff in H. apply orb_false_iff in H as [H H3].
  apply orb_false_iff in H as [H H2]. apply orb_false_iff in H as [H0 H1].
  now rewrite H0, H1.
Qed.

Lemma parse_number_text (neg : bool) (ip fp ex_text rest text : jsstring) (ex : Z) (x : Number) :
  text = ip ++ frac_text fp ++ ex_text ++ rest ->
  x = round_decimal neg (chars_value (ip ++ fp)) (ex - Z.of_nat (List.length fp)) ->
  (ip = [48]
   \/ exists c tl, ip = c :: tl /\ is_digit c = true /\ (c =? 48) = false
                   /\ forallb is_digit tl = true
                   /\ no_digit_head (frac_text fp ++ ex_text ++ rest) = true) ->
  forallb is_digit fp = true ->
  no_digit_head (ex_text ++ rest) = true ->
  (fp = [] -> match ex_text ++ rest with c :: _ => (c =? 46) = false | [] => True end) ->
  parse_exp_part (ex_text ++ rest) = Some (ex, rest) ->
  parse_number ((if neg then [45] else []) ++ text) = Some (x, rest).
Proof. intros -> ->. apply parse_number_pieces. Qed.

(** The text Number::toString makes of [s * 10^(n-k)] reads back as the
    Number value of that decimal. *)
Lemma parse_number_format (neg : bool) (s n k : Z) (rest : jsstring) :
  1 <= k -> 10 ^ (k - 1) <= s < 10 ^ k -> number_end rest = true ->
  parse_number ((if neg then [45] else []) ++ format_decimal s n k ++ rest)
  = Some (round_decimal neg s (n - k), rest).
Proof.
  intros Hk Hs E.
  assert (S0 : 0 < s) by (pose proof (pow10_gt0 (k - 1)); lia).
  destruct (decimal_positive s S0) as (c & tl & Ds & Dc & C48 & C45 & Dtl).
  assert (Len : Z.of_nat (List.length (decimal s)) = k).
  { unfold decimal. rewrite length_map. apply to_digits_length; lia. }
  assert (V : chars_value (decimal s) = s) by (apply chars_value_decimal; lia).
  assert (Dd : forallb is_digit (decimal s) = true) by (apply decimal_is_digits; lia).
  destruct (number_end_heads rest E) as [Nd N46].
  pose proof (parse_exp_part_none rest E) as Ex0.
  unfold format_decimal. cbv zeta.
  destruct ((k <=? n) && (n <=? 21)) eqn:C1; [|destruct ((0 <? n) && (n <=? 21)) eqn:C2;
    [|destruct ((-6 <? n) && (n <=? 0)) eqn:C3]].
  - (* digits and zeros *)
    apply andb_true_iff in C1 as [C1 _]. apply Z.leb_le in C1.
    apply (parse_number_text neg (decimal s ++ zeros (n - k)) [] [] rest _ 0); auto.
    + rewrite app_nil_r, chars_value_app, V, chars_value_zeros, zeros_length, Z.add_0_r by lia.
      now rewrite round_decimal_shift by lia.
    + right. exists c, (tl ++ zeros (n - k)). rewrite Ds. repeat split; auto.
      rewrite forallb_app, Dtl. apply zeros_digits.
  - (* a point inside the digits *)
    apply andb_true_iff in C2 as [C2 C2']. apply Z.ltb_lt in C2. apply Z.leb_le in C2'.
    assert (Hnk : n < k).
    { apply andb_false_iff in C1 as [C1|C1]; apply Z.leb_gt in C1; lia. }
    assert (F : exists f0 ftl, skipn (Z.to_nat n) (decimal s) = f0 :: ftl).
    { destruct (skipn (Z.to_nat n) (decimal s)) eqn:Sk; [|eauto].
      apply (f_equal (@List.length Z)) in Sk. rewrite length_skipn in Sk.
      cbn [List.length] in Sk. lia. }
    destruct F as (f0 & ftl & F).
    apply (parse_number_text neg (firstn (Z.to_nat n) (decimal s))
             (skipn (Z.to_nat n) (decimal s)) [] rest _ 0); auto.
    + rewrite F. cbn [frac_text app]. now rewrite <- app_assoc.
    + rewrite firstn_skipn, V, length_skipn.
      assert (X : 0 - Z.of_nat (List.length (decimal s) - Z.to_nat n) = n - k) by lia.
      now rewrite X.
    + right. exists c, (firstn (Z.to_nat n - 1) tl). rewrite Ds.
      destruct (Z.to_nat n) as [|n'] eqn:En; [lia|]. cbn [firstn].
      rewrite Nat.sub_succ, Nat.sub_0_r. repeat split; auto.
      * now apply forallb_firstn.
      * rewrite <- Ds, F. reflexivity.
    + now apply forallb_skipn.
  - (* zero, a point, zeros and the digits *)
    apply andb_true_iff in C3 as [C3 C3']. apply Z.ltb_lt in C3. apply Z.leb_le in C3'.
    assert (FT : frac_text (zeros (- n) ++ decimal s) = [46] ++ zeros (- n) ++ decimal s).
    { rewrite Ds. destruct (zeros (- n)); reflexivity. }
    apply (parse_number_text neg [48] (zeros (- n) ++ decimal s) [] rest _ 0); auto.
    + rewrite FT. cbn [app]. now rewrite <- !app_assoc.
    + rewrite !chars_value_app, chars_value_zeros, V, length_app, Nat2Z.inj_add,
        zeros_length, Len by lia.
      change (chars_value [48]) with 0.
      assert (X : 0 - (- n + k) = n - k) by lia. rewrite X.
      now rewrite !Z.mul_0_l, !Z.add_0_l.
    + rewrite forallb_app, Dd, zeros_digits. reflexivity.
  - (* exponent notation *)
    assert (N1 : n - 1 <> 0).
    { apply andb_false_iff in C1, C2, C3. rewrite !Z.leb_gt, !Z.ltb_ge in *. lia. }
    apply (parse_number_text neg [c] tl
             ([101] ++ (if 0 <? n - 1 then [43] else [45]) ++ decimal (Z.abs (n - 1)))
             rest _ (n - 1)); auto.
    + rewrite Ds. destruct tl; cbn [frac_text app]; rewrite <- ?app_assoc;
        cbn [app]; rewrite <- ?app_assoc; reflexivity.
    + change ([c] ++ tl) with (c :: tl). rewrite <- Ds, V.
      assert (X : n - 1 - Z.of_nat (List.length tl) = n - k).
      { rewrite Ds in Len. cbn [List.length] in Len. lia. }
      now rewrite X.
    + right. exists c, []. repeat split; auto. destruct tl; reflexivity.
    + intros _. reflexivity.
    + rewrite <- !app_assoc. apply (parse_exp_part_ok (n - 1) rest N1 Nd).
Qed.

Lemma format_decimal_head (s n k : Z) :
  0 < s -> exists c r, format_decimal s n k = c :: r /\ is_digit c = true.
Proof.
  intro S0. destruct (decimal_positive s S0) as (c & tl & Ds & Dc & _).
  unfold format_decimal. cbv zeta. rewrite Ds.
  destruct ((k <=? n) && (n <=? 21)); [cbn [app]; eauto|].
  destruct ((0 <? n) && (n <=? 21)) eqn:C2.
  - apply andb_true_iff in C2 as [C2 _]. apply Z.ltb_lt in C2.
    destruct (Z.to_nat n) eqn:En; [lia|]. cbn [firstn app]. eauto.
  - destruct ((-6 <? n) && (n <=? 0)); [cbn [app]; eauto|].
    destruct tl; cbn [app]; eauto.
Qed.

(** The text of a finite number reads back as the number, a zero without
    its sign. *)
Lemma parse_NumberToString (x : Number) (rest : jsstring) :
  valid_number x = true -> is_finite x = true -> number_end rest = true ->
  parse_number (NumberToString x ++ rest)
  = Some (match x with Zero _ => Zero false | _ => x end, rest)
  /\ exists c r, NumberToString x = c :: r /\ (is_digit c = true \/ c = 45).
Proof.
  intros V F E. destruct x as [| |z|neg m e]; try discriminate.
  - split; [|exists 48, []; split; [reflexivity|now left]].
    destruct (number_end_heads rest E) as [Nd N46].
    apply (parse_number_text false [48] [] [] rest _ 0); auto using parse_exp_part_none.
  - destruct (shortest_decimal_spec m e V) as (s & n & k & S & Hk & Hs & R).
    assert (S0 : 0 < s) by (pose proof (pow10_gt0 (k - 1)); lia).
    cbn [NumberToString]. rewrite S. split.
    + rewrite <- app_assoc, parse_number_format by assumption.
      now rewrite (round_decimal_sign neg _ _ _ _ R).
    + destruct (format_decimal_head s n k S0) as (c & r & -> & Dc).
      destruct neg; cbn [app]; eauto.
Qed.

(** ** Reading back a quoted string *)

Lemma hex_value_char (d : Z) : 0 <= d < 16 -> hex_value (hex_char d) = Some d.
Proof.
  intro H. unfold hex_value, hex_char. destruct (Z.ltb_spec d 10).
  - rewrite (proj2 (Z.leb_le 48 (48 + d))), (proj2 (Z.leb_le (48 + d) 57)) by lia.
    cbn [andb]. f_equal. lia.
  - destruct (Z.leb_spec 48 (87 + d)), (Z.leb_spec (87 + d) 57); try lia; cbn [andb].
    rewrite (proj2 (Z.leb_le 97 (87 + d))), (proj2 (Z.leb_le (87 + d) 102)) by lia.
    cbn [andb]. f_equal. lia.
Qed.

Lemma parse_UnicodeEscape (c : Z) (t : jsstring) :
  0 <= c < 65536 ->
  parse_string_body (UnicodeEscape c ++ t) = consed c (parse_string_body t).
Proof.
  intro H. unfold UnicodeEscape. cbn [app parse_string_body].
  change (92 =? 34) with false. change (92 =? 92) with true. change (117 =? 117) with true.
  cbv iota. unfold hex4.
  rewrite !hex_value_char by (apply Z.mod_pos_bound; lia).
  replace (((c / 4096 mod 16 * 16 + c / 256 mod 16) * 16 + c / 16 mod 16) * 16 + c mod 16)
    with c; [reflexivity|].
  Z.div_mod_to_equations. lia.
Qed.

Lemma parse_plain_char (c : Z) (t : jsstring) :
  (c =? 34) = false -> (c =? 92) = false -> (c <? 32) = false ->
  parse_string_body (c :: t) = consed c (parse_string_body t).
Proof. intros H1 H2 H3. cbn [parse_string_body]. now rewrite H1, H2, H3. Qed.

Lemma parse_quote_unit (c : Z) (t : jsstring) :
  0 <= c -> is_high_surrogate c = false ->
  parse_string_body (quote_unit c ++ t) = consed c (parse_string_body t).
Proof.
  intros H0 Hh. unfold quote_unit.
  destruct (Z.eqb_spec c 8) as [->|]; [reflexivity|].
  destruct (Z.eqb_spec c 9) as [->|]; [reflexivity|].
  destruct (Z.eqb_spec c 10) as [->|]; [reflexivity|].
  destruct (Z.eqb_spec c 12) as [->|]; [reflexivity|].
  destruct (Z.eqb_spec c 13) as [->|]; [reflexivity|].
  destruct (Z.eqb_spec c 34) as [->|]; [reflexivity|].
  destruct (Z.eqb_spec c 92) as [->|]; [reflexivity|].
  rewrite Hh, orb_false_r.
  destruct ((c <? 32) || is_low_surrogate c) eqn:E.
  - apply parse_UnicodeEscape. apply orb_true_iff in E as [E|E].
    + apply Z.ltb_lt in E. lia.
    + unfold is_low_surrogate in E. lia.
  - apply orb_false_iff in E as [E _]. apply parse_plain_char; auto; now apply Z.eqb_neq.
Qed.

Lemma parse_quote_body (s rest : jsstring) :
  is_key s = true -> parse_string_body (quote_body s ++ [34] ++ rest) = Some (s, rest).
Proof.
  remember (List.length s) as n eqn:Hn. revert s Hn.
  induction n as [n IH] using lt_wf_ind. intros s Hn K.
  destruct s as [|c s']; [reflexivity|].
  cbn [is_key forallb] in K. apply andb_true_iff in K as [Kc K]. apply Z.leb_le in Kc.
  cbn [quote_body]. destruct (is_high_surrogate c) eqn:Hh.
  - assert (Hc : 55296 <= c <= 56319) by (unfold is_high_surrogate in Hh; lia).
    destruct s' as [|c2 s''].
    + rewrite parse_UnicodeEscape by lia. reflexivity.
    + destruct (is_low_surrogate c2) eqn:Hl.
      * assert (Hc2 : 56320 <= c2 <= 57343) by (unfold is_low_surrogate in Hl; lia).
        cbn [app]. rewrite !parse_plain_char by (apply Z.eqb_neq || apply Z.ltb_ge; lia).
        cbn [forallb] in K. apply andb_true_iff in K as [_ K].
        rewrite (IH (List.length s'')); [reflexivity|simpl in Hn; lia|reflexivity|exact K].
      * rewrite <- app_assoc, parse_UnicodeEscape by lia.
        rewrite (IH (List.length (c2 :: s''))); [reflexivity|simpl in *; lia|reflexivity|exact K].
  - rewrite <- app_assoc, parse_quote_unit by (auto; lia).
    rewrite (IH (List.length s')); [reflexivity|simpl in Hn; lia|reflexivity|exact K].
Qed.

Lemma parse_QuoteJSONString (s rest : jsstring) :
  is_key s = true ->
  exists body,
    QuoteJSONString s ++ rest = 34 :: body /\ parse_string_body body = Some (s, rest).
Proof.
  intro K. exists (quote_body s ++ [34] ++ rest). split.
  - unfold QuoteJSONString. cbn [app]. now rewrite <- app_assoc.
  - now apply parse_quote_body.
Qed.

(** ** Reading back the text of a document *)

Lemma skip_ws_app (ws t : jsstring) :
  forallb is_ws ws = true -> skip_ws (ws ++ t) = skip_ws t.
Proof.
  induction ws as [|c ws IH]; simpl; [reflexivity|].
  intro H. apply andb_true_iff in H as [-> H]. now apply IH.
Qed.

Lemma skip_ws_head (c : Z) (t : jsstring) : is_ws c = false -> skip_ws (c :: t) = c :: t.
Proof. intro H. simpl. now rewrite H. Qed.

Lemma gap_ws (indent : jsstring) :
  forallb is_ws indent = true -> forallb is_ws (indent ++ gap) = true.
Proof. intro H. now rewrite forallb_app, H. Qed.

Lemma wrap_head (opening closing : Z) (stepback : jsstring) (partial : list jsstring) :
  exists r, wrap opening closing stepback partial = opening :: r.
Proof. unfold wrap. destruct partial; cbn [app]; eauto. Qed.

Lemma serialized_head (indent : jsstring) (v : JsValue) :
  well_formed v = true ->
  exists c r, SerializeJSONProperty indent v = c :: r /\ starts_value c.
Proof.
  intro W. destruct v as [|[]|x|s|elems|props]; cbn [SerializeJSONProperty].
  - exists 110. eexists. split; [reflexivity|now compute].
  - exists 116. eexists. split; [reflexivity|now compute].
  - exists 102. eexists. split; [reflexivity|now compute].
  - destruct (is_finite x) eqn:F.
    + destruct (parse_NumberToString x [] W F eq_refl) as (_ & c & r & -> & Hc).
      exists c, r. split; [reflexivity|].
      unfold starts_value, is_ws. destruct Hc as [Hc| ->]; [|now compute].
      unfold is_digit in Hc. repeat split; lia.
    + exists 110. eexists. split; [reflexivity|now compute].
  - exists 34. eexists. split; [reflexivity|now compute].
  - destruct (wrap_head 91 93 indent (map (SerializeJSONProperty (indent ++ gap)) elems)) as [r ->].
    exists 91, r. split; [reflexivity|now compute].
  - destruct (wrap_head 123 125 indent
                (map (fun '(k, w) => QuoteJSONString k ++ [58; 32]
                                     ++ SerializeJSONProperty (indent ++ gap) w) props)) as [r ->].
    exists 123, r. split; [reflexivity|now compute].
Qed.

Lemma has_key_mem (k : jsstring) (props : list (jsstring * JsValue)) :
  has_key k props = existsb (fun k0 => str_eqb k0 k) (map fst props).
Proof.
  induction props as [|[k0 w] props IH]; simpl; [reflexivity|]. now rewrite IH.
Qed.

Lemma keys_ordered_prefix (a b : list jsstring) :
  keys_ordered (a ++ b) = true -> keys_ordered a = true.
Proof.
  induction a as [|k a IH]; [reflexivity|]. cbn [app keys_ordered].
  intro H. apply andb_true_iff in H as [H H3]. apply andb_true_iff in H as [H1 H2].
  rewrite (IH H2), andb_true_r. apply andb_true_iff. split.
  - apply negb_true_iff. apply negb_true_iff in H1. unfold mem in *.
    rewrite existsb_app in H1. now apply orb_false_iff in H1 as [-> _].
  - destruct (array_index_of_key k); rewrite forallb_app in H3;
      now apply andb_true_iff in H3 as [-> _].
Qed.

(** A key that comes last in property order is a new property, listed last. *)
Lemma define_property_last (k : jsstring) (v : JsValue) (props : list (jsstring * JsValue)) :
  keys_ordered (map fst props ++ [k]) = true ->
  define_property k v props = props ++ [(k, v)].
Proof.
  intro H. unfold define_property.
  assert (Hk : has_key k props = false).
  { rewrite has_key_mem. induction props as [|[k0 w] props IH]; [reflexivity|].
    cbn [map fst app keys_ordered existsb] in *.
    apply andb_true_iff in H as [H _]. apply andb_true_iff in H as [H1 H2].
    rewrite (IH H2), orb_false_r. apply negb_true_iff in H1. unfold mem in H1.
    rewrite existsb_app in H1. apply orb_false_iff in H1 as [_ H1].
    simpl in H1. now rewrite orb_false_r in H1. }
  rewrite Hk. destruct (array_index_of_key k) as [i|] eqn:Ek; [|reflexivity].
  induction props as [|[k0 w] props IH]; [reflexivity|].
  cbn [map fst app keys_ordered] in H.
  apply andb_true_iff in H as [H H3]. apply andb_true_iff in H as [_ H2].
  cbn [insert_index app].
  destruct (array_index_of_key k0) as [j|]; rewrite forallb_app in H3.
  - apply andb_true_iff in H3 as [_ H3]. simpl in H3. rewrite Ek, andb_true_r in H3.
    rewrite H3. f_equal. apply IH; [exact H2|].
    simpl in Hk. now apply orb_false_iff in Hk as [_ Hk].
  - apply andb_true_iff in H3 as [_ H3]. simpl in H3. unfold is_array_index in H3.
    rewrite Ek in H3. discriminate.
Qed.

Lemma written_props_keys (props : list (jsstring * JsValue)) :
  map fst (written_props props) = map fst props.
Proof.
  unfold written_props. rewrite map_map. apply map_ext. now intros [k w].
Qed.

Lemma skip_ws_join (sep indent t : jsstring) (v : JsValue) (vs : list JsValue) :
  well_formed v = true ->
  skip_ws (join sep (map (SerializeJSONProperty indent) (v :: vs)) ++ t)
  = join sep (map (SerializeJSONProperty indent) (v :: vs)) ++ t.
Proof.
  intro W. cbn [map]. rewrite join_cons.
  destruct (serialized_head indent v W) as (c & r & -> & Hc & _).
  cbn [app]. now apply skip_ws_head.
Qed.

Lemma skip_ws_line (stepback t : jsstring) (c : Z) :
  forallb is_ws stepback = true -> is_ws c = false ->
  skip_ws ([10] ++ stepback ++ [c] ++ t) = c :: t.
Proof.
  intros Hs Hc. cbn [app]. change (skip_ws (10 :: stepback ++ c :: t))
    with (skip_ws (stepback ++ c :: t)).
  rewrite skip_ws_app by exact Hs. now apply skip_ws_head.
Qed.

Lemma parse_elements_serialized (elems : list JsValue) (indent stepback rest : jsstring) :
  elems <> [] ->
  Forall (fun e => well_formed e = true /\ reads_back e) elems ->
  forallb is_ws indent = true -> forallb is_ws stepback = true ->
  forall fuel,
    (list_sum (map (fun e => S (weight e)) elems) <= fuel)%nat ->
    parse_elements fuel
      (join ([44; 10] ++ indent) (map (SerializeJSONProperty indent) elems)
       ++ [10] ++ stepback ++ [93] ++ rest)
    = Some (map written elems, rest).
Proof.
  intros Hne Hall Hi Hs. induction elems as [|e elems IH]; [contradiction|].
  inversion Hall as [|? ? [We He] Hall']; subst. intros fuel Hf.
  destruct fuel as [|f]; [simpl in Hf; lia|]. cbn [parse_elements].
  change (S (weight e) + list_sum (map (fun e => S (weight e)) elems) <= S f)%nat in Hf.
  destruct elems as [|e2 elems'].
  - cbn [map join]. rewrite He; [|exact Hi|reflexivity|lia].
    rewrite skip_ws_line by (exact Hs || reflexivity).
    reflexivity.
  - assert (J : join ([44; 10] ++ indent) (map (SerializeJSONProperty indent) (e :: e2 :: elems'))
                = SerializeJSONProperty indent e ++ ([44; 10] ++ indent)
                  ++ join ([44; 10] ++ indent)
                       (map (SerializeJSONProperty indent) (e2 :: elems'))) by reflexivity.
    rewrite J, <- !app_assoc. rewrite He; [|exact Hi|reflexivity|lia].
    cbn [app]. rewrite skip_ws_head by reflexivity.
    change (44 =? 93) with false. change (44 =? 44) with true. cbv iota.
    change (skip_ws (10 :: indent ++ ?t)) with (skip_ws (indent ++ t)).
    rewrite skip_ws_app by exact Hi.
    inversion Hall' as [|? ? [We2 _] _]; subst.
    rewrite (skip_ws_join _ _ _ _ _ We2).
    rewrite IH; [reflexivity|discriminate|exact Hall'|lia].
Qed.

Lemma skip_ws_members (sep indent t : jsstring) (kw : jsstring * JsValue)
      (kws : list (jsstring * JsValue)) :
  skip_ws (join sep (map (member_text indent) (kw :: kws)) ++ t)
  = join sep (map (member_text indent) (kw :: kws)) ++ t.
Proof.
  cbn [map]. rewrite join_cons. destruct kw as [k w]. unfold member_text at 1 3.
  unfold QuoteJSONString. cbn [app]. now apply skip_ws_head.
Qed.

Lemma written_props_app (a b : list (jsstring * JsValue)) :
  written_props (a ++ b) = written_props a ++ written_props b.
Proof. apply map_app. Qed.

Lemma parse_members_serialized (todo done : list (jsstring * JsValue))
      (indent stepback rest : jsstring) :
  todo <> [] ->
  keys_ordered (map fst (done ++ todo)) = true ->
  Forall (fun kw => is_key (fst kw) = true /\ well_formed (snd kw) = true
                    /\ reads_back (snd kw)) todo ->
  forallb is_ws indent = true -> forallb is_ws stepback = true ->
  forall fuel,
    (list_sum (map (fun '(_, w) => S (weight w)) todo) <= fuel)%nat ->
    parse_members fuel (written_props done)
      (join ([44; 10] ++ indent) (map (member_text indent) todo)
       ++ [10] ++ stepback ++ [125] ++ rest)
    = Some (written_props (done ++ todo), rest).
Proof.
  intros Hne Hord Hall Hi Hs. revert done Hord.
  induction todo as [|[k w] todo IH]; [contradiction|].
  inversion Hall as [|? ? (Kk & Ww & Hw) Hall']; subst. cbn [fst snd] in *.
  intros done Hord fuel Hf.
  destruct fuel as [|f]; [simpl in Hf; lia|].
  change (S (weight w) + list_sum (map (fun '(_, w) => S (weight w)) todo) <= S f)%nat in Hf.
  assert (A : define_property k (written w) (written_props done)
              = written_props (done ++ [(k, w)])).
  { rewrite written_props_app. apply define_property_last.
    rewrite written_props_keys.
    apply (keys_ordered_prefix _ (map fst todo)).
    rewrite <- app_assoc. cbn [app]. now rewrite map_app in Hord. }
  assert (T : forall tail,
             (member_text indent (k, w) ++ tail)
             = 34 :: quote_body k ++ [34] ++ [58; 32] ++ SerializeJSONProperty indent w ++ tail).
  { intro tail. unfold member_text, QuoteJSONString. cbn [app].
    now rewrite <- !app_assoc. }
  assert (step : forall tail,
             number_end tail = true ->
             parse_members (S f) (written_props done) (member_text indent (k, w) ++ tail)
             = match skip_ws tail with
               | [] => None
               | d :: r4 =>
                   if d =? 125 then Some (written_props (done ++ [(k, w)]), r4)
                   else if d =? 44
                        then parse_members f (written_props (done ++ [(k, w)])) (skip_ws r4)
                        else None
               end).
  { intros tail Ht. rewrite T. cbn [parse_members]. rewrite Z.eqb_refl.
    rewrite parse_quote_body by exact Kk.
    cbn [app]. rewrite skip_ws_head by reflexivity.
    rewrite Z.eqb_refl.
    change (skip_ws (32 :: ?t)) with (skip_ws t).
    destruct (serialized_head indent w Ww) as (c & r & E & Hc & _).
    rewrite E. cbn [app]. rewrite skip_ws_head by exact Hc.
    change (c :: r ++ tail) with ((c :: r) ++ tail). rewrite <- E.
    rewrite Hw; [|exact Hi|exact Ht|lia]. now rewrite A. }
  destruct todo as [|kw2 todo'].
  - cbn [map join]. rewrite step by reflexivity.
    rewrite skip_ws_line by (exact Hs || reflexivity). reflexivity.
  - assert (J : join ([44; 10] ++ indent) (map (member_text indent) ((k, w) :: kw2 :: todo'))
                = member_text indent (k, w) ++ ([44; 10] ++ indent)
                  ++ join ([44; 10] ++ indent) (map (member_text indent) (kw2 :: todo')))
      by reflexivity.
    rewrite J, <- !app_assoc. rewrite step by reflexivity.
    cbn [app]. rewrite skip_ws_head by reflexivity.
    change (44 =? 125) with false. change (44 =? 44) with true. cbv iota.
    change (skip_ws (10 :: indent ++ ?t)) with (skip_ws (indent ++ t)).
    rewrite skip_ws_app by exact Hi. rewrite skip_ws_members.
    rewrite IH; [|discriminate|exact Hall'| |lia].
    + now rewrite <- app_assoc.
    + now rewrite <- app_assoc.
Qed.

Lemma parse_value_number (f : nat) (c : Z) (r : jsstring) :
  is_digit c = true \/ c = 45 ->
  parse_value (S f) (c :: r)
  = match parse_number (c :: r) with
    | Some (x, rest) => Some (JNumber x, rest)
    | None => None
    end.
Proof.
  intro H. cbn [parse_value].
  assert (E : (c =? 110) = false /\ (c =? 116) = false /\ (c =? 102) = false
              /\ (c =? 34) = false /\ (c =? 91) = false /\ (c =? 123) = false).
  { unfold is_digit in H. repeat split; apply Z.eqb_neq; lia. }
  destruct E as (-> & -> & -> & -> & -> & ->). reflexivity.
Qed.

Lemma wrap_nonempty (opening closing : Z) (stepback x rest : jsstring) (xs : list jsstring) :
  wrap opening closing stepback (x :: xs) ++ rest
  = opening :: 10 :: (stepback ++ gap)
    ++ (join ([44; 10] ++ (stepback ++ gap)) (x :: xs)
        ++ [10] ++ stepback ++ [closing] ++ rest).
Proof.
  unfold wrap. cbv zeta. rewrite <- !app_assoc. cbn [app]. reflexivity.
Qed.

(** The text [JSON.stringify] writes for a value reads back as the value it
    kept. *)
Lemma parse_serialized (v : JsValue) : well_formed v = true -> reads_back v.
Proof.
  induction v as [|b|x|s|elems IH|props IH] using JsValue_nested_ind;
    intros W indent rest fuel Hi Hr Hf;
    (destruct fuel as [|f]; [simpl in Hf; lia|]).
  - reflexivity.
  - destruct b; reflexivity.
  - cbn [SerializeJSONProperty]. destruct (is_finite x) eqn:F.
    + destruct (parse_NumberToString x rest W F Hr) as (P & c & r & E & Hc).
      rewrite E in *. cbn [app] in *. rewrite parse_value_number by exact Hc.
      rewrite P. destruct x; try discriminate; reflexivity.
    + destruct x; try discriminate; reflexivity.
  - cbn [SerializeJSONProperty well_formed] in *.
    destruct (parse_QuoteJSONString s rest W) as (body & -> & P).
    cbn [parse_value]. change (34 =? 110) with false. change (34 =? 116) with false.
    change (34 =? 102) with false. change (34 =? 34) with true. cbv iota.
    now rewrite P.
  - cbn [SerializeJSONProperty well_formed written weight] in *.
    destruct elems as [|e es]; [reflexivity|].
    cbn [map]. rewrite wrap_nonempty. cbn [parse_value].
    change (91 =? 110) with false. change (91 =? 116) with false.
    change (91 =? 102) with false. change (91 =? 34) with false.
    change (91 =? 91) with true. cbv iota.
    change (skip_ws (10 :: ?t)) with (skip_ws t).
    rewrite skip_ws_app by (now apply gap_ws).
    change (SerializeJSONProperty (indent ++ gap) e
            :: map (SerializeJSONProperty (indent ++ gap)) es)
      with (map (SerializeJSONProperty (indent ++ gap)) (e :: es)).
    assert (We : well_formed e = true).
    { cbn [forallb] in W. now apply andb_true_iff in W as [-> _]. }
    rewrite (skip_ws_join _ _ _ _ _ We).
    destruct (serialized_head (indent ++ gap) e We) as (c1 & r1 & E1 & _ & C93 & _).
    assert (EJ : exists rr,
               join ([44; 10] ++ indent ++ gap)
                    (map (SerializeJSONProperty (indent ++ gap)) (e :: es))
               ++ [10] ++ indent ++ [93] ++ rest = c1 :: rr).
    { cbn [map]. rewrite join_cons, E1. cbn [app]. eauto. }
    destruct EJ as [rr EJ]. rewrite EJ, C93, <- EJ.
    rewrite (parse_elements_serialized (e :: es) (indent ++ gap) indent rest);
      [reflexivity|discriminate| |now apply gap_ws|exact Hi|lia].
    rewrite Forall_forall in *. intros y Hy. rewrite forallb_forall in W.
    split; [now apply W|]. apply IH; [exact Hy|now apply W].
  - cbn [SerializeJSONProperty well_formed written weight] in *.
    apply andb_true_iff in W as [Wk W].
    destruct props as [|[k w] ps]; [reflexivity|].
    change (map (fun '(k0, w0) => QuoteJSONString k0 ++ [58; 32]
                                  ++ SerializeJSONProperty (indent ++ gap) w0)
                ((k, w) :: ps))
      with (map (member_text (indent ++ gap)) ((k, w) :: ps)).
    cbn [map]. rewrite wrap_nonempty. cbn [parse_value].
    change (123 =? 110) with false. change (123 =? 116) with false.
    change (123 =? 102) with false. change (123 =? 34) with false.
    change (123 =? 91) with false. change (123 =? 123) with true. cbv iota.
    change (skip_ws (10 :: ?t)) with (skip_ws t).
    rewrite skip_ws_app by (now apply gap_ws).
    change (member_text (indent ++ gap) (k, w) :: map (member_text (indent ++ gap)) ps)
      with (map (member_text (indent ++ gap)) ((k, w) :: ps)).
    rewrite skip_ws_members.
    assert (EJ : exists rr,
               join ([44; 10] ++ indent ++ gap) (map (member_text (indent ++ gap)) ((k, w) :: ps))
               ++ [10] ++ indent ++ [125] ++ rest = 34 :: rr).
    { cbn [map]. rewrite join_cons. unfold member_text at 1, QuoteJSONString.
      cbn [app]. eauto. }
    destruct EJ as [rr EJ]. rewrite EJ. change (34 =? 125) with false. cbv iota.
    rewrite <- EJ.
    pose proof (parse_members_serialized ((k, w) :: ps) [] (indent ++ gap) indent rest) as PM.
    cbn [app] in PM. change (written_props []) with (@nil (jsstring * JsValue)) in PM.
    rewrite PM; [reflexivity|discriminate|exact Wk| |now apply gap_ws|exact Hi|lia].
    rewrite Forall_forall in *. intros [k' w'] Hy. rewrite forallb_forall in W.
    specialize (W _ Hy). cbn beta iota in W. apply andb_true_iff in W as [W1 W2].
    cbn [fst snd]. repeat split; auto. exact (IH _ Hy W2).
Qed.

(** ** The fuel of [JSON_parse] suffices for a written text *)

Lemma join_length (sep : jsstring) (parts : list jsstring) :
  (list_sum (map (@List.length Z) parts) <= List.length (join sep parts))%nat.
Proof.
  destruct parts as [|x xs]; [simpl; lia|]. rewrite join_cons, length_app.
  change (list_sum (map (@List.length Z) (x :: xs)))
    with (List.length x + list_sum (map (@List.length Z) xs))%nat.
  apply Nat.add_le_mono_l. induction xs as [|y ys IH]; [simpl; lia|].
  change (list_sum (map (@List.length Z) (y :: ys)))
    with (List.length y + list_sum (map (@List.length Z) ys))%nat.
  cbn [flat_map]. rewrite !length_app. lia.
Qed.

Lemma wrap_length (opening closing : Z) (stepback : jsstring) (partial : list jsstring) :
  (2 + list_sum (map (@List.length Z) partial) <= List.length (wrap opening closing stepback partial))%nat.
Proof.
  destruct partial as [|x xs]; [simpl; lia|].
  unfold wrap. cbv zeta. rewrite !length_app.
  pose proof (join_length ([44; 10] ++ stepback ++ gap) (x :: xs)).
  cbn [List.length]. lia.
Qed.

Lemma list_sum_double {A : Type} (f g : A -> nat) (l : list A) :
  (forall x, In x l -> f x <= 2 * g x)%nat ->
  (list_sum (map f l) <= 2 * list_sum (map g l))%nat.
Proof.
  induction l as [|x l IH]; intro H; [simpl; lia|].
  change (list_sum (map f (x :: l))) with (f x + list_sum (map f l))%nat.
  change (list_sum (map g (x :: l))) with (g x + list_sum (map g l))%nat.
  pose proof (H x (or_introl eq_refl)).
  assert (list_sum (map f l) <= 2 * list_sum (map g l))%nat
    by (apply IH; intros; apply H; now right).
  lia.
Qed.

Lemma weight_le_length (v : JsValue) (indent : jsstring) :
  well_formed v = true ->
  (weight v + 1 <= 2 * List.length (SerializeJSONProperty indent v))%nat.
Proof.
  revert indent.
  induction v as [|b|x|s|elems IH|props IH] using JsValue_nested_ind; intros indent W.
  - simpl. lia.
  - destruct b; simpl; lia.
  - destruct (serialized_head indent (JNumber x) W) as (c & r & -> & _). simpl. lia.
  - cbn [SerializeJSONProperty]. unfold QuoteJSONString. rewrite !length_app. simpl. lia.
  - cbn [SerializeJSONProperty weight well_formed] in *.
    pose proof (wrap_length 91 93 indent (map (SerializeJSONProperty (indent ++ gap)) elems)) as L.
    rewrite map_map in L.
    pose proof (list_sum_double (fun e => S (weight e))
                  (fun e => List.length (SerializeJSONProperty (indent ++ gap) e)) elems) as D.
    rewrite forallb_forall in W. rewrite Forall_forall in IH.
    assert (forall x, In x elems ->
                      (S (weight x) <= 2 * List.length (SerializeJSONProperty (indent ++ gap) x))%nat).
    { intros e He. pose proof (IH e He (indent ++ gap) (W e He)). lia. }
    specialize (D H). lia.
  - cbn [SerializeJSONProperty weight well_formed] in *.
    apply andb_true_iff in W as [_ W].
    pose proof (wrap_length 123 125 indent
                  (map (fun '(k, w) => QuoteJSONString k ++ [58; 32]
                                       ++ SerializeJSONProperty (indent ++ gap) w) props)) as L.
    rewrite map_map in L.
    pose proof (list_sum_double (fun '(_, w) => S (weight w))
                  (fun x : jsstring * JsValue =>
                     List.length (let '(k, w) := x in
                                  QuoteJSONString k ++ [58; 32]
                                  ++ SerializeJSONProperty (indent ++ gap) w)) props) as D.
    rewrite forallb_forall in W. rewrite Forall_forall in IH.
    match type of D with ?P -> _ => assert (H : P) end.
    { intros [k w] He. pose proof (W _ He) as Wkw. cbv beta iota in Wkw.
      apply andb_true_iff in Wkw as [_ Ww].
      pose proof (IH _ He (indent ++ gap) Ww) as Hw. cbn [snd] in Hw.
      rewrite !length_app. lia. }
    specialize (D H). lia.
Qed.

(** [JSON.parse(JSON.stringify(v, null, 2))] is what the text kept of [v]. *)
Lemma parse_stringify (v : JsValue) :
  well_formed v = true -> JSON_parse (JSON_stringify v) = Some (written v).
Proof.
  intro W. unfold JSON_parse, JSON_stringify.
  destruct (serialized_head [] v W) as (c & r & E & Hc & _).
  rewrite E, skip_ws_head by exact Hc. rewrite <- E.
  pose proof (parse_serialized v W [] [] (2 * List.length (SerializeJSONProperty [] v) + 2)%nat
                eq_refl eq_refl) as P.
  rewrite app_nil_r in P. rewrite P; [reflexivity|].
  pose proof (weight_le_length v [] W). lia.
Qed.

(** ** [JSON.parse] returns well-formed values *)

Lemma str_eqb_sym (a b : jsstring) : str_eqb a b = str_eqb b a.
Proof.
  destruct (str_eqb a b) eqn:E.
  - apply str_eqb_eq in E. subst. symmetry. apply str_eqb_refl.
  - symmetry. apply str_eqb_neq. apply str_eqb_neq in E. congruence.
Qed.

Lemma replace_value_keys (k : jsstring) (v : JsValue) (props : list (jsstring * JsValue)) :
  map fst (replace_value k v props) = map fst props.
Proof.
  induction props as [|[k0 w] props IH]; [reflexivity|]. simpl.
  destruct (str_eqb k0 k); simpl; [reflexivity|now rewrite IH].
Qed.

Lemma insert_index_split (i : Z) (k : jsstring) (v : JsValue) (props : list (jsstring * JsValue)) :
  exists l1 l2, props = l1 ++ l2 /\ insert_index i k v props = l1 ++ (k, v) :: l2.
Proof.
  induction props as [|[k0 w] props (l1 & l2 & E & I)].
  - exists [], []. auto.
  - cbn [insert_index]. destruct (array_index_of_key k0) as [j|].
    + destruct (j <? i).
      * exists ((k0, w) :: l1), l2. rewrite I, E. auto.
      * exists [], ((k0, w) :: props). auto.
    + exists [], ((k0, w) :: props). auto.
Qed.

Lemma array_index_of_key_inj (a b : jsstring) (i : Z) :
  array_index_of_key a = Some i -> array_index_of_key b = Some i -> a = b.
Proof.
  unfold array_index_of_key. intros Ha Hb.
  destruct (index_of_key a) as [x|] eqn:Ea; [|discriminate].
  destruct (index_of_key b) as [y|] eqn:Eb; [|discriminate].
  destruct (x <=? 4294967294); [|discriminate]. destruct (y <=? 4294967294); [|discriminate].
  injection Ha as ->. injection Hb as ->.
  apply index_of_key_canonical in Ea as [-> _]. apply index_of_key_canonical in Eb as [-> _].
  reflexivity.
Qed.

Lemma has_key_is_mem (k : jsstring) (props : list (jsstring * JsValue)) :
  has_key k props = mem k (map fst props).
Proof.
  induction props as [|[k0 w] props IH]; [reflexivity|].
  simpl. now rewrite IH, str_eqb_sym.
Qed.

Lemma mem_insert_index (x : jsstring) (i : Z) (k : jsstring) (v : JsValue)
      (props : list (jsstring * JsValue)) :
  mem x (map fst (insert_index i k v props)) = str_eqb x k || mem x (map fst props).
Proof.
  destruct (insert_index_split i k v props) as (l1 & l2 & -> & ->).
  unfold mem. rewrite !map_app, !existsb_app. cbn [map fst existsb].
  destruct (existsb (str_eqb x) (map fst l1)), (str_eqb x k); reflexivity.
Qed.

Lemma forallb_insert_index (P : jsstring -> bool) (i : Z) (k : jsstring) (v : JsValue)
      (props : list (jsstring * JsValue)) :
  forallb P (map fst (insert_index i k v props)) = P k && forallb P (map fst props).
Proof.
  destruct (insert_index_split i k v props) as (l1 & l2 & -> & ->).
  rewrite !map_app, !forallb_app. cbn [map fst forallb].
  destruct (forallb P (map fst l1)), (P k); reflexivity.
Qed.

Lemma keys_ordered_insert (i : Z) (k : jsstring) (v : JsValue)
      (props : list (jsstring * JsValue)) :
  array_index_of_key k = Some i -> has_key k props = false ->
  keys_ordered (map fst props) = true ->
  keys_ordered (map fst (insert_index i k v props)) = true.
Proof.
  intros Ek. induction props as [|[k0 w] props IH]; intros Hk Ho; [now simpl; rewrite Ek|].
  pose proof Hk as Hm. rewrite has_key_is_mem in Hm. cbn [map fst mem existsb] in Hm.
  apply orb_false_iff in Hm as [Hkk0 Hm]. fold (mem k (map fst props)) in Hm.
  cbn [has_key] in Hk. apply orb_false_iff in Hk as [Hk0 Hk].
  cbn [map fst keys_ordered] in Ho.
  apply andb_true_iff in Ho as [Ho H3]. apply andb_true_iff in Ho as [H1 H2].
  apply negb_true_iff in H1.
  cbn [insert_index].
  destruct (array_index_of_key k0) as [j|] eqn:E0.
  - destruct (Z.ltb_spec j i) as [Hji|Hij].
    + cbn [map fst keys_ordered]. rewrite E0.
      rewrite mem_insert_index, forallb_insert_index, (IH Hk H2), H3, H1, Ek.
      rewrite str_eqb_sym, Hkk0. rewrite (proj2 (Z.ltb_lt j i) Hji). reflexivity.
    + cbn [map fst keys_ordered]. rewrite Ek, E0.
      assert (i <> j).
      { intros ->. apply str_eqb_neq in Hk0. apply Hk0.
        now apply (array_index_of_key_inj k0 k j). }
      cbn [mem existsb]. fold (mem k (map fst props)) (mem k0 (map fst props)).
      rewrite Hkk0, Hm, H1, H2. cbn [negb orb andb forallb].
      rewrite E0, (proj2 (Z.ltb_lt i j)) by lia. cbn [andb].
      rewrite H3. cbn [andb].
      apply forallb_forall. intros x Hx. rewrite forallb_forall in H3. specialize (H3 x Hx).
      destruct (array_index_of_key x); [|reflexivity].
      apply Z.ltb_lt in H3. apply Z.ltb_lt. lia.
  - cbn [map fst keys_ordered]. rewrite Ek, E0.
    cbn [mem existsb]. fold (mem k (map fst props)) (mem k0 (map fst props)).
    rewrite Hkk0, Hm, H1, H2. cbn [negb orb andb forallb].
    rewrite E0, H3. cbn [andb].
    apply forallb_forall. intros x Hx. rewrite forallb_forall in H3. specialize (H3 x Hx).
    unfold is_array_index in H3. now destruct (array_index_of_key x).
Qed.

Lemma keys_ordered_append (k : jsstring) (keys : list jsstring) :
  array_index_of_key k = None -> mem k keys = false ->
  keys_ordered keys = true -> keys_ordered (keys ++ [k]) = true.
Proof.
  intros Ek. induction keys as [|k0 keys IH]; intros Hm Ho; [now simpl; rewrite Ek|].
  cbn [mem existsb] in Hm. apply orb_false_iff in Hm as [Hkk0 Hm].
  cbn [keys_ordered] in Ho.
  apply andb_true_iff in Ho as [Ho H3]. apply andb_true_iff in Ho as [H1 H2].
  apply negb_true_iff in H1.
  cbn [app keys_ordered]. unfold mem in *. rewrite existsb_app, H1. cbn [existsb].
  rewrite str_eqb_sym, Hkk0, (IH Hm H2). cbn [orb negb andb].
  destruct (array_index_of_key k0); rewrite forallb_app, H3; cbn [forallb];
    unfold is_array_index; now rewrite Ek.
Qed.

Lemma define_property_ordered (k : jsstring) (v : JsValue) (props : list (jsstring * JsValue)) :
  keys_ordered (map fst props) = true ->
  keys_ordered (map fst (define_property k v props)) = true.
Proof.
  intro H. unfold define_property. destruct (has_key k props) eqn:Hk.
  - now rewrite replace_value_keys.
  - destruct (array_index_of_key k) as [i|] eqn:Ek.
    + now apply keys_ordered_insert.
    + rewrite map_app. apply keys_ordered_append; auto.
      now rewrite <- has_key_is_mem.
Qed.

Lemma define_property_forall (P : jsstring * JsValue -> bool) (k : jsstring) (v : JsValue)
      (props : list (jsstring * JsValue)) :
  P (k, v) = true -> forallb P props = true -> forallb P (define_property k v props) = true.
Proof.
  intros Hkv H. unfold define_property. destruct (has_key k props).
  - induction props as [|[k0 w] props IH]; [reflexivity|].
    cbn [forallb] in H. apply andb_true_iff in H as [H0 H].
    cbn [replace_value]. destruct (str_eqb k0 k) eqn:E.
    + apply str_eqb_eq in E. subst. cbn [forallb]. now rewrite Hkv, H.
    + cbn [forallb]. now rewrite H0, IH.
  - destruct (array_index_of_key k) as [i|].
    + destruct (insert_index_split i k v props) as (l1 & l2 & -> & ->).
      rewrite forallb_app in *. cbn [forallb]. rewrite Hkv.
      apply andb_true_iff in H as [-> ->]. reflexivity.
    + rewrite forallb_app, H. cbn [forallb]. now rewrite Hkv.
Qed.

Lemma take_digits_digits (t ds r : jsstring) :
  take_digits t = (ds, r) -> forallb is_digit ds = true.
Proof.
  revert ds r; induction t as [|c t IH]; intros ds r; simpl.
  - now intros [= <- <-].
  - destruct (is_digit c) eqn:D; [|now intros [= <- <-]].
    destruct (take_digits t) as [ds' r']. intros [= <- <-]. simpl.
    now rewrite D, (IH ds' r').
Qed.

Lemma chars_value_nonneg (ds : jsstring) : forallb is_digit ds = true -> 0 <= chars_value ds.
Proof.
  induction ds as [|d ds IH] using rev_ind; intro H; [now compute|].
  rewrite forallb_app in H. apply andb_true_iff in H as [H1 H2].
  unfold chars_value in *. rewrite map_app. cbn [map]. rewrite digits_value_snoc.
  cbn [forallb] in H2. unfold is_digit in H2. specialize (IH H1). lia.
Qed.

Lemma parse_number_valid (t r : jsstring) (x : Number) :
  parse_number t = Some (x, r) -> valid_number x = true.
Proof.
  unfold parse_number. destruct (parse_sign t) as [neg t1].
  destruct (parse_int_part t1) as [[ip t2]|] eqn:I; [|discriminate].
  destruct (parse_frac_part t2) as [[fp t3]|] eqn:F; [|discriminate].
  destruct (parse_exp_part t3) as [[ex t4]|]; [|discriminate].
  intros [= <- _]. apply round_decimal_valid. apply chars_value_nonneg.
  rewrite forallb_app. apply andb_true_iff. split.
  - unfold parse_int_part in I. destruct t1 as [|c t1]; [discriminate|].
    destruct (c =? 48); [now injection I as <- _|].
    destruct (is_digit c) eqn:D; [|discriminate].
    destruct (take_digits t1) as [ds r'] eqn:T. injection I as <- _.
    simpl. rewrite D. now apply (take_digits_digits t1 ds r').
  - unfold parse_frac_part in F. destruct t2 as [|c t2]; [now injection F as <- _|].
    destruct (c =? 46); [|now injection F as <- _].
    destruct (take_digits t2) as [ds r'] eqn:T. destruct ds; [discriminate|].
    injection F as <- _. now apply (take_digits_digits t2 _ r').
Qed.

Lemma consed_inv (c : Z) (p : option (jsstring * jsstring)) (s rest : jsstring) :
  consed c p = Some (s, rest) -> exists s', p = Some (s', rest) /\ s = c :: s'.
Proof.
  destruct p as [[s' r']|]; [|discriminate]. simpl. intros [= <- <-]. eauto.
Qed.

Lemma hex_value_nonneg (c v : Z) : hex_value c = Some v -> 0 <= v.
Proof.
  unfold hex_value.
  destruct ((48 <=? c) && (c <=? 57)) eqn:A; [intros [= <-]; lia|].
  destruct ((97 <=? c) && (c <=? 102)) eqn:B; [intros [= <-]; lia|].
  destruct ((65 <=? c) && (c <=? 70)) eqn:C; [intros [= <-]; lia|discriminate].
Qed.

Lemma parse_string_body_key (t s rest : jsstring) :
  parse_string_body t = Some (s, rest) -> is_key s = true.
Proof.
  remember (List.length t) as n eqn:Hn. revert t s Hn.
  induction n as [n IH] using lt_wf_ind. intros t s Hn.
  destruct t as [|c r]; [discriminate|]. cbn [parse_string_body].
  destruct (c =? 34); [now intros [= <- _]|].
  destruct (Z.eqb_spec c 92) as [E92|E92].
  - destruct r as [|e r']; [discriminate|].
    destruct (e =? 117).
    + destruct r' as [|h1 [|h2 [|h3 [|h4 r'']]]]; try discriminate.
      destruct (hex4 h1 h2 h3 h4) as [u|] eqn:Hx; [|discriminate].
      intro H. apply consed_inv in H as (s' & P & ->).
      assert (0 <= u).
      { unfold hex4 in Hx.
        destruct (hex_value h1) eqn:E1, (hex_value h2) eqn:E2, (hex_value h3) eqn:E3,
                 (hex_value h4) eqn:E4; try discriminate.
        apply hex_value_nonneg in E1, E2, E3, E4. injection Hx as <-. lia. }
      cbn [is_key forallb]. rewrite (proj2 (Z.leb_le 0 u)) by lia.
      apply (IH (List.length r'')) in P; [exact P| simpl in Hn; lia | reflexivity].
    + destruct (simple_escape e) as [u|] eqn:Hs; [|discriminate].
      intro H. apply consed_inv in H as (s' & P & ->).
      assert (0 <= u).
      { unfold simple_escape in Hs.
        repeat match type of Hs with
               | (if ?b then _ else _) = _ => destruct b; [injection Hs as <-; lia|]
               end. discriminate. }
      cbn [is_key forallb]. rewrite (proj2 (Z.leb_le 0 u)) by lia.
      apply (IH (List.length r')) in P; [exact P| simpl in Hn; lia | reflexivity].
  - destruct (Z.ltb_spec c 32) as [H32|H32]; [discriminate|].
    intro H. apply consed_inv in H as (s' & P & ->).
    cbn [is_key forallb]. rewrite (proj2 (Z.leb_le 0 c)) by lia.
    apply (IH (List.length r)) in P; [exact P| simpl in Hn; lia | reflexivity].
Qed.

Lemma parse_wf (fuel : nat) :
  (forall t v r, parse_value fuel t = Some (v, r) -> well_formed v = true)
  /\ (forall t vs r, parse_elements fuel t = Some (vs, r) -> forallb well_formed vs = true)
  /\ (forall acc t ps r, props_wf acc = true -> parse_members fuel acc t = Some (ps, r) ->
                         props_wf ps = true).
Proof.
  induction fuel as [|f (IHv & IHe & IHm)]; [repeat split; discriminate|].
  repeat split.
  - intros t v r. cbn [parse_value]. destruct t as [|c t]; [discriminate|].
    destruct (c =? 110).
    { destruct (strip_prefix _ t); [|discriminate]. now intros [= <- _]. }
    destruct (c =? 116).
    { destruct (strip_prefix _ t); [|discriminate]. now intros [= <- _]. }
    destruct (c =? 102).
    { destruct (strip_prefix _ t); [|discriminate]. now intros [= <- _]. }
    destruct (c =? 34).
    { destruct (parse_string_body t) as [[s rest]|] eqn:P; [|discriminate].
      intros [= <- _]. now apply parse_string_body_key in P. }
    destruct (c =? 91).
    { destruct (skip_ws t) as [|c1 rest]; [discriminate|].
      destruct (c1 =? 93); [now intros [= <- _]|].
      destruct (parse_elements f (c1 :: rest)) as [[elems rest']|] eqn:P; [|discriminate].
      intros [= <- _]. now apply IHe in P. }
    destruct (c =? 123).
    { destruct (skip_ws t) as [|c1 rest]; [discriminate|].
      destruct (c1 =? 125); [now intros [= <- _]|].
      destruct (parse_members f [] (c1 :: rest)) as [[props rest']|] eqn:P; [|discriminate].
      intros [= <- _]. now apply IHm in P. }
    destruct (parse_number (c :: t)) as [[x rest]|] eqn:P; [|discriminate].
    intros [= <- _]. now apply parse_number_valid in P.
  - intros t vs r. cbn [parse_elements].
    destruct (parse_value f t) as [[v r0]|] eqn:P; [|discriminate].
    apply IHv in P. destruct (skip_ws r0) as [|c r1]; [discriminate|].
    destruct (c =? 93); [intros [= <- _]; simpl; now rewrite P|].
    destruct (c =? 44); [|discriminate].
    destruct (parse_elements f (skip_ws r1)) as [[vs' rest]|] eqn:Q; [|discriminate].
    intros [= <- _]. simpl. now rewrite P, (IHe _ _ _ Q).
  - intros acc t ps r A. cbn [parse_members]. destruct t as [|q t]; [discriminate|].
    destruct (q =? 34); [|discriminate].
    destruct (parse_string_body t) as [[key r1]|] eqn:K; [|discriminate].
    apply parse_string_body_key in K.
    destruct (skip_ws r1) as [|c r2]; [discriminate|].
    destruct (c =? 58); [|discriminate].
    destruct (parse_value f (skip_ws r2)) as [[v r3]|] eqn:P; [|discriminate].
    apply IHv in P.
    assert (A' : props_wf (define_property key v acc) = true).
    { unfold props_wf in *. apply andb_true_iff in A as [A1 A2].
      rewrite define_property_ordered by exact A1.
      rewrite define_property_forall; [reflexivity| |exact A2].
      now rewrite K, P. }
    destruct (skip_ws r3) as [|d r4]; [discriminate|].
    destruct (d =? 125); [now intros [= <- _]|].
    destruct (d =? 44); [|discriminate].
    now apply IHm.
Qed.

Lemma JSON_parse_well_formed (text : jsstring) (v : JsValue) :
  JSON_parse text = Some v -> well_formed v = true.
Proof.
  unfold JSON_parse.
  destruct (parse_value _ (skip_ws text)) as [[v' rest]|] eqn:P; [|discriminate].
  destruct (skip_ws rest); [|discriminate]. intros [= <-].
  now apply (proj1 (parse_wf _)) in P.
Qed.

(** ** The round trip *)

Lemma written_equivalent (v : JsValue) :
  all_finite v = true -> value_eqb (written v) v = true.
Proof.
  induction v as [|b|x|s|elems IH|props IH] using JsValue_nested_ind; intro F.
  - reflexivity.
  - apply eqb_reflx.
  - destruct x as [| |z|neg m e]; try discriminate; simpl.
    + reflexivity.
    + now rewrite eqb_reflx, Pos.eqb_refl, Z.eqb_refl.
  - apply str_eqb_refl.
  - cbn [written value_eqb all_finite] in *.
    induction IH as [|e es He _ IHes]; [reflexivity|].
    cbn [forallb map] in *. apply andb_true_iff in F as [F1 F2].
    now rewrite (He F1), (IHes F2).
  - cbn [written value_eqb all_finite] in *.
    induction IH as [|[k w] ps Hw _ IHps]; [reflexivity|].
    cbn [forallb map snd] in *. apply andb_true_iff in F as [F1 F2].
    now rewrite str_eqb_refl, (Hw F1), (IHps F2).
Qed.

Lemma written_shape (v : JsValue) : shape_of (written v) = shape_of v.
Proof.
  induction v as [|b|x|s|elems IH|props IH] using JsValue_nested_ind; try reflexivity.
  - now destruct x.
  - cbn [written shape_of]. f_equal. rewrite map_map.
    induction IH as [|e es He _ IHes]; [reflexivity|]. cbn [map]. now rewrite He, IHes.
  - cbn [written shape_of]. f_equal. rewrite map_map.
    induction IH as [|[k w] ps Hw _ IHps]; [reflexivity|]. cbn [map snd] in *.
    now rewrite Hw, IHps.
Qed.

(** C4, as the code has it.  For a text that parses to a document whose
    numbers are all finite, the text the save button writes parses to an
    equivalent document: the same types, the same keys in the same order,
    the same array elements in the same order, equal strings and booleans,
    and numbers equal as [===] has it (the sign of a zero is not written). *)
Theorem round_trip (text : jsstring) (doc : JsValue) (v : View) :
  JSON_parse text = Some doc ->
  all_finite doc = true ->
  jsonData v = doc ->
  exists doc',
    JSON_parse (snd (fst (saveButton_onclick v))) = Some doc'
    /\ value_eqb doc' doc = true
    /\ shape_of doc' = shape_of doc.
Proof.
  intros P F <-. exists (written (jsonData v)). cbn [saveButton_onclick fst snd].
  split; [apply parse_stringify; now apply (JSON_parse_well_formed text)|].
  split; [now apply written_equivalent|apply written_shape].
Qed.

Lemma round_trip_witness :
  exists doc',
    JSON_parse (snd (fst (saveButton_onclick (mkView scenario_a [] [] [])))) = Some doc'
    /\ value_eqb doc' scenario_a = true
    /\ shape_of doc' = shape_of scenario_a.
Proof.
  apply (round_trip (json "{'b':1,'a':{'c':true}}") scenario_a (mkView scenario_a [] [] []));
    vm_compute; reflexivity.
Defined.

(** C4 as stated fails on a number beyond the binary64 range: the valid
    text [[1e999]] parses to an array holding Infinity, which is written as
    [null] and reads back as Null, not as a Number. *)
Lemma overflowing_number_written_null :
  JSON_parse (lit "[1e999]") = Some (JArray [JNumber (Infinity false)])
  /\ JSON_stringify (JArray [JNumber (Infinity false)])
     = [91; 10; 32; 32] ++ lit "null" ++ [10; 93]
  /\ JSON_parse (JSON_stringify (JArray [JNumber (Infinity false)])) = Some (JArray [JNull])
  /\ value_eqb (JArray [JNull]) (JArray [JNumber (Infinity false)]) = false.
Proof. repeat split; vm_compute; reflexivity. Qed.

(** ** What the parser consumes *)

Lemma skip_ws_length (t : jsstring) : (List.length (skip_ws t) <= List.length t)%nat.
Proof.
  induction t as [|c t IH]; simpl; [lia|]. destruct (is_ws c); simpl; lia.
Qed.

Lemma strip_prefix_length (pre t r : jsstring) :
  strip_prefix pre t = Some r -> (List.length r <= List.length t)%nat.
Proof.
  revert t; induction pre as [|p pre IH]; intros t; simpl.
  - now intros [= ->].
  - destruct t as [|c t]; [discriminate|]. destruct (c =? p); [|discriminate].
    intro H. apply IH in H. simpl. lia.
Qed.

Lemma take_digits_length (t ds r : jsstring) :
  take_digits t = (ds, r) -> (List.length r <= List.length t)%nat.
Proof.
  revert ds r; induction t as [|c t IH]; intros ds r; simpl.
  - intros [= <- <-]. simpl. lia.
  - destruct (is_digit c); [|intros [= <- <-]; simpl; lia].
    destruct (take_digits t) as [ds' r']. intros [= <- <-].
    specialize (IH ds' r' eq_refl). lia.
Qed.

Lemma parse_string_body_length (t s r : jsstring) :
  parse_string_body t = Some (s, r) -> (List.length r < List.length t)%nat.
Proof.
  remember (List.length t) as n eqn:Hn. revert t s Hn.
  induction n as [n IH] using lt_wf_ind. intros t s Hn.
  destruct t as [|c t']; [discriminate|]. cbn [parse_string_body].
  destruct (c =? 34); [intros [= _ <-]; subst; simpl; lia|].
  destruct (c =? 92).
  - destruct t' as [|e r']; [discriminate|].
    destruct (e =? 117).
    + destruct r' as [|h1 [|h2 [|h3 [|h4 r'']]]]; try discriminate.
      destruct (hex4 h1 h2 h3 h4); [|discriminate].
      intro H. apply consed_inv in H as (s' & P & _).
      apply (IH (List.length r'')) in P; subst; simpl in *; lia.
    + destruct (simple_escape e); [|discriminate].
      intro H. apply consed_inv in H as (s' & P & _).
      apply (IH (List.length r')) in P; subst; simpl in *; lia.
  - destruct (c <? 32); [discriminate|].
    intro H. apply consed_inv in H as (s' & P & _).
    apply (IH (List.length t')) in P; subst; simpl in *; lia.
Qed.

Lemma parse_number_length (t r : jsstring) (x : Number) :
  parse_number t = Some (x, r) -> (List.length r < List.length t)%nat.
Proof.
  unfold parse_number.
  assert (S : (List.length (snd (parse_sign t)) <= List.length t)%nat).
  { unfold parse_sign. destruct t as [|c t]; [simpl; lia|]. destruct (c =? 45); simpl; lia. }
  destruct (parse_sign t) as [neg t1]. cbn [snd] in S.
  destruct (parse_int_part t1) as [[ip t2]|] eqn:I; [|discriminate].
  assert (I' : (List.length t2 < List.length t1)%nat).
  { unfold parse_int_part in I. destruct t1 as [|c t1]; [discriminate|].
    destruct (c =? 48); [injection I as _ <-; simpl; lia|].
    destruct (is_digit c); [|discriminate].
    destruct (take_digits t1) as [ds r'] eqn:T. injection I as _ <-.
    apply take_digits_length in T. simpl. lia. }
  destruct (parse_frac_part t2) as [[fp t3]|] eqn:F; [|discriminate].
  assert (F' : (List.length t3 <= List.length t2)%nat).
  { unfold parse_frac_part in F. destruct t2 as [|c t2]; [injection F as _ <-; lia|].
    destruct (c =? 46); [|injection F as _ <-; lia].
    destruct (take_digits t2) as [ds r'] eqn:T. destruct ds; [discriminate|].
    injection F as _ <-. apply take_digits_length in T. simpl. lia. }
  destruct (parse_exp_part t3) as [[ex t4]|] eqn:E; [|discriminate].
  assert (E' : (List.length t4 <= List.length t3)%nat).
  { assert (D : forall b u y w, parse_exp_digits b u = Some (y, w) ->
                                (List.length w <= List.length u)%nat).
    { intros b u y w. unfold parse_exp_digits.
      destruct (take_digits u) as [ds r'] eqn:T. destruct ds; [discriminate|].
      intros [= _ <-]. now apply take_digits_length in T. }
    unfold parse_exp_part in E. destruct t3 as [|c t3]; [injection E as _ <-; lia|].
    destruct ((c =? 101) || (c =? 69)); [|injection E as _ <-; lia].
    destruct t3 as [|s0 t3]; [discriminate|].
    destruct (s0 =? 43); [apply D in E; simpl; lia|].
    destruct (s0 =? 45); [apply D in E; simpl; lia|].
    apply D in E. simpl in *. lia. }
  intros [= _ <-]. lia.
Qed.

Lemma define_property_count (k : jsstring) (v : JsValue) (props : list (jsstring * JsValue)) :
  (list_sum (map (fun '(_, w) => node_count w) (define_property k v props))
   <= node_count v + list_sum (map (fun '(_, w) => node_count w) props))%nat.
Proof.
  unfold define_property. destruct (has_key k props).
  - induction props as [|[k0 w] props IH]; [simpl; lia|].
    cbn [replace_value]. destruct (str_eqb k0 k).
    + change (list_sum (map ?f ((k0, v) :: props))) with (f (k0, v) + list_sum (map f props))%nat.
      change (list_sum (map ?f ((k0, w) :: props))) with (f (k0, w) + list_sum (map f props))%nat.
      cbv beta iota. lia.
    + change (list_sum (map ?f ((k0, w) :: ?l))) with (f (k0, w) + list_sum (map f l))%nat.
      cbv beta iota. lia.
  - destruct (array_index_of_key k) as [i|].
    + destruct (insert_index_split i k v props) as (l1 & l2 & -> & ->).
      rewrite !map_app, !list_sum_app.
      change (list_sum (map ?f ((k, v) :: l2))) with (f (k, v) + list_sum (map f l2))%nat.
      cbv beta iota. lia.
    + rewrite map_app, list_sum_app. simpl. lia.
Qed.

(** Every value read takes at least as many characters as it has nodes. *)
Lemma parse_consumes (fuel : nat) :
  (forall t v r, parse_value fuel t = Some (v, r) ->
                 (node_count v + List.length r <= List.length t)%nat)
  /\ (forall t vs r, parse_elements fuel t = Some (vs, r) ->
                     (list_sum (map node_count vs) + List.length r < List.length t)%nat)
  /\ (forall acc t ps r, parse_members fuel acc t = Some (ps, r) ->
                         (list_sum (map (fun '(_, w) => node_count w) ps) + List.length r
                          < list_sum (map (fun '(_, w) => node_count w) acc) + List.length t)%nat).
Proof.
  induction fuel as [|f (IHv & IHe & IHm)]; [repeat split; discriminate|].
  repeat split.
  - intros t v r. cbn [parse_value]. destruct t as [|c t]; [discriminate|].
    destruct (c =? 110).
    { destruct (strip_prefix _ t) eqn:P; [|discriminate]. intros [= <- <-].
      apply strip_prefix_length in P. simpl. lia. }
    destruct (c =? 116).
    { destruct (strip_prefix _ t) eqn:P; [|discriminate]. intros [= <- <-].
      apply strip_prefix_length in P. simpl. lia. }
    destruct (c =? 102).
    { destruct (strip_prefix _ t) eqn:P; [|discriminate]. intros [= <- <-].
      apply strip_prefix_length in P. simpl. lia. }
    destruct (c =? 34).
    { destruct (parse_string_body t) as [[s rest]|] eqn:P; [|discriminate].
      intros [= <- <-]. apply parse_string_body_length in P. simpl. lia. }
    destruct (c =? 91).
    { pose proof (skip_ws_length t) as W.
      destruct (skip_ws t) as [|c1 rest]; [discriminate|].
      destruct (c1 =? 93); [intros [= <- <-]; simpl in *; lia|].
      destruct (parse_elements f (c1 :: rest)) as [[elems rest']|] eqn:P; [|discriminate].
      intros [= <- <-]. apply IHe in P. cbn [node_count]. simpl in *. lia. }
    destruct (c =? 123).
    { pose proof (skip_ws_length t) as W.
      destruct (skip_ws t) as [|c1 rest]; [discriminate|].
      destruct (c1 =? 125); [intros [= <- <-]; simpl in *; lia|].
      destruct (parse_members f [] (c1 :: rest)) as [[props rest']|] eqn:P; [|discriminate].
      intros [= <- <-]. apply IHm in P. cbn [node_count]. simpl in *. lia. }
    destruct (parse_number (c :: t)) as [[x rest]|] eqn:P; [|discriminate].
    intros [= <- <-]. apply parse_number_length in P. simpl in *. lia.
  - intros t vs r. cbn [parse_elements].
    destruct (parse_value f t) as [[v r0]|] eqn:P; [|discriminate].
    apply IHv in P. pose proof (skip_ws_length r0) as W.
    destruct (skip_ws r0) as [|c r1]; [discriminate|].
    destruct (c =? 93); [intros [= <- <-]; simpl in *; lia|].
    destruct (c =? 44); [|discriminate].
    pose proof (skip_ws_length r1) as W1.
    destruct (parse_elements f (skip_ws r1)) as [[vs' rest]|] eqn:Q; [|discriminate].
    intros [= <- <-]. apply IHe in Q.
    change (list_sum (map node_count (v :: vs')))
      with (node_count v + list_sum (map node_count vs'))%nat.
    simpl in W. lia.
  - intros acc t ps r. cbn [parse_members]. destruct t as [|q t]; [discriminate|].
    destruct (q =? 34); [|discriminate].
    destruct (parse_string_body t) as [[key r1]|] eqn:K; [|discriminate].
    apply parse_string_body_length in K. pose proof (skip_ws_length r1) as W1.
    destruct (skip_ws r1) as [|c r2]; [discriminate|].
    destruct (c =? 58); [|discriminate].
    pose proof (skip_ws_length r2) as W2.
    destruct (parse_value f (skip_ws r2)) as [[v r3]|] eqn:P; [|discriminate].
    apply IHv in P. pose proof (define_property_count key v acc) as D.
    pose proof (skip_ws_length r3) as W3.
    destruct (skip_ws r3) as [|d r4]; [discriminate|].
    destruct (d =? 125); [intros [= <- <-]; simpl in *; lia|].
    destruct (d =? 44); [|discriminate].
    pose proof (skip_ws_length r4) as W4.
    intro Q. apply IHm in Q. simpl in *. lia.
Qed.

Lemma JSON_parse_size (text : jsstring) (v : JsValue) :
  JSON_parse text = Some v -> (node_count v <= List.length text)%nat.
Proof.
  unfold JSON_parse. pose proof (skip_ws_length text) as W.
  destruct (parse_value _ (skip_ws text)) as [[v' rest]|] eqn:P; [|discriminate].
  destruct (skip_ws rest); [|discriminate]. intros [= <-].
  apply (proj1 (parse_consumes _)) in P. lia.
Qed.

(** ** The fuel of [JSON_parse] is never what fails *)

Lemma node_count_pos (v : JsValue) : (1 <= node_count v)%nat.
Proof. destruct v; simpl; lia. Qed.

Lemma parse_value_length (fuel : nat) (t r : jsstring) (v : JsValue) :
  parse_value fuel t = Some (v, r) -> (List.length r < List.length t)%nat.
Proof.
  intro P. apply (proj1 (parse_consumes fuel)) in P.
  pose proof (node_count_pos v). lia.
Qed.

Lemma parse_elements_length (fuel : nat) (t r : jsstring) (vs : list JsValue) :
  parse_elements fuel t = Some (vs, r) -> (List.length r + 2 <= List.length t)%nat.
Proof.
  destruct fuel as [|f]; [discriminate|]. cbn [parse_elements].
  destruct (parse_value f t) as [[v r0]|] eqn:P; [|discriminate].
  apply parse_value_length in P. pose proof (skip_ws_length r0) as W.
  destruct (skip_ws r0) as [|c r1]; [discriminate|].
  destruct (c =? 93); [intros [= _ <-]; simpl in *; lia|].
  destruct (c =? 44); [|discriminate].
  pose proof (skip_ws_length r1) as W1.
  destruct (parse_elements f (skip_ws r1)) as [[vs' rest]|] eqn:Q; [|discriminate].
  intros [= _ <-]. apply (proj1 (proj2 (parse_consumes f))) in Q. simpl in *. lia.
Qed.

Lemma parse_members_length (fuel : nat) (acc ps : list (jsstring * JsValue)) (t r : jsstring) :
  parse_members fuel acc t = Some (ps, r) -> (List.length r + 2 <= List.length t)%nat.
Proof.
  revert acc t; induction fuel as [|f IH]; intros acc t; [discriminate|].
  cbn [parse_members]. destruct t as [|q t]; [discriminate|].
  destruct (q =? 34); [|discriminate].
  destruct (parse_string_body t) as [[key r1]|] eqn:K; [|discriminate].
  apply parse_string_body_length in K. pose proof (skip_ws_length r1) as W1.
  destruct (skip_ws r1) as [|c r2]; [discriminate|].
  destruct (c =? 58); [|discriminate].
  pose proof (skip_ws_length r2) as W2.
  destruct (parse_value f (skip_ws r2)) as [[v r3]|] eqn:P; [|discriminate].
  apply parse_value_length in P. pose proof (skip_ws_length r3) as W3.
  destruct (skip_ws r3) as [|d r4]; [discriminate|].
  destruct (d =? 125); [intros [= _ <-]; simpl in *; lia|].
  destruct (d =? 44); [|discriminate].
  pose proof (skip_ws_length r4) as W4.
  intro Q. apply IH in Q. simpl in *. lia.
Qed.

(** A value that some fuel reads is read with twice the characters it takes. *)
Lemma parse_fuel (fuel : nat) :
  (forall t v r, parse_value fuel t = Some (v, r) ->
     forall g, (2 * List.length t <= g + 2 * List.length r + 1)%nat ->
               parse_value g t = Some (v, r))
  /\ (forall t vs r, parse_elements fuel t = Some (vs, r) ->
        forall g, (2 * List.length t <= g + 2 * List.length r + 2)%nat ->
                  parse_elements g t = Some (vs, r))
  /\ (forall acc t ps r, parse_members fuel acc t = Some (ps, r) ->
        forall g, (2 * List.length t <= g + 2 * List.length r + 2)%nat ->
                  parse_members g acc t = Some (ps, r)).
Proof.
  induction fuel as [|f (IHv & IHe & IHm)]; [repeat split; discriminate|].
  repeat split.
  - intros t v r H g G. pose proof (parse_value_length _ _ _ _ H) as L.
    destruct g as [|g]; [lia|]. cbn [parse_value] in H |- *.
    destruct t as [|c t]; [discriminate|].
    destruct (c =? 110); [exact H|]. destruct (c =? 116); [exact H|].
    destruct (c =? 102); [exact H|]. destruct (c =? 34); [exact H|].
    destruct (c =? 91).
    { pose proof (skip_ws_length t) as W.
      destruct (skip_ws t) as [|c1 rest]; [discriminate|].
      destruct (c1 =? 93); [exact H|].
      destruct (parse_elements f (c1 :: rest)) as [[elems rest']|] eqn:P; [|discriminate].
      injection H as <- <-. rewrite (IHe _ _ _ P g); [reflexivity|]. simpl in *. lia. }
    destruct (c =? 123); [|exact H].
    pose proof (skip_ws_length t) as W.
    destruct (skip_ws t) as [|c1 rest]; [discriminate|].
    destruct (c1 =? 125); [exact H|].
    destruct (parse_members f [] (c1 :: rest)) as [[props rest']|] eqn:P; [|discriminate].
    injection H as <- <-. rewrite (IHm _ _ _ _ P g); [reflexivity|]. simpl in *. lia.
  - intros t vs r H g G. pose proof (parse_elements_length _ _ _ _ H) as L.
    destruct g as [|g]; [lia|]. cbn [parse_elements] in H |- *.
    destruct (parse_value f t) as [[v r0]|] eqn:P; [|discriminate].
    pose proof (parse_value_length _ _ _ _ P) as L0.
    pose proof (skip_ws_length r0) as W.
    destruct (skip_ws r0) as [|c r1] eqn:S0; [discriminate|].
    destruct (c =? 93) eqn:C.
    + injection H as <- <-. rewrite (IHv _ _ _ P g); [|simpl in *; lia].
      rewrite S0, C. reflexivity.
    + destruct (c =? 44) eqn:C'; [|discriminate].
      pose proof (skip_ws_length r1) as W1.
      destruct (parse_elements f (skip_ws r1)) as [[vs' rest]|] eqn:Q; [|discriminate].
      injection H as <- <-. pose proof (parse_elements_length _ _ _ _ Q) as L1.
      rewrite (IHv _ _ _ P g); [|simpl in *; lia]. rewrite S0, C, C'.
      rewrite (IHe _ _ _ Q g); [reflexivity|]. simpl in *. lia.
  - intros acc t ps r H g G. pose proof (parse_members_length _ _ _ _ _ H) as L.
    destruct g as [|g]; [lia|]. cbn [parse_members] in H |- *.
    destruct t as [|q t]; [discriminate|].
    destruct (q =? 34); [|discriminate].
    destruct (parse_string_body t) as [[key r1]|] eqn:K; [|discriminate].
    apply parse_string_body_length in K. pose proof (skip_ws_length r1) as W1.
    destruct (skip_ws r1) as [|c r2]; [discriminate|].
    destruct (c =? 58); [|discriminate].
    pose proof (skip_ws_length r2) as W2.
    destruct (parse_value f (skip_ws r2)) as [[v r3]|] eqn:P; [|discriminate].
    pose proof (parse_value_length _ _ _ _ P) as L3.
    pose proof (skip_ws_length r3) as W3.
    destruct (skip_ws r3) as [|d r4] eqn:S3; [discriminate|].
    destruct (d =? 125) eqn:D.
    + injection H as <- <-. rewrite (IHv _ _ _ P g); [|simpl in *; lia].
      rewrite S3, D. reflexivity.
    + destruct (d =? 44) eqn:D'; [|discriminate].
      pose proof (skip_ws_length r4) as W4.
      pose proof (parse_members_length _ _ _ _ _ H) as L4.
      rewrite (IHv _ _ _ P g); [|simpl in *; lia]. rewrite S3, D, D'.
      apply (IHm _ _ _ _ H). simpl in *. lia.
Qed.

(** A text that [parse_value] reads to its end with any fuel at all is read by
    [JSON_parse]: [None] is a syntax error and never a lack of fuel. *)
Lemma JSON_parse_any_fuel (text rest : jsstring) (fuel : nat) (v : JsValue) :
  parse_value fuel (skip_ws text) = Some (v, rest) ->
  skip_ws rest = [] ->
  JSON_parse text = Some v.
Proof.
  intros P E. unfold JSON_parse. pose proof (skip_ws_length text) as W.
  rewrite (proj1 (parse_fuel fuel) _ _ _ P); [now rewrite E|lia].
Qed.

(** ** The traversal is bounded by the size of the input *)

(** C9.  The traversal returns on every document: [createFields] called with
    room for one more nested call than the document is deep yields its
    elements, and so does [displayEditor]; the depth is at most the number of
    values in the document, and a document read from a text has at most as
    many values as the text has characters, so that the length of the text
    bounds the nesting of the calls. *)
Theorem createFields_terminates (data : JsValue) (path : list jsstring) (extra : nat) (v : View) :
  (exists els, createFields (S (depth data) + extra) path data = Some els)
  /\ (exists v', displayEditor (S (depth (jsonData v)) + extra) v = Some v')
  /\ (depth data <= node_count data)%nat
  /\ (forall text : jsstring,
        match JSON_parse text with
        | Some doc =>
            (node_count doc <= List.length text)%nat
            /\ exists els, createFields (S (List.length text)) path doc = Some els
        | None => True
        end).
Proof.
  split; [|split; [|split]].
  - apply createFields_returns. lia.
  - unfold displayEditor. destruct (is_object (Some (jsonData v))); [|eauto].
    destruct (createFields_returns (S (depth (jsonData v)) + extra) [] (jsonData v))
      as [els ->]; [lia|eauto].
  - apply depth_le_node_count.
  - intro text. destruct (JSON_parse text) as [doc|] eqn:P; [|exact I].
    apply JSON_parse_size in P. split; [exact P|].
    apply createFields_returns. pose proof (depth_le_node_count doc). lia.
Qed.

(** ** Assignments to different keys *)

Lemma assoc_has_key (key : jsstring) (props : list (jsstring * JsValue)) (v : JsValue) :
  assoc key props = Some v -> has_key key props = true.
Proof.
  induction props as [|[k w] rest IH]; simpl; [discriminate|].
  destruct (str_eqb k key); [reflexivity|exact IH].
Qed.

Lemma assoc_replace_value (k k' : jsstring) (v : JsValue) (props : list (jsstring * JsValue)) :
  assoc k' (replace_value k v props)
  = if str_eqb k k' then option_map (fun _ => v) (assoc k' props) else assoc k' props.
Proof.
  induction props as [|[k0 w] rest IH]; simpl; [now destruct (str_eqb k k')|].
  destruct (str_eqb k0 k) eqn:E0; simpl.
  - apply str_eqb_eq in E0. subst k0. destruct (str_eqb k k'); reflexivity.
  - destruct (str_eqb k0 k') eqn:E1; [|exact IH].
    destruct (str_eqb k k') eqn:E; [|reflexivity].
    apply str_eqb_eq in E, E1. subst. now rewrite str_eqb_refl in E0.
Qed.

Lemma assoc_app (key : jsstring) (l1 l2 : list (jsstring * JsValue)) :
  assoc key (l1 ++ l2) = match assoc key l1 with Some v => Some v | None => assoc key l2 end.
Proof.
  induction l1 as [|[k w] l1 IH]; simpl; [reflexivity|].
  destruct (str_eqb k key); [reflexivity|exact IH].
Qed.

(** Reading a key of [define_property]'s result. *)
Lemma assoc_define_property (k k' : jsstring) (v : JsValue) (props : list (jsstring * JsValue)) :
  assoc k' (define_property k v props) = if str_eqb k k' then Some v else assoc k' props.
Proof.
  unfold define_property. destruct (has_key k props) eqn:H.
  - rewrite assoc_replace_value. destruct (str_eqb k k') eqn:E; [|reflexivity].
    apply str_eqb_eq in E. subst k'.
    destruct (assoc k props) eqn:A; [reflexivity|].
    exfalso. clear -H A. induction props as [|[k0 w] rest IH]; simpl in *; [discriminate|].
    destruct (str_eqb k0 k); [discriminate|auto].
  - assert (N : assoc k props = None).
    { destruct (assoc k props) eqn:A; [|reflexivity].
      apply assoc_has_key in A. congruence. }
    destruct (array_index_of_key k) as [i|].
    + destruct (insert_index_split i k v props) as (l1 & l2 & -> & ->).
      rewrite !assoc_app in *. simpl.
      destruct (str_eqb k k') eqn:E.
      * apply str_eqb_eq in E. subst k'. destruct (assoc k l1); [discriminate|reflexivity].
      * reflexivity.
    + rewrite assoc_app. simpl. destruct (str_eqb k k') eqn:E.
      * apply str_eqb_eq in E. subst k'. now rewrite N.
      * now destruct (assoc k' props).
Qed.

Lemma nth_error_replace_nth (n m : nat) (v : JsValue) (elems elems' : list JsValue) :
  replace_nth n v elems = Some elems' ->
  nth_error elems' m = if Nat.eqb n m then Some v else nth_error elems m.
Proof.
  revert m elems elems'; induction n as [|n IH]; intros m [|x elems] elems'; simpl;
    try discriminate.
  - intros [= <-]. now destruct m.
  - destruct (replace_nth n v elems) as [l|] eqn:R; [|discriminate]. simpl.
    intros [= <-]. destruct m; [reflexivity|]. simpl. now apply IH.
Qed.

Lemma index_of_key_inj (a b : jsstring) (i : Z) :
  index_of_key a = Some i -> index_of_key b = Some i -> a = b.
Proof.
  intros A B. apply index_of_key_canonical in A as [-> _].
  now apply index_of_key_canonical in B as [-> _].
Qed.

(** [data[k] = v] leaves what is under every other key. *)
Lemma Get_Put_other (data data' : JsValue) (k k' : jsstring) (v : JsValue) :
  Put data k v = Some data' -> k <> k' -> Get data' k' = Get data k'.
Proof.
  destruct data; simpl; try discriminate.
  - destruct (index_of_key k) as [i|] eqn:Ek; [|discriminate].
    destruct (replace_nth (Z.to_nat i) v elems) as [elems'|] eqn:R; [|discriminate].
    simpl. intros [= <-] N. simpl.
    destruct (index_of_key k') as [j|] eqn:Ek'; [|reflexivity].
    rewrite (nth_error_replace_nth _ (Z.to_nat j) _ _ _ R).
    destruct (Nat.eqb_spec (Z.to_nat i) (Z.to_nat j)) as [E|]; [|reflexivity].
    exfalso. apply N.
    pose proof (proj2 (index_of_key_canonical _ _ Ek)).
    pose proof (proj2 (index_of_key_canonical _ _ Ek')).
    assert (i = j) by lia. subst j. exact (index_of_key_inj _ _ _ Ek Ek').
  - intros [= <-] N. simpl. rewrite assoc_define_property.
    destruct (str_eqb k k') eqn:E; [|reflexivity].
    apply str_eqb_eq in E. contradiction.
Qed.

Lemma replace_value_twice (k : jsstring) (a b : JsValue) (props : list (jsstring * JsValue)) :
  replace_value k b (replace_value k a props) = replace_value k b props.
Proof.
  induction props as [|[k0 w] rest IH]; simpl; [reflexivity|].
  destruct (str_eqb k0 k) eqn:E; simpl; rewrite E; [reflexivity|now rewrite IH].
Qed.

Lemma replace_value_comm (k1 k2 : jsstring) (a b : JsValue) (props : list (jsstring * JsValue)) :
  k1 <> k2 ->
  replace_value k2 b (replace_value k1 a props) = replace_value k1 a (replace_value k2 b props).
Proof.
  intro N. induction props as [|[k0 w] rest IH]; simpl; [reflexivity|].
  destruct (str_eqb k0 k1) eqn:E1, (str_eqb k0 k2) eqn:E2; simpl; rewrite ?E1, ?E2;
    try reflexivity.
  - apply str_eqb_eq in E1, E2. congruence.
  - now rewrite IH.
Qed.

Lemma has_key_replace_value (k k' : jsstring) (v : JsValue) (props : list (jsstring * JsValue)) :
  has_key k' (replace_value k v props) = has_key k' props.
Proof. now rewrite !has_key_mem, replace_value_keys. Qed.

Lemma replace_nth_twice (n : nat) (a b : JsValue) (elems l : list JsValue) :
  replace_nth n a elems = Some l -> replace_nth n b l = replace_nth n b elems.
Proof.
  revert elems l; induction n as [|n IH]; intros [|x elems] l; simpl; try discriminate.
  - now intros [= <-].
  - destruct (replace_nth n a elems) as [l'|] eqn:R; [|discriminate]. simpl.
    intros [= <-]. simpl. now rewrite (IH _ _ R).
Qed.

Lemma replace_nth_comm (n m : nat) (a b : JsValue) (elems l1 l2 : list JsValue) :
  n <> m -> replace_nth n a elems = Some l1 -> replace_nth m b elems = Some l2 ->
  replace_nth m b l1 = replace_nth n a l2.
Proof.
  revert m elems l1 l2; induction n as [|n IH]; intros [|m] [|x elems] l1 l2 N; simpl;
    try discriminate; try contradiction.
  - intros [= <-]. destruct (replace_nth m b elems); [|discriminate].
    simpl. now intros [= <-].
  - destruct (replace_nth n a elems) as [l|] eqn:R; [|discriminate]. simpl.
    intros [= <-] [= <-]. simpl. now rewrite R.
  - destruct (replace_nth n a elems) as [l1'|] eqn:R1; [|discriminate].
    destruct (replace_nth m b elems) as [l2'|] eqn:R2; [|discriminate].
    simpl. intros [= <-] [= <-]. simpl.
    now rewrite (IH m elems l1' l2' ltac:(congruence) R1 R2).
Qed.

(** Assigning twice to a key that is there: the second value stays. *)
Lemma Put_twice (data d1 : JsValue) (k : jsstring) (old a b : JsValue) :
  Get data k = Some old -> Put data k a = Some d1 -> Put d1 k b = Put data k b.
Proof.
  destruct data; simpl; try discriminate.
  - destruct (index_of_key k) as [i|] eqn:Ek; [|discriminate]. intros _.
    destruct (replace_nth (Z.to_nat i) a elems) as [l|] eqn:R; [|discriminate].
    simpl. intros [= <-]. simpl. now rewrite Ek, (replace_nth_twice _ _ _ _ _ R).
  - intros G [= <-]. simpl. apply assoc_has_key in G. unfold define_property.
    rewrite G, has_key_replace_value, G. now rewrite replace_value_twice.
Qed.

(** Assignments to two different keys that are there can be made in either
    order. *)
Lemma Put_comm (data d1 d2 : JsValue) (k1 k2 : jsstring) (o1 o2 a b : JsValue) :
  k1 <> k2 -> Get data k1 = Some o1 -> Get data k2 = Some o2 ->
  Put data k1 a = Some d1 -> Put data k2 b = Some d2 ->
  Put d1 k2 b = Put d2 k1 a.
Proof.
  intro N. destruct data; simpl; try discriminate.
  - destruct (index_of_key k1) as [i|] eqn:E1; [|discriminate].
    destruct (index_of_key k2) as [j|] eqn:E2; [|discriminate]. intros _ _.
    destruct (replace_nth (Z.to_nat i) a elems) as [l1|] eqn:R1; [|discriminate].
    destruct (replace_nth (Z.to_nat j) b elems) as [l2|] eqn:R2; [|discriminate].
    simpl. intros [= <-] [= <-]. simpl. rewrite E1, E2.
    rewrite (fun H => replace_nth_comm _ _ _ _ _ _ _ H R1 R2); [reflexivity|].
    intro E. apply N.
    pose proof (proj2 (index_of_key_canonical _ _ E1)).
    pose proof (proj2 (index_of_key_canonical _ _ E2)).
    assert (i = j) by lia. subst j. exact (index_of_key_inj _ _ _ E1 E2).
  - intros G1 G2 [= <-] [= <-]. simpl.
    apply assoc_has_key in G1, G2. unfold define_property.
    rewrite G1, G2, !has_key_replace_value, G1, G2.
    now rewrite replace_value_comm.
Qed.

(** ** Edits of different fields *)

Lemma lookup_primitive (root : JsValue) (k : jsstring) (rest : list jsstring) :
  is_object (Some root) = false -> lookup root (k :: rest) = None.
Proof. destruct root; simpl; try discriminate; reflexivity. Qed.

(** The paths of two different primitive values part at some key. *)
Lemma leaves_diverge (root : JsValue) (p q : list jsstring) (a b : JsValue) :
  lookup root p = Some a -> is_object (Some a) = false ->
  lookup root q = Some b -> is_object (Some b) = false ->
  p <> q -> diverges p q = true.
Proof.
  revert root q; induction p as [|k p IH]; intros root [|k' q] La Oa Lb Ob N.
  - contradiction.
  - simpl in La. injection La as ->. now rewrite lookup_primitive in Lb.
  - simpl in Lb. injection Lb as ->. now rewrite lookup_primitive in La.
  - simpl. destruct (str_eqb k k') eqn:E; [|reflexivity].
    apply str_eqb_eq in E. subst k'. simpl in La, Lb.
    destruct (Get root k) as [child|]; [|discriminate].
    apply (IH child q La Oa Lb Ob). congruence.
Qed.

Lemma diverges_sym (p q : list jsstring) : diverges p q = diverges q p.
Proof.
  revert q; induction p as [|a p IH]; intros [|b q]; simpl; try reflexivity.
  rewrite (str_eqb_sym b a). destruct (str_eqb a b); [apply IH|reflexivity].
Qed.

(** [assign] leaves what is at every path that parts from the one assigned. *)
Lemma lookup_assign_other (root root' : JsValue) (p q : list jsstring) (k : jsstring)
      (v : JsValue) :
  assign root p k v = Some root' -> diverges (p ++ [k]) q = true ->
  lookup root' q = lookup root q.
Proof.
  revert root root' q; induction p as [|k0 p IH]; intros root root' [|k' q] A D;
    try discriminate.
  - simpl in A, D. destruct (str_eqb k k') eqn:E; [discriminate|].
    apply str_eqb_neq in E. simpl. now rewrite (Get_Put_other _ _ _ _ _ A E).
  - simpl in A, D. destruct (Get root k0) as [child|] eqn:G; [|discriminate].
    destruct (assign child p k v) as [child'|] eqn:A'; [|discriminate].
    simpl. destruct (str_eqb k0 k') eqn:E.
    + apply str_eqb_eq in E. subst k'.
      destruct (Put_existing _ _ _ child' G) as (r & P & _ & G').
      rewrite P in A. injection A as <-. rewrite G', G. now apply IH.
    + apply str_eqb_neq in E. now rewrite (Get_Put_other _ _ _ _ _ A E).
Qed.

(** Assigning twice to the same place: the second value stays. *)
Lemma assign_twice (root d1 : JsValue) (p : list jsstring) (k : jsstring)
      (container old a b : JsValue) :
  lookup root p = Some container -> Get container k = Some old ->
  assign root p k a = Some d1 -> assign d1 p k b = assign root p k b.
Proof.
  revert root d1; induction p as [|k0 p IH]; simpl; intros root d1 L G A.
  - injection L as ->. exact (Put_twice _ _ _ _ _ _ G A).
  - destruct (Get root k0) as [child|] eqn:G0; [|discriminate].
    destruct (assign child p k a) as [c1|] eqn:A1; [|discriminate].
    destruct (Put_existing _ _ _ c1 G0) as (r & P & _ & G1).
    rewrite P in A. injection A as <-. rewrite G1, (IH _ _ L G A1).
    destruct (assign child p k b) as [c2|]; [|reflexivity].
    exact (Put_twice _ _ _ _ _ _ G0 P).
Qed.

Lemma assign_comm_eq (root d1 d2 : JsValue) (p1 p2 : list jsstring) (k1 k2 : jsstring)
      (c1 c2 o1 o2 a b : JsValue) :
  lookup root p1 = Some c1 -> Get c1 k1 = Some o1 ->
  lookup root p2 = Some c2 -> Get c2 k2 = Some o2 ->
  diverges (p1 ++ [k1]) (p2 ++ [k2]) = true ->
  assign root p1 k1 a = Some d1 -> assign root p2 k2 b = Some d2 ->
  assign d1 p2 k2 b = assign d2 p1 k1 a.
Proof.
  revert root d1 d2 p2; induction p1 as [|ka p1 IH]; intros root d1 d2 [|kb p2];
    simpl; intros L1 G1 L2 G2 D A1 A2.
  - injection L1 as <-. injection L2 as <-.
    destruct (str_eqb k1 k2) eqn:E; [discriminate|]. apply str_eqb_neq in E.
    exact (Put_comm _ _ _ _ _ _ _ _ _ E G1 G2 A1 A2).
  - injection L1 as <-. destruct (str_eqb k1 kb) eqn:E; [discriminate|].
    apply str_eqb_neq in E.
    destruct (Get root kb) as [child|] eqn:G; [|discriminate].
    destruct (assign child p2 k2 b) as [c'|] eqn:A; [|discriminate].
    rewrite (Get_Put_other _ _ _ _ _ A1 E), G, A.
    exact (Put_comm _ _ _ _ _ _ _ _ _ E G1 G A1 A2).
  - injection L2 as <-. destruct (str_eqb ka k2) eqn:E; [now destruct (p1 ++ [k1])|].
    apply str_eqb_neq in E.
    destruct (Get root ka) as [child|] eqn:G; [|discriminate].
    destruct (assign child p1 k1 a) as [c'|] eqn:A; [|discriminate].
    rewrite (Get_Put_other _ _ _ _ _ A2 (not_eq_sym E)), G, A.
    exact (Put_comm _ _ _ _ _ _ _ _ _ E G G2 A1 A2).
  - destruct (Get root ka) as [childa|] eqn:Ga; [|discriminate].
    destruct (Get root kb) as [childb|] eqn:Gb; [|discriminate].
    destruct (assign childa p1 k1 a) as [ca|] eqn:Aa; [|discriminate].
    destruct (assign childb p2 k2 b) as [cb|] eqn:Ab; [|discriminate].
    destruct (str_eqb ka kb) eqn:E.
    + apply str_eqb_eq in E. subst kb.
      assert (childb = childa) by congruence. subst childb.
      destruct (Put_existing _ _ _ ca Ga) as (r1 & P1 & _ & G1').
      destruct (Put_existing _ _ _ cb Ga) as (r2 & P2 & _ & G2').
      assert (r1 = d1) by congruence. assert (r2 = d2) by congruence. subst r1 r2.
      rewrite G1', G2', (IH _ _ _ _ L1 G1 L2 G2 D Aa Ab).
      destruct (assign cb p1 k1 a) as [x|]; [|reflexivity].
      rewrite (Put_twice _ _ _ _ _ _ Ga P1). symmetry. exact (Put_twice _ _ _ _ _ _ Ga P2).
    + apply str_eqb_neq in E.
      rewrite (Get_Put_other _ _ _ _ _ A1 E), Gb, Ab.
      rewrite (Get_Put_other _ _ _ _ _ A2 (not_eq_sym E)), Ga, Aa.
      exact (Put_comm _ _ _ _ _ _ _ _ _ E Ga Gb A1 A2).
Qed.

Lemma lookup_snoc (root : JsValue) (p : list jsstring) (k : jsstring) (v : JsValue) :
  lookup root (p ++ [k]) = Some v <->
  exists container, lookup root p = Some container /\ Get container k = Some v.
Proof.
  rewrite lookup_app. split.
  - destruct (lookup root p) as [c|]; [|discriminate]. simpl.
    destruct (Get c k) eqn:G; [|discriminate]. intros [= ->]. eauto.
  - intros (c & -> & G). simpl. now rewrite G.
Qed.

(** Assignments to two places whose paths part can be made in either order. *)
Lemma assign_comm (root : JsValue) (p1 p2 : list jsstring) (k1 k2 : jsstring)
      (c1 c2 o1 o2 a b : JsValue) :
  lookup root p1 = Some c1 -> Get c1 k1 = Some o1 ->
  lookup root p2 = Some c2 -> Get c2 k2 = Some o2 ->
  diverges (p1 ++ [k1]) (p2 ++ [k2]) = true ->
  exists d1 d2 d,
    assign root p1 k1 a = Some d1 /\ assign root p2 k2 b = Some d2
    /\ assign d1 p2 k2 b = Some d /\ assign d2 p1 k1 a = Some d.
Proof.
  intros L1 G1 L2 G2 D.
  destruct (assign_existing _ _ _ _ _ a L1 G1) as (d1 & A1 & _).
  destruct (assign_existing _ _ _ _ _ b L2 G2) as (d2 & A2 & _).
  pose proof (lookup_assign_other _ _ _ (p2 ++ [k2]) _ _ A1 D) as F.
  rewrite (proj2 (lookup_snoc root p2 k2 o2)) in F by eauto.
  apply lookup_snoc in F as (c & L & G).
  destruct (assign_existing _ _ _ _ _ b L G) as (d & A & _).
  exists d1, d2, d. repeat split; auto.
  now rewrite <- (assign_comm_eq _ _ _ _ _ _ _ _ _ _ _ a b L1 G1 L2 G2 D A1 A2).
Qed.

(** ** What holds in every state of a view *)

Lemma Get_well_formed (data child : JsValue) (k : jsstring) :
  well_formed data = true -> Get data k = Some child -> well_formed child = true.
Proof.
  destruct data; simpl; try discriminate.
  - intros W. destruct (index_of_key k); [|discriminate]. intro H.
    apply nth_error_In in H. rewrite forallb_forall in W. now apply W.
  - intros W H. apply andb_true_iff in W as [_ W]. apply assoc_In in H.
    rewrite forallb_forall in W. specialize (W _ H). simpl in W.
    now apply andb_true_iff in W as [_ W].
Qed.

Lemma replaced_well_formed (old v data data' : JsValue) :
  replaced old v data data' -> well_formed v = true ->
  well_formed data = true -> well_formed data' = true.
Proof.
  intros [] Wv; cbn [well_formed].
  - rewrite !forallb_app. cbn [forallb]. intro W.
    apply andb_true_iff in W as [-> W]. apply andb_true_iff in W as [_ ->].
    now rewrite Wv.
  - rewrite !map_app. cbn [map fst]. intro W. apply andb_true_iff in W as [-> W].
    rewrite !forallb_app in *. cbn [forallb] in *.
    apply andb_true_iff in W as [-> W]. apply andb_true_iff in W as [W ->].
    apply andb_true_iff in W as [-> _]. now rewrite Wv.
Qed.

Lemma assign_well_formed (root root' : JsValue) (p : list jsstring) (k : jsstring)
      (container old v : JsValue) :
  lookup root p = Some container -> Get container k = Some old ->
  well_formed root = true -> well_formed v = true ->
  assign root p k v = Some root' -> well_formed root' = true.
Proof.
  revert root root'; induction p as [|k0 p IH]; simpl; intros root root' L G W Wv A.
  - injection L as <-. destruct (Put_existing _ _ _ v G) as (r & P & R & _).
    assert (r = root') by congruence. subst r. exact (replaced_well_formed _ _ _ _ R Wv W).
  - destruct (Get root k0) as [child|] eqn:G0; [|discriminate].
    destruct (assign child p k v) as [child'|] eqn:A'; [|discriminate].
    destruct (Put_existing _ _ _ child' G0) as (r & P & R & _).
    assert (r = root') by congruence. subst r.
    apply (replaced_well_formed _ _ _ _ R); [|exact W].
    exact (IH _ _ L G (Get_well_formed _ _ _ W G0) Wv A').
Qed.

Lemma fields_of_app (a b : list Element) : fields_of (a ++ b) = fields_of a ++ fields_of b.
Proof. unfold fields_of. apply flat_map_app. Qed.

(** What [displayEditor] shows is in step with the document. *)
Lemma displayEditor_in_sync (fuel : nat) (v v' : View) :
  displayEditor fuel v = Some v' -> in_sync v'.
Proof.
  unfold displayEditor. destruct (is_object (Some (jsonData v))).
  - destruct (createFields fuel [] (jsonData v)) as [els|] eqn:C; [|discriminate].
    intros [= <-] field Hin. cbn [contentEl jsonData] in *.
    rewrite fields_of_app in Hin. cbn in Hin. rewrite app_nil_r in Hin.
    destruct (createFields_field _ _ _ _ _ C Hin) as (rel & c & leaf & k & -> & L & G & O).
    exists k, (ToString (Some leaf)), rel, k, c, leaf. auto.
  - intros [= <-] field []. 
Qed.

(** An edit keeps the fields in step with the document. *)
Lemma onChange_in_sync (field : Element) (newValue : jsstring) (v v' : View) :
  in_sync v -> In field (fields_of (contentEl v)) ->
  onChange field newValue v = Some v' -> in_sync v'.
Proof.
  intros S Hin E.
  destruct (S _ Hin) as (n & x & p & k & c & leaf & -> & L & G & O).
  cbn [onChange] in E.
  destruct (assign (jsonData v) p k (JString newValue)) as [root'|] eqn:A; [|discriminate].
  injection E as <-. intros g Hg. cbn [contentEl jsonData] in *.
  destruct (S _ Hg) as (n2 & x2 & q & k2 & c2 & leaf2 & -> & L2 & G2 & O2).
  exists n2, x2, q, k2.
  destruct (list_eq_dec (list_eq_dec Z.eq_dec) (p ++ [k]) (q ++ [k2])) as [E|N].
  - apply app_inj_tail in E as [<- <-].
    destruct (assign_existing _ _ _ _ _ (JString newValue) L G) as (r & A' & L').
    assert (r = root') by congruence. subst r.
    apply lookup_snoc in L' as (c' & Lc & Gc). exists c', (JString newValue). auto.
  - assert (D : diverges (p ++ [k]) (q ++ [k2]) = true).
    { apply (leaves_diverge (jsonData v) _ _ leaf leaf2); auto;
        apply lookup_snoc; eauto. }
    pose proof (lookup_assign_other _ _ _ _ _ _ A D) as F.
    rewrite (proj2 (lookup_snoc (jsonData v) q k2 leaf2)) in F by eauto.
    apply lookup_snoc in F as (c' & Lc & Gc). exists c', leaf2. auto.
Qed.

Lemma onChange_well_formed (field : Element) (newValue : jsstring) (v v' : View) :
  in_sync v -> In field (fields_of (contentEl v)) -> is_key newValue = true ->
  well_formed (jsonData v) = true ->
  onChange field newValue v = Some v' -> well_formed (jsonData v') = true.
Proof.
  intros S Hin K W E.
  destruct (S _ Hin) as (n & x & p & k & c & leaf & -> & L & G & O).
  cbn [onChange] in E.
  destruct (assign (jsonData v) p k (JString newValue)) as [root'|] eqn:A; [|discriminate].
  injection E as <-. cbn [jsonData].
  exact (assign_well_formed _ _ _ _ _ _ (JString newValue) L G W K A).
Qed.

Lemma fileButton_onclick_cases (fuel : nat) (supported : bool) (picked : list File)
      (v v' : View) :
  fileButton_onclick fuel supported picked v = Some v' ->
  (jsonData v' = jsonData v /\ contentEl v' = contentEl v)
  \/ exists file others parsed v1,
       picked = file :: others /\ JSON_parse (text file) = Some parsed
       /\ jsonData v1 = parsed /\ displayEditor fuel v1 = Some v'.
Proof.
  unfold fileButton_onclick. destruct supported; cbn [negb].
  - destruct picked as [|file others]; [intros [= <-]; auto|].
    destruct (JSON_parse (text file)) as [parsed|] eqn:P.
    + intro D. right. do 4 eexists. split; [reflexivity|]. split; [exact P|].
      split; [|exact D]. reflexivity.
    + intros [= <-]. auto.
  - intros [= <-]. auto.
Qed.

Lemma saveButton_handler_keeps (confirmSave supported picked stored : bool) (v : View) :
  jsonData (snd (saveButton_handler confirmSave supported picked stored v)) = jsonData v
  /\ filePath (snd (saveButton_handler confirmSave supported picked stored v)) = filePath v
  /\ contentEl (snd (saveButton_handler confirmSave supported picked stored v)) = contentEl v.
Proof.
  unfold saveButton_handler.
  destruct confirmSave, supported, picked, stored; cbn; auto.
Qed.

Lemma in_sync_same (v v' : View) :
  jsonData v' = jsonData v -> contentEl v' = contentEl v -> in_sync v -> in_sync v'.
Proof. unfold in_sync. intros -> ->. auto. Qed.

(** The document of a view is a value [JSON.parse] can return, and every
    text field shown writes to one of its primitive values. *)
Lemma reachable_invariant (v : View) :
  reachable v -> well_formed (jsonData v) = true /\ in_sync v.
Proof.
  induction 1 as [|fuel supported picked v v' _ [W S] E
                  |field newValue v v' _ [W S] Hin K E
                  |confirmSave supported picked stored v _ [W S]].
  - split; [reflexivity|]. intros field [].
  - apply fileButton_onclick_cases in E as [[Ej Ec]|(file & others & parsed & v1 & _ & P & J & D)].
    + split; [now rewrite Ej|]. exact (in_sync_same _ _ Ej Ec S).
    + split; [|exact (displayEditor_in_sync _ _ _ D)].
      destruct (displayEditor_keeps_document _ _ _ D) as [-> _]. rewrite J.
      exact (JSON_parse_well_formed _ _ P).
  - split; [exact (onChange_well_formed _ _ _ _ S Hin K W E)|].
    exact (onChange_in_sync _ _ _ _ S Hin E).
  - destruct (saveButton_handler_keeps confirmSave supported picked stored v) as (Ej & _ & Ec).
    split; [now rewrite Ej|]. exact (in_sync_same _ _ Ej Ec S).
Qed.

(** ** A session of edits *)

Lemma scenario_view_reachable : reachable scenario_view.
Proof.
  apply (file_picked 2 true [scenario_file] (onOpen new_view)); [exact opened|].
  vm_compute. reflexivity.
Qed.

Lemma shown_field (v : View) (field : Element) :
  in_sync v -> In field (fields_of (contentEl v)) ->
  exists container leaf,
    lookup (jsonData v) (field_path field) = Some leaf
    /\ is_object (Some leaf) = false
    /\ match field with
       | TextSetting _ _ data key =>
           lookup (jsonData v) data = Some container /\ Get container key = Some leaf
       | _ => False
       end.
Proof.
  intros S Hin. destruct (S _ Hin) as (n & x & p & k & c & leaf & -> & L & G & O).
  exists c, leaf. cbn [field_path]. split; [apply lookup_snoc; eauto|]. auto.
Qed.

(** X1.  In every state of a view the document is a value [JSON.parse] can
    return, every text field shown writes to a primitive value of the
    document, and so every edit of a field shown goes through and stores the
    text at the field's place. *)
Theorem session_fields_in_step (v : View) :
  reachable v ->
  well_formed (jsonData v) = true
  /\ in_sync v
  /\ forall field newValue,
       In field (fields_of (contentEl v)) ->
       exists v', onChange field newValue v = Some v'
                  /\ lookup (jsonData v') (field_path field) = Some (JString newValue)
                  /\ contentEl v' = contentEl v.
Proof.
  intro R. destruct (reachable_invariant v R) as [W S].
  split; [exact W|]. split; [exact S|]. intros field newValue Hin.
  destruct (S _ Hin) as (n & x & p & k & c & leaf & -> & L & G & O).
  destruct (assign_existing _ _ _ _ _ (JString newValue) L G) as (root' & A & L').
  cbn [onChange field_path]. rewrite A. eexists; split; [reflexivity|]. auto.
Qed.

Lemma session_fields_in_step_witness :
  well_formed (jsonData scenario_view) = true
  /\ in_sync scenario_view
  /\ forall field newValue,
       In field (fields_of (contentEl scenario_view)) ->
       exists v', onChange field newValue scenario_view = Some v'
                  /\ lookup (jsonData v') (field_path field) = Some (JString newValue)
                  /\ contentEl v' = contentEl scenario_view.
Proof. exact (session_fields_in_step scenario_view scenario_view_reachable). Defined.

(** X2.  Whenever the save handler writes a file, the answer to the confirmation
    was yes and the platform went along, the name suggested is [filePath],
    and the text written is JSON that reads back as the document (as
    [JSON.stringify] keeps it).  Whatever happens, the handler leaves the
    document, the file name and the display as they were, and when the
    confirmation is declined it does nothing at all. *)
Theorem saved_text_reads_back (confirmSave supported picked stored : bool) (v : View) :
  reachable v ->
  (forall fileName text,
      fst (saveButton_handler confirmSave supported picked stored v) = Some (fileName, text) ->
      confirmSave && supported && picked && stored = true
      /\ fileName = filePath v
      /\ text = JSON_stringify (jsonData v)
      /\ JSON_parse text = Some (written (jsonData v)))
  /\ jsonData (snd (saveButton_handler confirmSave supported picked stored v)) = jsonData v
  /\ filePath (snd (saveButton_handler confirmSave supported picked stored v)) = filePath v
  /\ contentEl (snd (saveButton_handler confirmSave supported picked stored v)) = contentEl v
  /\ (confirmSave = false ->
      saveButton_handler confirmSave supported picked stored v = (None, v)).
Proof.
  intro R. destruct (reachable_invariant v R) as [W _].
  split; [|destruct (saveButton_handler_keeps confirmSave supported picked stored v)
             as (A & B & C); repeat split; auto; now intros ->].
  intros fileName content. unfold saveButton_handler.
  destruct confirmSave, supported, picked, stored; cbn; try discriminate.
  intros [= <- <-]. repeat split. now apply parse_stringify.
Qed.

Lemma saved_text_reads_back_witness :
  (forall fileName text,
      fst (saveButton_handler true true true true scenario_view) = Some (fileName, text) ->
      true && true && true && true = true
      /\ fileName = filePath scenario_view
      /\ text = JSON_stringify (jsonData scenario_view)
      /\ JSON_parse text = Some (written (jsonData scenario_view)))
  /\ jsonData (snd (saveButton_handler true true true true scenario_view))
     = jsonData scenario_view
  /\ filePath (snd (saveButton_handler true true true true scenario_view))
     = filePath scenario_view
  /\ contentEl (snd (saveButton_handler true true true true scenario_view))
     = contentEl scenario_view
  /\ (true = false ->
      saveButton_handler true true true true scenario_view = (None, scenario_view)).
Proof.
  exact (saved_text_reads_back true true true true scenario_view scenario_view_reachable).
Defined.

Lemma shown_fields_diverge (v : View) (f g : Element) :
  in_sync v -> In f (fields_of (contentEl v)) -> In g (fields_of (contentEl v)) ->
  field_path f <> field_path g -> diverges (field_path f) (field_path g) = true.
Proof.
  intros S Hf Hg N.
  destruct (shown_field v f S Hf) as (_ & leaf & Lf & Of & _).
  destruct (shown_field v g S Hg) as (_ & leaf' & Lg & Og & _).
  exact (leaves_diverge _ _ _ _ _ Lf Of Lg Og N).
Qed.

(** X3.  An edit of one field shown leaves the value of every other field shown:
    what is at the other field's place in the document is what was there. *)
Theorem edit_leaves_other_fields (v : View) (f g : Element) (newValue : jsstring) :
  reachable v ->
  In f (fields_of (contentEl v)) -> In g (fields_of (contentEl v)) ->
  field_path f <> field_path g ->
  exists v' leaf,
    onChange f newValue v = Some v'
    /\ lookup (jsonData v) (field_path g) = Some leaf
    /\ lookup (jsonData v') (field_path g) = Some leaf.
Proof.
  intros R Hf Hg N. destruct (reachable_invariant v R) as [_ S].
  pose proof (shown_fields_diverge v f g S Hf Hg N) as D.
  destruct (shown_field v g S Hg) as (_ & leaf' & Lg & _ & _).
  destruct (S _ Hf) as (n & x & p & k & c & leaf & -> & L & G & O).
  destruct (assign_existing _ _ _ _ _ (JString newValue) L G) as (root' & A & _).
  cbn [onChange field_path] in *. rewrite A. do 2 eexists. split; [reflexivity|].
  split; [exact Lg|]. cbn [jsonData].
  now rewrite (lookup_assign_other _ _ _ _ _ _ A D).
Qed.

Lemma edit_leaves_other_fields_witness :
  exists v' leaf,
    onChange field_b (lit "2") scenario_view = Some v'
    /\ lookup (jsonData scenario_view) (field_path field_c) = Some leaf
    /\ lookup (jsonData v') (field_path field_c) = Some leaf.
Proof.
  apply (edit_leaves_other_fields scenario_view field_b field_c (lit "2")
                                  scenario_view_reachable).
  - simpl. tauto.
  - simpl. tauto.
  - discriminate.
Defined.

(** X4.  Edits of two different fields shown can be made in either order: the
    document is the same afterwards. *)
Theorem edits_commute (v : View) (f g : Element) (a b : jsstring) :
  reachable v ->
  In f (fields_of (contentEl v)) -> In g (fields_of (contentEl v)) ->
  field_path f <> field_path g ->
  exists v1 v2 v',
    onChange f a v = Some v1 /\ onChange g b v = Some v2
    /\ onChange g b v1 = Some v' /\ onChange f a v2 = Some v'.
Proof.
  intros R Hf Hg N. destruct (reachable_invariant v R) as [_ S].
  pose proof (shown_fields_diverge v f g S Hf Hg N) as D.
  destruct (S _ Hf) as (n & x & p & k & c & leaf & -> & L & G & O).
  destruct (S _ Hg) as (n2 & x2 & q & k2 & c2 & leaf2 & -> & L2 & G2 & O2).
  cbn [field_path] in D.
  destruct (assign_comm _ _ _ _ _ _ _ _ _ (JString a) (JString b) L G L2 G2 D)
    as (d1 & d2 & d & A1 & A2 & A12 & A21).
  cbn [onChange]. rewrite A1, A2. do 3 eexists.
  split; [reflexivity|]. split; [reflexivity|]. cbn [jsonData filePath contentEl notices].
  now rewrite A12, A21.
Qed.

Lemma edits_commute_witness :
  exists v1 v2 v',
    onChange field_b (lit "2") scenario_view = Some v1
    /\ onChange field_c (lit "no") scenario_view = Some v2
    /\ onChange field_c (lit "no") v1 = Some v' /\ onChange field_b (lit "2") v2 = Some v'.
Proof.
  apply (edits_commute scenario_view field_b field_c (lit "2") (lit "no")
                       scenario_view_reachable).
  - simpl. tauto.
  - simpl. tauto.
  - discriminate.
Defined.

(** X5.  Of two texts typed into the same field the second stays: the document is
    the one the second text alone would have given. *)
Theorem last_text_stays (v : View) (f : Element) (a b : jsstring) :
  reachable v ->
  In f (fields_of (contentEl v)) ->
  exists v1 v2,
    onChange f a v = Some v1 /\ onChange f b v1 = Some v2 /\ onChange f b v = Some v2.
Proof.
  intros R Hf. destruct (reachable_invariant v R) as [_ S].
  destruct (S _ Hf) as (n & x & p & k & c & leaf & -> & L & G & O).
  destruct (assign_existing _ _ _ _ _ (JString a) L G) as (d1 & A1 & _).
  destruct (assign_existing _ _ _ _ _ (JString b) L G) as (d2 & A2 & _).
  cbn [onChange]. rewrite A1, A2. do 2 eexists. split; [reflexivity|].
  cbn [jsonData filePath contentEl notices].
  rewrite (assign_twice _ _ _ _ _ _ _ (JString b) L G A1), A2. auto.
Qed.

Lemma last_text_stays_witness :
  exists v1 v2,
    onChange field_b (lit "2") scenario_view = Some v1
    /\ onChange field_b (lit "3") v1 = Some v2
    /\ onChange field_b (lit "3") scenario_view = Some v2.
Proof.
  apply (last_text_stays scenario_view field_b (lit "2") (lit "3") scenario_view_reachable).
  simpl. tauto.
Defined.

(** ** The display and the values of the document *)

Lemma keys_ordered_NoDup (ks : list jsstring) : keys_ordered ks = true -> NoDup ks.
Proof.
  induction ks as [|k ks IH]; [constructor|]. cbn [keys_ordered]. intro H.
  apply andb_true_iff in H as [H _]. apply andb_true_iff in H as [H1 H2].
  constructor; [|auto]. intro Hin. apply negb_true_iff in H1.
  unfold mem in H1. rewrite <- not_true_iff_false in H1. apply H1.
  apply existsb_exists. exists k. split; [exact Hin|apply str_eqb_refl].
Qed.

Lemma NoDup_map_injective {A B : Type} (f : A -> B) (l : list A) :
  (forall x y, f x = f y -> x = y) -> NoDup l -> NoDup (map f l).
Proof.
  intros Inj N. induction N as [|x l Hx N IH]; [constructor|].
  cbn [map]. constructor; [|exact IH]. intro Hin.
  apply in_map_iff in Hin as (y & E & Hy). apply Inj in E. now subst.
Qed.

Lemma decimal_indices_NoDup (n : nat) : NoDup (map decimal (indices n)).
Proof.
  unfold indices. rewrite map_map.
  apply NoDup_map_injective; [|apply seq_NoDup].
  intros i j E.
  assert (H : index_of_key (decimal (Z.of_nat i)) = index_of_key (decimal (Z.of_nat j)))
    by now rewrite E.
  rewrite !index_of_key_decimal in H by lia. injection H. lia.
Qed.

Lemma Object_keys_NoDup (data : JsValue) :
  well_formed data = true -> NoDup (Object_keys data).
Proof.
  destruct data; simpl; try constructor.
  - intros _. apply decimal_indices_NoDup.
  - intro W. apply andb_true_iff in W as [W _]. now apply keys_ordered_NoDup.
Qed.











Lemma field_paths_flat_map (els : list Element) :
  map field_path (fields_of els)
  = flat_map (fun el => map field_path (fields_in el)) els.
Proof.
  unfold fields_of. induction els as [|el els IH]; [reflexivity|].
  cbn [flat_map]. now rewrite map_app, IH.
Qed.

Lemma NoDup_flat_map_keys {A : Type} (R : jsstring -> A -> Prop) (P : A -> list (list jsstring))
      (path : list jsstring) (keys : list jsstring) (els : list A) :
  Forall2 R keys els -> NoDup keys ->
  (forall k e, In k keys -> R k e ->
               NoDup (P e) /\ forall q, In q (P e) -> exists rest, q = path ++ k :: rest) ->
  NoDup (flat_map P els)
  /\ forall q, In q (flat_map P els) -> exists k rest, In k keys /\ q = path ++ k :: rest.
Proof.
  induction 1 as [|k e keys els HR _ IH]; intros N H.
  - split; [constructor|]. intros q [].
  - inversion N as [|? ? Hk N']; subst.
    destruct (H k e (or_introl eq_refl) HR) as [Ne Pe].
    destruct IH as [Nr Pr]; [exact N'|intros k' e' Hin; apply H; now right|].
    cbn [flat_map]. split.
    + apply NoDup_app; [exact Ne|exact Nr|].
      intros q Hq Hq'. destruct (Pe q Hq) as (rest & ->).
      destruct (Pr _ Hq') as (k' & rest' & Hk' & E).
      apply app_inv_head in E. injection E as <- _. contradiction.
    + intros q Hq. apply in_app_iff in Hq as [Hq|Hq].
      * destruct (Pe q Hq) as (rest & ->). exists k, rest. split; [now left|reflexivity].
      * destruct (Pr q Hq) as (k' & rest & Hk' & ->). exists k', rest. split; [now right|reflexivity].
Qed.

(** No two text fields of a display write to the same place, and every
    field below [path] writes below [path]. *)
Lemma createFields_paths (fuel : nat) (path : list jsstring) (data : JsValue)
      (els : list Element) :
  well_formed data = true -> createFields fuel path data = Some els ->
  NoDup (map field_path (fields_of els))
  /\ forall q, In q (map field_path (fields_of els)) ->
               exists k rest, q = path ++ k :: rest.
Proof.
  revert path data els; induction fuel as [|f IH]; intros path data els W H; [discriminate|].
  cbn [createFields] in H. apply forEach_inv in H.
  rewrite field_paths_flat_map.
  destruct (NoDup_flat_map_keys _ (fun el => map field_path (fields_in el)) path _ _ H)
    as [N P].
  - apply (Permutation_NoDup (sort_perm _)). now apply Object_keys_NoDup.
  - intros key el Hin E. apply (proj1 (sort_In _ _)) in Hin.
    destruct (Get_keys _ _ Hin) as [child G]. rewrite G in E.
    destruct (is_object (Some child)) eqn:O.
    + destruct (createFields f (path ++ [key]) child) as [nested|] eqn:C; [|discriminate].
      injection E as <-. cbn [fields_in]. fold (fields_of nested).
      destruct (IH _ _ _ (Get_well_formed _ _ _ W G) C) as [N P].
      split; [exact N|]. intros q Hq. destruct (P q Hq) as (k & rest & ->).
      exists (k :: rest). now rewrite <- app_assoc.
    + injection E as <-. cbn. split; [repeat constructor; intros []|].
      intros q [<-|[]]. now exists [].
  - split; [exact N|]. intros q Hq. destruct (P q Hq) as (k & rest & _ & ->). eauto.
Qed.

(** X7.  No two text fields shown for a document read from a file write to the
    same place: places and fields correspond one to one. *)
Theorem fields_write_to_different_places (fuel : nat) (text : jsstring) (root : JsValue)
        (els : list Element) :
  JSON_parse text = Some root ->
  createFields fuel [] root = Some els ->
  NoDup (map field_path (fields_of els))
  /\ forall field, In field (fields_of els) ->
       exists leaf, lookup root (field_path field) = Some leaf
                    /\ is_object (Some leaf) = false
                    /\ field_value field = ToString (Some leaf).
Proof.
  intros P C. apply JSON_parse_well_formed in P.
  split; [exact (proj1 (createFields_paths _ _ _ _ P C))|].
  intros field Hin.
  destruct (createFields_field _ _ _ _ _ C Hin) as (rel & c & leaf & k & -> & L & G & O).
  exists leaf. cbn [field_path field_value app]. split; [apply lookup_snoc; eauto|]. auto.
Qed.

Lemma fields_write_to_different_places_witness :
  NoDup (map field_path (fields_of scenario_a_fields))
  /\ forall field, In field (fields_of scenario_a_fields) ->
       exists leaf, lookup scenario_a (field_path field) = Some leaf
                    /\ is_object (Some leaf) = false
                    /\ field_value field = ToString (Some leaf).
Proof.
  apply (fields_write_to_different_places 2 (text scenario_file) scenario_a scenario_a_fields);
    vm_compute; reflexivity.
Defined.

(** ** Loading a file *)

Lemma createFields_no_button (fuel : nat) (path : list jsstring) (data : JsValue)
      (els : list Element) :
  createFields fuel path data = Some els -> forallb (fun el => negb (is_button el)) els = true.
Proof.
  destruct fuel as [|f]; [discriminate|]. cbn [createFields]. intro H.
  apply forEach_inv in H. apply forallb_forall. intros el Hel.
  destruct (Forall2_In_right _ _ _ _ H Hel) as (key & _ & E).
  destruct (is_object (Get data key)).
  - destruct (Get data key) as [child|]; [|discriminate].
    destruct (createFields f (path ++ [key]) child); [|discriminate].
    now injection E as <-.
  - now injection E as <-.
Qed.

Lemma createFields_primitive (fuel : nat) (path : list jsstring) (data : JsValue) :
  is_object (Some data) = false -> createFields (S fuel) path data = Some [].
Proof. destruct data; simpl; try discriminate; reflexivity. Qed.

(** X8.  A file that parses replaces all that was shown: the content is the
    fields of the new document followed by the save button and by nothing
    else, so the button that opens a file is gone; the document is the value
    parsed and the name suggested for saving is the name of the file.  As
    many nested calls as the text has characters, and one more, are enough. *)
Theorem load_replaces_content (v : View) (file : File) (others : list File) (root : JsValue) :
  JSON_parse (text file) = Some root ->
  exists v' fields,
    fileButton_onclick (S (List.length (text file))) true (file :: others) v = Some v'
    /\ createFields (S (List.length (text file))) [] root = Some fields
    /\ contentEl v' = fields ++ [Button "Save Changes"]
    /\ forallb (fun el => negb (is_button el)) fields = true
    /\ ~ In (Button "Open JSON File") (contentEl v')
    /\ jsonData v' = root
    /\ filePath v' = name file.
Proof.
  intro P. unfold fileButton_onclick. cbn [negb]. rewrite P.
  destruct (createFields_returns (S (List.length (text file))) [] root) as [fields C].
  { pose proof (JSON_parse_size _ _ P). pose proof (depth_le_node_count root). lia. }
  pose proof (createFields_no_button _ _ _ _ C) as B.
  assert (N : forall shown, shown = fields ++ [Button "Save Changes"] ->
                            ~ In (Button "Open JSON File") shown).
  { intros shown -> Hin. apply in_app_iff in Hin as [Hin|[Hin|[]]]; [|discriminate].
    rewrite forallb_forall in B. now specialize (B _ Hin). }
  unfold displayEditor, Notice. cbn [jsonData filePath contentEl notices].
  destruct (is_object (Some root)) eqn:O.
  - rewrite C. eexists. exists fields. split; [reflexivity|].
    cbn [jsonData filePath contentEl]. repeat split; auto.
  - assert (fields = []) as ->.
    { rewrite (createFields_primitive _ _ _ O) in C. now injection C. }
    eexists. exists []. split; [reflexivity|].
    cbn [jsonData filePath contentEl]. repeat split; auto.
Qed.

Lemma load_replaces_content_witness :
  exists v' fields,
    fileButton_onclick (S (List.length (text scenario_file))) true [scenario_file]
                       (onOpen new_view) = Some v'
    /\ createFields (S (List.length (text scenario_file))) [] scenario_a = Some fields
    /\ contentEl v' = fields ++ [Button "Save Changes"]
    /\ forallb (fun el => negb (is_button el)) fields = true
    /\ ~ In (Button "Open JSON File") (contentEl v')
    /\ jsonData v' = scenario_a
    /\ filePath v' = name scenario_file.
Proof.
  apply (load_replaces_content (onOpen new_view) scenario_file [] scenario_a).
  vm_compute. reflexivity.
Defined.

(** ** Opening what was saved *)











(** ** The settings *)

Lemma has_key_assoc (k : jsstring) (props : list (jsstring * JsValue)) :
  has_key k props = match assoc k props with Some _ => true | None => false end.
Proof.
  induction props as [|[k0 w] props IH]; [reflexivity|]. simpl.
  destruct (str_eqb k0 k); [reflexivity|exact IH].
Qed.

Lemma assoc_not_key (k : jsstring) (props : list (jsstring * JsValue)) :
  ~ In k (map fst props) -> assoc k props = None.
Proof.
  intro N. destruct (assoc k props) eqn:A; [|reflexivity].
  apply assoc_In in A. apply (in_map fst) in A. contradiction.
Qed.

(** What [Object.assign] leaves under a key, for a source that lists no key
    twice. *)
Lemma assoc_fold_Set_property (k : jsstring) (src acc : list (jsstring * JsValue)) :
  NoDup (map fst src) -> str_eqb k (lit "__proto__") = false ->
  assoc k (fold_left Set_property src acc)
  = match assoc k src with Some v => Some v | None => assoc k acc end.
Proof.
  intros N Hk. revert acc; induction src as [|[k0 v0] src IH]; intro acc; [reflexivity|].
  cbn [map fst] in N. inversion N as [|? ? H0 N']; subst.
  cbn [fold_left assoc]. rewrite (IH N'). unfold Set_property. cbn [fst snd].
  destruct (str_eqb k0 k) eqn:E.
  - apply str_eqb_eq in E. subst k0. rewrite Hk, assoc_define_property, str_eqb_refl.
    now rewrite (assoc_not_key _ _ H0).
  - destruct (assoc k src); [reflexivity|].
    destruct (str_eqb k0 (lit "__proto__")); [reflexivity|].
    now rewrite assoc_define_property, E.
Qed.

Lemma first_name_app (keys more : list jsstring) (k : jsstring) :
  first_name keys = Some k -> first_name (keys ++ more) = Some k.
Proof.
  unfold first_name. induction keys as [|k0 keys IH]; [discriminate|]. cbn [app find].
  destruct (negb (is_array_index k0)); [auto|exact IH].
Qed.

Lemma first_name_insert (l1 l2 : list jsstring) (k : jsstring) :
  is_array_index k = true -> first_name (l1 ++ k :: l2) = first_name (l1 ++ l2).
Proof.
  intro H. unfold first_name. induction l1 as [|k0 l1 IH]; cbn [app find].
  - now rewrite H.
  - destruct (negb (is_array_index k0)); [reflexivity|exact IH].
Qed.

Lemma Set_property_shape (props : list (jsstring * JsValue)) (kv : jsstring * JsValue) :
  settings_shape props -> settings_shape (Set_property props kv).
Proof.
  intros (O & F & P). destruct kv as [k v]. unfold Set_property. cbn [fst snd].
  destruct (str_eqb k (lit "__proto__")) eqn:E; [now repeat split|].
  split; [now apply define_property_ordered|]. split.
  - unfold define_property. destruct (has_key k props).
    + now rewrite replace_value_keys.
    + destruct (array_index_of_key k) as [i|] eqn:Ek.
      * destruct (insert_index_split i k v props) as (l1 & l2 & E1 & ->).
        rewrite map_app. cbn [map fst]. rewrite first_name_insert.
        -- now rewrite <- map_app, <- E1.
        -- unfold is_array_index. now rewrite Ek.
      * rewrite map_app. now apply first_name_app.
  - rewrite has_key_assoc, assoc_define_property, E, <- has_key_assoc. exact P.
Qed.

Lemma fold_Set_property_shape (src acc : list (jsstring * JsValue)) :
  settings_shape acc -> settings_shape (fold_left Set_property src acc).
Proof.
  revert acc; induction src as [|kv src IH]; intros acc H; [exact H|].
  cbn [fold_left]. apply IH. now apply Set_property_shape.
Qed.

Lemma Object_assign_defaults (loaded : JsValue) :
  Object_assign [] [DEFAULT_SETTINGS; loaded]
  = fold_left Set_property (own_enumerable loaded) [(lit "filePath", JString [])].
Proof. reflexivity. Qed.

Lemma loadSettings_shape (loaded : JsValue) :
  settings_shape (Object_assign [] [DEFAULT_SETTINGS; loaded]).
Proof.
  rewrite Object_assign_defaults. apply fold_Set_property_shape.
  repeat split; vm_compute; reflexivity.
Qed.

Lemma first_name_split (props : list (jsstring * JsValue)) (k : jsstring) :
  first_name (map fst props) = Some k ->
  exists idx x rest,
    props = idx ++ (k, x) :: rest
    /\ forallb is_array_index (map fst idx) = true
    /\ is_array_index k = false.
Proof.
  unfold first_name. induction props as [|[k0 w] props IH]; [discriminate|].
  cbn [map fst find]. destruct (is_array_index k0) eqn:E; cbn [negb].
  - intro H. destruct (IH H) as (idx & x & rest & -> & A & B).
    exists ((k0, w) :: idx), x, rest. cbn [map fst forallb]. now rewrite E, A.
  - intros [= <-]. exists [], w, props. auto.
Qed.

Lemma replace_value_fresh (k : jsstring) (v w : JsValue) (l1 l2 : list (jsstring * JsValue)) :
  has_key k l1 = false ->
  replace_value k v (l1 ++ (k, w) :: l2) = l1 ++ (k, v) :: l2.
Proof.
  induction l1 as [|[k0 w0] l1 IH]; cbn [app replace_value has_key].
  - now rewrite str_eqb_refl.
  - intro H. apply orb_false_iff in H as [-> H]. now rewrite IH.
Qed.

Lemma has_key_app (k : jsstring) (l1 l2 : list (jsstring * JsValue)) :
  has_key k (l1 ++ l2) = has_key k l1 || has_key k l2.
Proof. now rewrite !has_key_mem, map_app, existsb_app. Qed.

Lemma has_key_index (k : jsstring) (idx : list (jsstring * JsValue)) :
  forallb is_array_index (map fst idx) = true -> is_array_index k = false ->
  has_key k idx = false.
Proof.
  intros A N. induction idx as [|[k0 w] idx IH]; [reflexivity|].
  cbn [map fst forallb] in A. apply andb_true_iff in A as [A0 A].
  cbn [has_key]. rewrite (IH A), orb_false_r. apply str_eqb_neq. intros ->. congruence.
Qed.

(** A new array index is listed after the smaller ones and before the first
    key that is no array index. *)
Lemma insert_index_before_name (i : Z) (k name : jsstring) (v d : JsValue)
      (done tail : list (jsstring * JsValue)) :
  forallb (fun k0 => match array_index_of_key k0 with
                     | Some j => j <? i
                     | None => false
                     end) (map fst done) = true ->
  array_index_of_key name = None ->
  insert_index i k v (done ++ (name, d) :: tail) = done ++ (k, v) :: (name, d) :: tail.
Proof.
  intros H N. induction done as [|[k0 w] done IH]; cbn [app insert_index].
  - now rewrite N.
  - cbn [map fst forallb] in H. apply andb_true_iff in H as [H0 H].
    destruct (array_index_of_key k0) as [j|]; [|discriminate].
    now rewrite H0, IH.
Qed.

Lemma keys_ordered_before (done : list jsstring) (k : jsstring) (more : list jsstring) (i : Z) :
  keys_ordered (done ++ k :: more) = true ->
  forallb is_array_index done = true -> array_index_of_key k = Some i ->
  forallb (fun k0 => match array_index_of_key k0 with
                     | Some j => j <? i
                     | None => false
                     end) done = true
  /\ mem k done = false.
Proof.
  intros O A Ek. induction done as [|k0 done IH]; [auto|].
  cbn [app keys_ordered] in O. apply andb_true_iff in O as [O O3].
  apply andb_true_iff in O as [O1 O2].
  cbn [forallb] in A. apply andb_true_iff in A as [A0 A].
  destruct (IH O2 A) as [IH1 IH2]. cbn [forallb]. unfold is_array_index in A0.
  destruct (array_index_of_key k0) as [j|] eqn:E0; [|discriminate].
  rewrite forallb_app in O3. apply andb_true_iff in O3 as [_ O3].
  cbn [forallb] in O3. rewrite Ek in O3. apply andb_true_iff in O3 as [-> _].
  split; [exact IH1|]. unfold mem in *. cbn [existsb]. rewrite IH2, orb_false_r.
  apply negb_true_iff in O1. unfold mem in O1. rewrite existsb_app in O1.
  apply orb_false_iff in O1 as [_ O1]. cbn [existsb] in O1.
  apply orb_false_iff in O1 as [O1 _]. now rewrite str_eqb_sym.
Qed.

Lemma is_array_index_not_proto (k : jsstring) :
  is_array_index k = true -> str_eqb k (lit "__proto__") = false.
Proof.
  intro H. apply str_eqb_neq. intros ->. vm_compute in H. discriminate.
Qed.

(** Array indices assigned in ascending order line up before the name. *)
Lemma fold_indices (name : jsstring) (d : JsValue) (todo done : list (jsstring * JsValue)) :
  keys_ordered (map fst (done ++ todo)) = true ->
  forallb is_array_index (map fst (done ++ todo)) = true ->
  is_array_index name = false ->
  fold_left Set_property todo (done ++ [(name, d)]) = done ++ todo ++ [(name, d)].
Proof.
  intros O A N. revert done O A; induction todo as [|[k v] todo IH]; intros done O A.
  - reflexivity.
  - cbn [fold_left]. unfold Set_property at 2. cbn [fst snd].
    rewrite map_app in O, A. cbn [map fst] in O, A.
    assert (Ak : is_array_index k = true).
    { rewrite forallb_app in A. apply andb_true_iff in A as [_ A].
      cbn [forallb] in A. now apply andb_true_iff in A as [A _]. }
    rewrite (is_array_index_not_proto _ Ak).
    pose proof Ak as Ek. unfold is_array_index in Ek.
    destruct (array_index_of_key k) as [i|] eqn:Ei; [|discriminate].
    destruct (keys_ordered_before _ _ _ i O) as [B M]; [|exact Ei|].
    { rewrite forallb_app in A. now apply andb_true_iff in A as [A _]. }
    unfold define_property. rewrite has_key_app, has_key_is_mem, M. cbn [has_key orb].
    assert (Hn : str_eqb name k = false).
    { apply str_eqb_neq. intros ->. congruence. }
    rewrite Hn, Ei. cbn [orb].
    rewrite insert_index_before_name; [|exact B|].
    + change (done ++ (k, v) :: [(name, d)]) with (done ++ [(k, v)] ++ [(name, d)]).
      rewrite app_assoc, IH.
      * now rewrite <- !app_assoc.
      * now rewrite <- app_assoc, map_app.
      * now rewrite <- app_assoc, map_app.
    + unfold is_array_index in N. now destruct (array_index_of_key name).
Qed.

(** Properties assigned in the order an object lists them are listed so. *)
Lemma fold_ordered (todo acc : list (jsstring * JsValue)) :
  keys_ordered (map fst (acc ++ todo)) = true ->
  has_key (lit "__proto__") todo = false ->
  fold_left Set_property todo acc = acc ++ todo.
Proof.
  revert acc; induction todo as [|[k v] todo IH]; intros acc O P.
  - now rewrite app_nil_r.
  - cbn [fold_left]. unfold Set_property at 2. cbn [fst snd].
    cbn [has_key] in P. apply orb_false_iff in P as [Pk P]. rewrite Pk.
    change (acc ++ (k, v) :: todo) with (acc ++ [(k, v)] ++ todo) in *.
    rewrite app_assoc in *. rewrite define_property_last.
    + now apply IH.
    + rewrite map_app in O. apply keys_ordered_prefix in O. now rewrite map_app in O.
Qed.

(** Settings of that shape, loaded again, are the same settings. *)
Lemma loadSettings_fixed (props : list (jsstring * JsValue)) :
  settings_shape props -> Object_assign [] [DEFAULT_SETTINGS; JObject props] = props.
Proof.
  intros (O & F & P). rewrite Object_assign_defaults. cbn [own_enumerable].
  destruct (first_name_split _ _ F) as (idx & x & rest & -> & A & N).
  rewrite fold_left_app.
  pose proof (fold_indices (lit "filePath") (JString []) idx []) as FI.
  cbn [app] in FI. rewrite FI.
  - cbn [fold_left]. unfold Set_property at 2. cbn [fst snd].
    change (str_eqb (lit "filePath") (lit "__proto__")) with false. cbv iota.
    unfold define_property. rewrite has_key_app. cbn [has_key].
    rewrite str_eqb_refl, orb_true_r.
    rewrite replace_value_fresh by now apply has_key_index.
    rewrite has_key_app in P. apply orb_false_iff in P as [_ P].
    cbn [has_key] in P. apply orb_false_iff in P as [_ P].
    change (idx ++ (lit "filePath", x) :: rest)
      with (idx ++ [(lit "filePath", x)] ++ rest) in *.
    rewrite app_assoc in *. now apply fold_ordered.
  - rewrite map_app in O. now apply keys_ordered_prefix in O.
  - exact A.
  - exact N.
Qed.

Lemma map_fst_combine {A B : Type} (a : list A) (b : list B) :
  List.length a = List.length b -> map fst (combine a b) = a.
Proof.
  revert b; induction a as [|x a IH]; intros [|y b] H; try discriminate; [reflexivity|].
  cbn [combine map fst]. f_equal. apply IH. now injection H.
Qed.

Lemma own_enumerable_keys (loaded : JsValue) :
  well_formed loaded = true ->
  NoDup (map fst (own_enumerable loaded))
  /\ (is_object (Some loaded) = true ->
      forall k, assoc k (own_enumerable loaded) = Get loaded k)
  /\ Get loaded (lit "filePath") = assoc (lit "filePath") (own_enumerable loaded).
Proof.
  intro W.
  assert (I : forall (B : Type) (n : nat) (vals : list B),
             List.length vals = n ->
             map fst (combine (map decimal (indices n)) vals) = map decimal (indices n)).
  { intros B n vals E. apply map_fst_combine. unfold indices.
    now rewrite !length_map, length_seq. }
  assert (F : forall n vals,
             List.length vals = n ->
             assoc (lit "filePath") (combine (map decimal (indices n)) vals) = None).
  { intros n vals E. apply assoc_not_key. rewrite (I _ n vals E). intro Hin.
    unfold indices in Hin. rewrite map_map in Hin.
    apply in_map_iff in Hin as (i & Ei & _).
    assert (H : index_of_key (decimal (Z.of_nat i)) = index_of_key (lit "filePath"))
      by now rewrite Ei.
    rewrite index_of_key_decimal in H by lia. vm_compute in H. discriminate. }
  destruct loaded as [| | |s|elems|props]; cbn [own_enumerable map];
    try (split; [constructor|split; [discriminate|reflexivity]]).
  - rewrite I by now rewrite length_map. split; [apply decimal_indices_NoDup|].
    split; [discriminate|]. cbn [Get]. symmetry. apply F. now rewrite length_map.
  - rewrite I by reflexivity. split; [apply decimal_indices_NoDup|]. split.
    + intros _ k. cbn [Get]. destruct (index_of_key k) as [i|] eqn:Ek.
      * apply index_of_key_canonical in Ek as [-> Hi].
        clear -Hi. rewrite <- (Z2Nat.id i Hi). generalize (Z.to_nat i). clear. intro n.
        unfold indices.
        assert (G : forall start,
                   assoc (decimal (Z.of_nat (start + n)))
                         (combine (map decimal (map Z.of_nat (seq start (List.length elems))))
                                  elems)
                   = nth_error elems n).
        { revert n. induction elems as [|x elems IH]; intros n start.
          - now destruct n.
          - cbn [List.length seq map combine assoc].
            destruct (str_eqb (decimal (Z.of_nat start)) (decimal (Z.of_nat (start + n))))
              eqn:E.
            + apply str_eqb_eq in E.
              assert (H : index_of_key (decimal (Z.of_nat start))
                          = index_of_key (decimal (Z.of_nat (start + n)))) by now rewrite E.
              rewrite !index_of_key_decimal in H by lia. injection H as H.
              assert (n = O) by lia. now subst.
            + destruct n as [|n].
              * rewrite Nat.add_0_r, str_eqb_refl in E. discriminate.
              * cbn [nth_error]. rewrite <- (IH n (S start)). do 3 f_equal. lia. }
        rewrite Nat2Z.id. exact (G O).
      * apply assoc_not_key. rewrite I by reflexivity. intro Hin.
        unfold indices in Hin. rewrite map_map in Hin.
        apply in_map_iff in Hin as (i & <- & _).
        rewrite index_of_key_decimal in Ek by lia. discriminate.
    + cbn [Get]. change (index_of_key (lit "filePath")) with (@None Z).
      symmetry. now apply F.
  - cbn [well_formed] in W. apply andb_true_iff in W as [W _].
    split; [now apply keys_ordered_NoDup|]. split; reflexivity.
Qed.

(** X10.  [loadSettings] lays what was stored over the defaults.  The settings
    always have [filePath]: the stored one if there is one, the empty string
    of the defaults otherwise, so also when nothing was stored.  Every other
    property of a stored object or array is taken over with its value, save
    [__proto__], of which the settings get no property of their own, and the
    settings have no further property. *)
Theorem loadSettings_merges (loaded : JsValue) (p : Plugin) :
  well_formed loaded = true ->
  Get (settings (loadSettings loaded p)) (lit "filePath")
  = match Get loaded (lit "filePath") with
    | Some v => Some v
    | None => Some (JString [])
    end
  /\ (is_object (Some loaded) = true ->
      forall k, k <> lit "__proto__" ->
                Get (settings (loadSettings loaded p)) k
                = match Get loaded k with
                  | Some v => Some v
                  | None => Get DEFAULT_SETTINGS k
                  end)
  /\ Get (settings (loadSettings loaded p)) (lit "__proto__") = None
  /\ (loaded = JNull -> settings (loadSettings loaded p) = DEFAULT_SETTINGS)
  /\ saved (loadSettings loaded p) = saved p.
Proof.
  intro W. destruct (own_enumerable_keys loaded W) as (N & G & F).
  cbn [loadSettings settings saved Get]. rewrite Object_assign_defaults.
  split; [|split; [|split; [|split]]].
  - rewrite assoc_fold_Set_property by (exact N || reflexivity). rewrite F.
    now destruct (assoc (lit "filePath") (own_enumerable loaded)).
  - intros O k Hk. rewrite assoc_fold_Set_property; [|exact N|now apply str_eqb_neq].
    now rewrite (G O).
  - rewrite <- Object_assign_defaults.
    destruct (loadSettings_shape loaded) as (_ & _ & P).
    rewrite has_key_assoc in P.
    now destruct (assoc (lit "__proto__") (Object_assign [] [DEFAULT_SETTINGS; loaded])).
  - now intros ->.
  - reflexivity.
Qed.

Lemma loadSettings_merges_witness :
  Get (settings (loadSettings stored_settings (mkPlugin JNull []))) (lit "filePath")
  = match Get stored_settings (lit "filePath") with
    | Some v => Some v
    | None => Some (JString [])
    end
  /\ (is_object (Some stored_settings) = true ->
      forall k, k <> lit "__proto__" ->
                Get (settings (loadSettings stored_settings (mkPlugin JNull []))) k
                = match Get stored_settings k with
                  | Some v => Some v
                  | None => Get DEFAULT_SETTINGS k
                  end)
  /\ Get (settings (loadSettings stored_settings (mkPlugin JNull []))) (lit "__proto__") = None
  /\ (stored_settings = JNull ->
      settings (loadSettings stored_settings (mkPlugin JNull [])) = DEFAULT_SETTINGS)
  /\ saved (loadSettings stored_settings (mkPlugin JNull [])) = saved (mkPlugin JNull []).
Proof. exact (loadSettings_merges stored_settings (mkPlugin JNull []) eq_refl). Defined.

(** X11.  Changing the path in the settings tab stores the text typed under
    [filePath] and leaves every other setting; the settings are handed to
    [saveData] as they are then.  Loaded again, from the value handed over
    or from what its JSON text reads back as, they are the same settings,
    with the same keys in the same order, and the tab shows the text typed
    in its one row. *)
Theorem settings_survive_reload (loaded : JsValue) (value : jsstring) (p : Plugin) :
  exists p',
    display_onChange value (loadSettings loaded p) = Some p'
    /\ Get (settings p') (lit "filePath") = Some (JString value)
    /\ (forall k, k <> lit "filePath" ->
                  Get (settings p') k = Get (settings (loadSettings loaded p)) k)
    /\ saved p' = saved p ++ [settings p']
    /\ settings (loadSettings (settings p') p') = settings p'
    /\ settings (loadSettings (written (settings p')) p') = written (settings p')
    /\ display p'
       = [mkTextRow "Default JSON File Path" "Set the default path for JSON files"
                    "Enter the file path" (Some (JString value))].
Proof.
  pose proof (loadSettings_shape loaded) as S0.
  set (props := Object_assign [] [DEFAULT_SETTINGS; loaded]) in *.
  assert (S1 : settings_shape (define_property (lit "filePath") (JString value) props)).
  { exact (Set_property_shape props (lit "filePath", JString value) S0). }
  set (props' := define_property (lit "filePath") (JString value) props) in *.
  assert (G : assoc (lit "filePath") props' = Some (JString value)).
  { unfold props'. now rewrite assoc_define_property, str_eqb_refl. }
  exists (mkPlugin (JObject props') (saved p ++ [JObject props'])).
  unfold display_onChange, loadSettings, saveSettings, display.
  cbn [settings saved Put Get]. fold props. fold props'.
  split; [reflexivity|]. split; [exact G|]. split.
  - intros k Hk. unfold props'. rewrite assoc_define_property.
    destruct (str_eqb (lit "filePath") k) eqn:E; [|reflexivity].
    apply str_eqb_eq in E. congruence.
  - split; [reflexivity|]. split; [now rewrite loadSettings_fixed|].
    split; [|now rewrite G]. cbn [written]. f_equal. apply loadSettings_fixed.
    destruct S1 as (O & F & P). unfold settings_shape.
    rewrite has_key_mem in *.
    fold (written_props props'). now rewrite written_props_keys.
Qed.

(** ** The button that opens a file *)

Lemma displayEditor_content (fuel : nat) (v v' : View) :
  displayEditor fuel v = Some v' ->
  exists fields, contentEl v' = fields ++ [Button "Save Changes"]
                 /\ forallb (fun el => negb (is_button el)) fields = true.
Proof.
  unfold displayEditor. destruct (is_object (Some (jsonData v))).
  - destruct (createFields fuel [] (jsonData v)) as [els|] eqn:C; [|discriminate].
    intros [= <-]. exists els. split; [reflexivity|].
    exact (createFields_no_button _ _ _ _ C).
  - intros [= <-]. now exists [].
Qed.

(** X12.  A view shows the button that opens a file only until a file has
    been loaded: either its content is that button alone and its document
    is still [null], or its content is the fields of a document followed by
    the save button, with no other button.  To open another file the view
    must be opened anew. *)
Theorem open_button_until_loaded (v : View) :
  reachable v ->
  (contentEl v = [Button "Open JSON File"] /\ jsonData v = JNull)
  \/ (exists fields, contentEl v = fields ++ [Button "Save Changes"]
                     /\ forallb (fun el => negb (is_button el)) fields = true
                     /\ ~ In (Button "Open JSON File") (contentEl v)).
Proof.
  induction 1 as [|fuel supported picked v v' _ IH E
                  |field newValue v v' _ IH Hin K E
                  |confirmSave supported picked stored v _ IH].
  - left. split; reflexivity.
  - apply fileButton_onclick_cases in E as [[Ej Ec]|(file & others & parsed & v1 & _ & _ & _ & D)].
    + now rewrite Ej, Ec.
    + right. destruct (displayEditor_content _ _ _ D) as (fields & -> & B).
      exists fields. repeat split; auto. intro Hin.
      apply in_app_iff in Hin as [Hin|[Hin|[]]]; [|discriminate].
      rewrite forallb_forall in B. now specialize (B _ Hin).
  - destruct field as [| |n x p k]; try discriminate. cbn [onChange] in E.
    destruct (assign (jsonData v) p k (JString newValue)); [|discriminate].
    injection E as <-. cbn [contentEl jsonData].
    destruct IH as [[Ec _]|IH]; [|now right].
    rewrite Ec in Hin. destruct Hin.
  - destruct (saveButton_handler_keeps confirmSave supported picked stored v) as (Ej & _ & Ec).
    now rewrite Ej, Ec.
Qed.

Lemma open_button_until_loaded_witness :
  (contentEl scenario_view = [Button "Open JSON File"] /\ jsonData scenario_view = JNull)
  \/ (exists fields, contentEl scenario_view = fields ++ [Button "Save Changes"]
                     /\ forallb (fun el => negb (is_button el)) fields = true
                     /\ ~ In (Button "Open JSON File") (contentEl scenario_view)).
Proof. exact (open_button_until_loaded scenario_view scenario_view_reachable). Defined.
